(** * Jobberman job scraper: extraction and normalisation pipeline

    A shallow embedding of [src/main.js] (the Crawlee/Cheerio actor) and of
    the properties its specification states about it.

    The actor exists in several near-identical revisions that are kept side
    by side in the source tree.  The revision that carries the whole
    pipeline (listing-card seeds, selector cascade, JSON-LD enrichment,
    quota controller) is the one embedded here in full; where a sibling
    revision of the same helper differs in a way that matters, it is
    embedded next to it under a primed or suffixed name.

    Conventions.
    - A JavaScript string is the list of its UTF-16 code units ([str]).
    - [undefined]/[null] are [None]; a value that the code only ever tests
      for truthiness is tested with [truthy].
    - Regular expressions are written as [regex] terms that mirror the
      literal in the source and are run by a backtracking matcher with the
      priorities of the ECMAScript matcher (leftmost start, greedy
      quantifiers, alternatives left to right).
    - A number read from decimal digits is the double nearest to it
      ([number]); it is written with the digits JavaScript writes.
    - What the platform supplies ([new URL], Cheerio's markup parser and
      selector engine) is not part of the program: the URL parser and the
      markup parser are section variables, and a document is given by the
      nodes its selectors pick. *)

From Stdlib Require Import ZArith NArith Lia String Ascii.
From stdpp Require Import base list gmap.

Local Open Scope N_scope.
Local Open Scope list_scope.

(** ** Strings *)

Definition str := list N.

Fixpoint js (s : string) : str :=
  match s with
  | EmptyString => []
  | String a s' => N_of_ascii a :: js s'
  end.

(** Truthiness of a string value and of a possibly undefined one. *)
Definition nonempty (s : str) : bool :=
  match s with [] => false | _ :: _ => true end.

Definition truthy (o : option str) : bool :=
  match o with Some s => nonempty s | None => false end.

(** [a || b] on strings. *)
Definition or_str (a b : str) : str := if nonempty a then a else b.

(** [a || b] when [a] may be undefined and [b] is a string. *)
Definition or_else (a : option str) (b : str) : str :=
  match a with Some s => or_str s b | None => b end.

(** [a || b] when both may be undefined. *)
Definition or_opt (a b : option str) : option str :=
  if truthy a then a else b.

Definition str_eqb (a b : str) : bool := bool_decide (a = b).

(** ** Character classes *)

Definition in_range (lo hi c : N) : bool := (lo <=? c) && (c <=? hi).

Definition is_digit (c : N) : bool := in_range 48 57 c.
Definition is_upper (c : N) : bool := in_range 65 90 c.
Definition is_lower (c : N) : bool := in_range 97 122 c.
Definition is_alpha (c : N) : bool := is_upper c || is_lower c.
(** [\w] *)
Definition is_word (c : N) : bool := is_alpha c || is_digit c || (c =? 95).

(** [\s]: WhiteSpace and LineTerminator code points. *)
Definition is_space (c : N) : bool :=
  in_range 9 13 c || (c =? 32) || (c =? 160) || (c =? 5760)
  || in_range 8192 8202 c || (c =? 8232) || (c =? 8233) || (c =? 8239)
  || (c =? 8287) || (c =? 12288) || (c =? 65279).

Definition to_upper (c : N) : N := if is_lower c then c - 32 else c.
Definition to_lower (c : N) : N := if is_upper c then c + 32 else c.

(** ** Regular expressions *)

Inductive regex : Type :=
| Eps
| Chr (p : N -> bool)
| Seq (r1 r2 : regex)
| Alt (r1 r2 : regex)
| Rep (lo : nat) (hi : option nat) (r : regex)
| Grp (i : nat) (r : regex)
| WordB
| Bol
| Eol.

(** A matcher state: the input already passed (most recent first), the
    input still ahead, and the captures made so far. *)
Record mstate : Type := MState {
  seen : str;
  ahead : str;
  caps : list (nat * str)
}.

Fixpoint groups (r : regex) : list nat :=
  match r with
  | Seq r1 r2 | Alt r1 r2 => groups r1 ++ groups r2
  | Rep _ _ r1 => groups r1
  | Grp i r1 => i :: groups r1
  | _ => []
  end.

Definition mem_nat (i : nat) (l : list nat) : bool := existsb (Nat.eqb i) l.

Definition clear_caps (gs : list nat) (st : mstate) : mstate :=
  MState (seen st) (ahead st)
         (List.filter (fun e => negb (mem_nat (fst e) gs)) (caps st)).

Fixpoint cap_lookup (i : nat) (cs : list (nat * str)) : option str :=
  match cs with
  | [] => None
  | (j, s) :: cs' => if Nat.eqb i j then Some s else cap_lookup i cs'
  end.

Definition set_cap (i : nat) (from : mstate) (st : mstate) : mstate :=
  MState (seen st) (ahead st)
         ((i, take (length (ahead from) - length (ahead st)) (ahead from))
            :: caps st).

Definition head_is (p : N -> bool) (s : str) : bool :=
  match s with c :: _ => p c | [] => false end.

Definition at_word_boundary (st : mstate) : bool :=
  xorb (head_is is_word (seen st)) (head_is is_word (ahead st)).

(** The loop of a greedy quantifier [{lo,hi}]: one more iteration is
    preferred to stopping; once the minimum is reached an iteration that
    consumes nothing is rejected; the captures of the body are reset when
    an iteration starts. *)
Fixpoint rep_loop (body : mstate -> list mstate) (gs : list nat)
    (fuel lo : nat) (hi : option nat) (st : mstate) : list mstate :=
  let stop := match lo with O => [st] | S _ => [] end in
  match fuel with
  | O => stop
  | S fuel' =>
      let more :=
        match hi with
        | Some O => []
        | _ =>
            flat_map
              (fun st' =>
                 if Nat.eqb lo 0
                    && Nat.eqb (length (ahead st')) (length (ahead st))
                 then []
                 else rep_loop body gs fuel' (Nat.pred lo)
                               (option_map Nat.pred hi) st')
              (body (clear_caps gs st))
        end in
      more ++ stop
  end.

(** All the ways [r] matches at the current position, best first. *)
Fixpoint rmatch (r : regex) (st : mstate) {struct r} : list mstate :=
  match r with
  | Eps => [st]
  | Chr p =>
      match ahead st with
      | c :: t => if p c then [MState (c :: seen st) t (caps st)] else []
      | [] => []
      end
  | Seq r1 r2 => flat_map (rmatch r2) (rmatch r1 st)
  | Alt r1 r2 => rmatch r1 st ++ rmatch r2 st
  | Rep lo hi r1 =>
      rep_loop (rmatch r1) (groups r1) (S (length (ahead st) + lo)) lo hi st
  | Grp i r1 => List.map (set_cap i st) (rmatch r1 st)
  | WordB => if at_word_boundary st then [st] else []
  | Bol => match seen st with [] => [st] | _ :: _ => [] end
  | Eol => match ahead st with [] => [st] | _ :: _ => [] end
  end.

(** The result of [exec]/[match]: the text before the match, the matched
    text, the text after it, and the captures. *)
Record rresult : Type := RResult {
  m_pre : str;
  m_text : str;
  m_post : str;
  m_caps : list (nat * str)
}.

Definition result_of (st st' : mstate) : rresult :=
  RResult (rev (seen st))
          (take (length (ahead st) - length (ahead st')) (ahead st))
          (ahead st') (caps st').

Definition match_here (r : regex) (sn ah : str) : option rresult :=
  match rmatch r (MState sn ah []) with
  | st' :: _ => Some (result_of (MState sn ah []) st')
  | [] => None
  end.

(** Leftmost match: [s.match(r)] for a regex without the [g] flag. *)
Fixpoint search_from (r : regex) (sn ah : str) : option rresult :=
  match match_here r sn ah with
  | Some m => Some m
  | None =>
      match ah with
      | [] => None
      | c :: ah' => search_from r (c :: sn) ah'
      end
  end.

Definition exec (r : regex) (s : str) : option rresult := search_from r [] s.

(** [r.test(s)] *)
Definition test (r : regex) (s : str) : bool :=
  match exec r s with Some _ => true | None => false end.

(** [m[i]] *)
Definition group (m : rresult) (i : nat) : option str := cap_lookup i (m_caps m).

(** [s.replace(r, f)] for a regex without the [g] flag. *)
Definition replace_first (r : regex) (f : rresult -> str) (s : str) : str :=
  match exec r s with
  | Some m => m_pre m ++ f m ++ m_post m
  | None => s
  end.

(** [s.replace(r, f)] for a regex with the [g] flag. *)
Fixpoint replace_from (fuel : nat) (r : regex) (f : rresult -> str)
    (sn ah : str) : str :=
  match fuel with
  | O => ah
  | S fuel' =>
      match match_here r sn ah with
      | Some m =>
          match m_text m with
          | [] =>
              f m ++ match ah with
                     | [] => []
                     | c :: ah' => c :: replace_from fuel' r f (c :: sn) ah'
                     end
          | _ :: _ =>
              f m ++ replace_from fuel' r f (rev (m_text m) ++ sn) (m_post m)
          end
      | None =>
          match ah with
          | [] => []
          | c :: ah' => c :: replace_from fuel' r f (c :: sn) ah'
          end
      end
  end.

Definition replace_all (r : regex) (f : rresult -> str) (s : str) : str :=
  replace_from (S (length s)) r f [] s.

(** Regex building blocks. *)
Definition chr (c : N) : regex := Chr (N.eqb c).
Definition chr_ci (c : N) : regex := Chr (fun d => to_lower d =? to_lower c).

Fixpoint lit (s : str) : regex :=
  match s with [] => Eps | c :: s' => Seq (chr c) (lit s') end.

Fixpoint lit_ci (s : str) : regex :=
  match s with [] => Eps | c :: s' => Seq (chr_ci c) (lit_ci s') end.

Definition star (r : regex) : regex := Rep 0 None r.
Definition plus (r : regex) : regex := Rep 1 None r.
Definition opt (r : regex) : regex := Rep 0 (Some 1%nat) r.

Fixpoint alts (rs : list regex) : regex :=
  match rs with
  | [] => Rep 1 (Some 0%nat) Eps
  | [r] => r
  | r :: rs' => Alt r (alts rs')
  end.

Fixpoint seqs (rs : list regex) : regex :=
  match rs with
  | [] => Eps
  | [r] => r
  | r :: rs' => Seq r (seqs rs')
  end.

(** [s.split(r)] for a separator regex without capture groups: the scan
    of [String.prototype.split], which skips a match that ends where the
    current piece starts. *)
Fixpoint split_from (fuel : nat) (r : regex) (cur sn ah : str) : list str :=
  match fuel with
  | O => [rev cur ++ ah]
  | S fuel' =>
      match ah with
      | [] => [rev cur]
      | c :: ah' =>
          match match_here r sn ah with
          | Some m =>
              match m_text m, cur with
              | [], [] => split_from fuel' r [c] (c :: sn) ah'
              | _, _ =>
                  rev cur
                    :: split_from fuel' r [] (rev (m_text m) ++ sn) (m_post m)
              end
          | None => split_from fuel' r (c :: cur) (c :: sn) ah'
          end
      end
  end.

Definition split_re (r : regex) (s : str) : list str :=
  match s with
  | [] => match match_here r [] [] with Some _ => [] | None => [[]] end
  | _ :: _ => split_from (S (2 * length s)) r [] [] s
  end.

(** [s.trim()] *)
Fixpoint trim_start (s : str) : str :=
  match s with
  | c :: s' => if is_space c then trim_start s' else s
  | [] => []
  end.

Definition trim (s : str) : str := rev (trim_start (rev (trim_start s))).

(** [hay.indexOf(needle)], as the text before the first occurrence. *)
Fixpoint is_prefix (p s : str) : bool :=
  match p, s with
  | [], _ => true
  | a :: p', b :: s' => (a =? b) && is_prefix p' s'
  | _ :: _, [] => false
  end.

Fixpoint before_first (needle hay : str) : option str :=
  if is_prefix needle hay then Some []
  else match hay with
       | [] => None
       | c :: hay' => option_map (cons c) (before_first needle hay')
       end.

(** [hay.includes(needle)] *)
Definition includes (needle hay : str) : bool :=
  match before_first needle hay with Some _ => true | None => false end.

(** ** Numbers

    The numbers that occur (page numbers, salary amounts) are read from
    runs of decimal digits: they are the non-negative integers a double
    represents, and [Infinity].  A double has 53 significant bits; an
    integer below [2^53] is a double, a larger one is rounded to the
    nearest double, to the one with the even significand when it is half
    way, and to [Infinity] from [2^1024 - 2^970] on. *)

Definition safe_bound : N := 2 ^ 53.

Inductive number : Type :=
| Finite (n : N)
| Infinity.

(** The double nearest to the integer [n], as an integer. *)
Definition round53 (n : N) : N :=
  let size := N.size n in
  if size <=? 53 then n
  else
    let sh := size - 53 in
    let q := N.shiftr n sh in
    let r := N.land n (N.ones sh) in
    let half := N.shiftl 1 (sh - 1) in
    let q' := if (half <? r) || ((r =? half) && N.odd q) then q + 1 else q in
    N.shiftl q' sh.

(** The Number value of the integer [n]. *)
Definition to_number (n : N) : number :=
  let r := round53 n in
  if r <? 2 ^ 1024 then Finite r else Infinity.

(** [x + 1] *)
Definition plus_one (x : number) : number :=
  match x with
  | Finite n => to_number (n + 1)
  | Infinity => Infinity
  end.

(** Truthiness of a number that is not [NaN]: all but [0]. *)
Definition number_truthy (x : number) : bool :=
  match x with
  | Finite n => negb (n =? 0)
  | Infinity => true
  end.

Fixpoint uint_str (u : Decimal.uint) : str :=
  match u with
  | Decimal.Nil => []
  | Decimal.D0 u' => 48 :: uint_str u'
  | Decimal.D1 u' => 49 :: uint_str u'
  | Decimal.D2 u' => 50 :: uint_str u'
  | Decimal.D3 u' => 51 :: uint_str u'
  | Decimal.D4 u' => 52 :: uint_str u'
  | Decimal.D5 u' => 53 :: uint_str u'
  | Decimal.D6 u' => 54 :: uint_str u'
  | Decimal.D7 u' => 55 :: uint_str u'
  | Decimal.D8 u' => 56 :: uint_str u'
  | Decimal.D9 u' => 57 :: uint_str u'
  end.

(** The decimal numeral of an integer. *)
Definition dec (n : N) : str := uint_str (N.to_uint n).

(** The integer a run of decimal digits denotes ([0] for the empty run). *)
Definition digits_value (ds : str) : N :=
  fold_left (fun acc c => acc * 10 + (c - 48)) ds 0.

(** [parseInt(ds, 10)] and [Number(ds)] on a run of decimal digits;
    [Number('')] is [0]. *)
Definition parseInt (ds : str) : number := to_number (digits_value ds).

(** The digits a double is written with: the decimal with the fewest
    significant digits that reads back as the same double, the nearest to
    it when there are several, the one with the even last digit when two
    are as near; the digits are followed by zeros up to the size of the
    number.  For a [d]-digit double the candidates are the multiples of
    [10^(d-1)], ..., [10], [1] on either side of it, in that order. *)
Fixpoint units (d : nat) : list N :=
  match d with
  | O => []
  | S d' => 10 ^ N.of_nat d' :: units d'
  end.

Definition nearest (x u : N) : list N :=
  let lo := x / u * u in
  let hi := lo + u in
  if x - lo <? hi - x then [lo; hi]
  else if hi - x <? x - lo then [hi; lo]
  else if N.even (x / u) then [lo; hi] else [hi; lo].

Definition shortest (x : N) : N :=
  match List.find (fun c => round53 c =? x)
                  (flat_map (nearest x) (units (length (dec x)))) with
  | Some c => c
  | None => x
  end.

(** [d.ddde+n], the form of a number from [10^21] on. *)
Fixpoint drop_zeros (rds : str) : str :=
  match rds with
  | c :: rds' => if c =? 48 then drop_zeros rds' else rds
  | [] => []
  end.

Definition exponential (c : N) : str :=
  let ds := dec c in
  let e := js "e+" ++ dec (N.of_nat (length ds) - 1) in
  match rev (drop_zeros (rev ds)) with
  | [] => []
  | [d0] => d0 :: e
  | d0 :: more => d0 :: 46 :: more ++ e
  end.

(** [String(x)], as in a template literal. *)
Definition Number_toString (x : number) : str :=
  match x with
  | Finite n =>
      let c := shortest n in
      if c <? 10 ^ 21 then dec c else exponential c
  | Infinity => js "Infinity"
  end.

(** [x.toLocaleString()] in the [en-US] locale the actor runs with: the
    digits of the number in groups of three separated by commas, and the
    infinity sign for [Infinity]. *)
Fixpoint group3 (rds : str) : str :=
  match rds with
  | a :: b :: c :: ((_ :: _) as more) => a :: b :: c :: 44 :: group3 more
  | _ => rds
  end.

Definition toLocaleString (x : number) : str :=
  match x with
  | Finite n => rev (group3 (rev (dec (shortest n))))
  | Infinity => [8734]
  end.

(** ** Text normaliser *)

Definition re_nbsp_ws : regex :=
  plus (Chr (fun c => (c =? 160) || (c =? 9) || (c =? 13) || (c =? 10))).

Definition re_ws2 : regex := Rep 2 None (Chr is_space).

Definition space : str := [32].

(** [cleanText]: [String(s ?? '').replace(/[\u00A0\t\r\n]+/g, ' ')
    .replace(/\s{2,}/g, ' ').trim()] *)
Definition cleanText (s : str) : str :=
  trim (replace_all re_ws2 (fun _ => space)
          (replace_all re_nbsp_ws (fun _ => space) s)).

Definition cleanText_opt (o : option str) : str :=
  cleanText (default [] o).

(** [deEllipsize]: [(s || '').replace(/\u2026/g, '...')] *)
Definition deEllipsize (s : str) : str :=
  replace_all (chr 8230) (fun _ => js "...") s.

(** ** Pagination cursor *)

(** [/[?&]page=(\d+)/] *)
Definition is_sep (c : N) : bool := (c =? 63) || (c =? 38).

Definition re_page : regex :=
  Seq (Chr is_sep) (Seq (lit (js "page=")) (Grp 1 (plus (Chr is_digit)))).

(** [/([?&])page=\d+/] *)
Definition re_page_sep : regex :=
  Seq (Grp 1 (Chr is_sep)) (Seq (lit (js "page=")) (plus (Chr is_digit))).

(** [/^https?:/i] *)
Definition re_http : regex :=
  seqs [Bol; lit_ci (js "http"); opt (chr_ci 115); chr 58].

(** ** Documents

    A parsed document is a tree of nodes as htmlparser2 builds it: text,
    comments, and elements.  An element has one of the three element
    types of the parser ([tag], [script], [style]), a lower-cased name and
    its attributes in source order. *)

Inductive ekind : Type := KTag | KScript | KStyle.

#[warnings="-register-all"]
Inductive node : Type :=
| Text (data : str)
| Comment (data : str)
| Elem (kind : ekind) (name : str) (attribs : list (str * str))
       (children : list node).

(** [$el.text()]: the text of all the text nodes below, in document
    order. *)
Fixpoint text (n : node) : str :=
  match n with
  | Text d => d
  | Comment _ => []
  | Elem _ _ _ cs => flat_map text cs
  end.

Definition texts (ns : list node) : str := flat_map text ns.

Definition is_elem (n : node) : bool :=
  match n with Elem _ _ _ _ => true | _ => false end.

(** [$el.children()]: the element children. *)
Definition elem_children (n : node) : list node :=
  match n with
  | Elem _ _ _ cs => List.filter is_elem cs
  | _ => []
  end.

Fixpoint assoc (k : str) (l : list (str * str)) : option str :=
  match l with
  | [] => None
  | (k', v) :: l' => if str_eqb k k' then Some v else assoc k l'
  end.

(** [$el.attr(name)] on the first node of a selection. *)
Definition attr (name : str) (n : node) : option str :=
  match n with
  | Elem _ _ as_ _ => assoc name as_
  | _ => None
  end.

Definition lower (s : str) : str := List.map to_lower s.

(** The serialisation behind [$el.html()] (dom-serializer in HTML mode):
    text and attribute values are entity-escaped, void elements have no
    end tag, the content of [script] and [style] is written as it is. *)
Definition escape_text (s : str) : str :=
  flat_map (fun c => if c =? 38 then js "&amp;"
                     else if c =? 60 then js "&lt;"
                     else if c =? 62 then js "&gt;"
                     else if c =? 160 then js "&nbsp;"
                     else [c]) s.

Definition escape_attr (s : str) : str :=
  flat_map (fun c => if c =? 38 then js "&amp;"
                     else if c =? 34 then js "&quot;"
                     else if c =? 160 then js "&nbsp;"
                     else [c]) s.

Definition void_tags : list str :=
  List.map js ["area"; "base"; "basefont"; "br"; "col"; "command"; "embed";
               "frame"; "hr"; "img"; "input"; "isindex"; "keygen"; "link";
               "meta"; "param"; "source"; "track"; "wbr"]%string.

Definition mem_str (s : str) (l : list str) : bool := existsb (str_eqb s) l.

Definition render_attribs (as_ : list (str * str)) : str :=
  flat_map (fun kv => js " " ++ fst kv ++ js "=" ++ [34]
                        ++ escape_attr (snd kv) ++ [34]) as_.

Fixpoint render (raw : bool) (n : node) : str :=
  match n with
  | Text d => if raw then d else escape_text d
  | Comment d => js "<!--" ++ d ++ js "-->"
  | Elem k name as_ cs =>
      js "<" ++ name ++ render_attribs as_ ++ js ">"
        ++ (if mem_str name void_tags && (match cs with [] => true | _ => false end)
            then []
            else flat_map (render (match k with KTag => false | _ => true end)) cs
                   ++ js "</" ++ name ++ js ">")
  end.

(** [$el.html()] of a container whose children are [ns]. *)
Definition inner_html (ns : list node) : str := flat_map (render false) ns.

(** ** Heuristic field classifier (listing cards) *)

(** The partial record harvested from a listing card. *)
Record seedRec : Type := SeedRec {
  s_title : str;
  s_company : str;
  s_location : str;
  s_job_type : str;
  s_salary_range : str;
  s_category : str
}.

(** [/^(New|Today|Yesterday)$/i] *)
Definition re_badge_line : regex :=
  seqs [Bol;
        Grp 1 (alts [lit_ci (js "New"); lit_ci (js "Today");
                     lit_ci (js "Yesterday")]);
        Eol].

(** [/\b(Easy Apply|FEATURED)\b/i] *)
Definition re_promo : regex :=
  seqs [WordB;
        Grp 1 (alts [lit_ci (js "Easy Apply"); lit_ci (js "FEATURED")]);
        WordB].

(** [/\b(NGN|GHS|KES|ZAR|USD)\b\s*\d/i] *)
Definition re_currency_amount : regex :=
  seqs [WordB;
        Grp 1 (alts [lit_ci (js "NGN"); lit_ci (js "GHS"); lit_ci (js "KES");
                     lit_ci (js "ZAR"); lit_ci (js "USD")]);
        WordB; star (Chr is_space); Chr is_digit].

(** [/\b(Full\s*Time|Part\s*Time|Contract|Temporary|Internship|Remote|
       Hybrid|Freelance|Volunteer)\b/i] *)
Definition re_job_type : regex :=
  seqs [WordB;
        Grp 1 (alts [seqs [lit_ci (js "Full"); star (Chr is_space);
                           lit_ci (js "Time")];
                     seqs [lit_ci (js "Part"); star (Chr is_space);
                           lit_ci (js "Time")];
                     lit_ci (js "Contract"); lit_ci (js "Temporary");
                     lit_ci (js "Internship"); lit_ci (js "Remote");
                     lit_ci (js "Hybrid"); lit_ci (js "Freelance");
                     lit_ci (js "Volunteer")]);
        WordB].

(** [/\b(New|Today|Yesterday|Easy Apply|FEATURED)\b/i] *)
Definition re_badge_any : regex :=
  seqs [WordB;
        Grp 1 (alts [lit_ci (js "New"); lit_ci (js "Today");
                     lit_ci (js "Yesterday"); lit_ci (js "Easy Apply");
                     lit_ci (js "FEATURED")]);
        WordB].

Definition is_amount_char (c : N) : bool := is_digit c || (c =? 44).

(** [(?:-|to)] *)
Definition re_range_sep : regex := Alt (chr 45) (lit_ci (js "to")).

(** [[A-Z]{3}] under the [i] flag *)
Definition re_code : regex := Rep 3 (Some 3%nat) (Chr is_alpha).

(** The test that finds the salary line:
    [/\b([A-Z]{3})\s*\d[\d,]*(?:\s*(?:-|to)\s*([A-Z]{3})?\s*[\d,]+)?/i] *)
Definition re_salary_line : regex :=
  seqs [WordB; Grp 1 re_code; star (Chr is_space); Chr is_digit;
        star (Chr is_amount_char);
        opt (seqs [star (Chr is_space); re_range_sep; star (Chr is_space);
                   opt (Grp 2 re_code); star (Chr is_space);
                   plus (Chr is_amount_char)])].

(** The match that parses it:
    [/\b([A-Z]{3})\s*([\d,]+)(?:\s*(?:-|to)\s*([A-Z]{3})?\s*([\d,]+))?/i] *)
Definition re_salary : regex :=
  seqs [WordB; Grp 1 re_code; star (Chr is_space);
        Grp 2 (plus (Chr is_amount_char));
        opt (seqs [star (Chr is_space); re_range_sep; star (Chr is_space);
                   opt (Grp 3 re_code); star (Chr is_space);
                   Grp 4 (plus (Chr is_amount_char))])].

(** [Number(s.replace(/,/g, ''))] for a run of digits and commas. *)
Definition amount_of (s : str) : number :=
  parseInt (replace_all (chr 44) (fun _ => []) s).

(** The parsed salary: currency code, minimum, and the maximum when the
    line has a second amount ([null] otherwise). *)
Record salaryRange : Type := SalaryRange {
  currencyCode : str;
  minAmount : number;
  maxAmount : option number
}.

Definition parse_salary (m : rresult) : salaryRange :=
  let c := or_else (group m 1) (or_else (group m 3) (js "NGN")) in
  let min := amount_of (default [] (group m 2)) in
  let max := match group m 4 with
             | Some m4 => if nonempty m4 then Some (amount_of m4) else None
             | None => None
             end in
  SalaryRange c min max.

(** [max ? `${c} ${min} - ${c} ${max}` : `${c} ${min}`]: a maximum that
    is [null] or [0] gives the single-amount form. *)
Definition render_salary (r : salaryRange) : str :=
  let c := currencyCode r in
  match maxAmount r with
  | Some max =>
      if number_truthy max
      then c ++ space ++ toLocaleString (minAmount r) ++ js " - "
             ++ c ++ space ++ toLocaleString max
      else c ++ space ++ toLocaleString (minAmount r)
  | None => c ++ space ++ toLocaleString (minAmount r)
  end.

(** The salary step of [extractFromListingCard]. *)
Definition salary_of_lines (lines : list str) : str :=
  match List.find (test re_salary_line) lines with
  | Some salLine =>
      match exec re_salary salLine with
      | Some m => render_salary (parse_salary m)
      | None => []
      end
  | None => []
  end.

(** [/\s{2,}|\n+/] *)
Definition re_line_break : regex := Alt re_ws2 (plus (chr 10)).

(** The lines of a card:
    [cleanText(text).split(/\s{2,}|\n+/).map(s => s.trim()).filter(Boolean)] *)
Definition card_lines (cardText : str) : list str :=
  List.filter nonempty (List.map trim (split_re re_line_break (cleanText cardText))).

Definition company_of_lines (title : str) (lines : list str) : str :=
  default []
    (List.find (fun line =>
                  negb (str_eqb line title)
                  && negb (test re_badge_line line)
                  && negb (test re_promo line)
                  && negb (test re_currency_amount line)
                  && negb (test re_job_type line)) lines).

(** [hay.split(needle)[0]] for a non-empty needle. *)
Definition split_head (needle hay : str) : str :=
  default hay (before_first needle hay).

(** Job type and location from the meta line. *)
Definition meta_of_lines (lines : list str) : str * str :=
  match List.find (test re_job_type) lines with
  | Some meta =>
      if nonempty meta then
        match exec re_job_type meta with
        | Some jt =>
            let job_type :=
              replace_all (plus (Chr is_space)) (fun _ => space)
                          (default [] (group jt 1)) in
            let locPart := split_head (m_text jt) meta in
            (job_type, if nonempty locPart then cleanText locPart else [])
        | None => ([], [])
        end
      else ([], [])
  | None => ([], [])
  end.

Definition category_of_lines (title company : str) (lines : list str) : str :=
  default []
    (List.find (fun l =>
                  negb (str_eqb l title || str_eqb l company)
                  && negb (test re_badge_any l)
                  && negb (test re_currency_amount l)
                  && negb (test re_job_type l)) lines).

(** The first node below [n], in document order, that satisfies [p]. *)
Fixpoint find_desc (p : node -> bool) (n : node) : option node :=
  match n with
  | Elem _ _ _ cs =>
      (fix go (l : list node) : option node :=
         match l with
         | [] => None
         | c :: l' =>
             if p c then Some c
             else match find_desc p c with
                  | Some d => Some d
                  | None => go l'
                  end
         end) cs
  | _ => None
  end.

(** [a[href*="/listings/"]] *)
Definition is_listing_anchor (n : node) : bool :=
  match n with
  | Elem _ name as_ _ =>
      str_eqb name (js "a")
      && match assoc (js "href") as_ with
         | Some h => includes (js "/listings/") h
         | None => false
         end
  | _ => false
  end.

(** [extractFromListingCard($, $card)]; [$card] is the closest card
    ancestor of a listing link, an empty selection when there is none. *)
Definition extractFromListingCard (card : option node) : seedRec :=
  let titleA := card ≫= find_desc is_listing_anchor in
  let title := cleanText (from_option text [] titleA) in
  let lines := card_lines (from_option text [] card) in
  let company := company_of_lines title lines in
  let '(job_type, location) := meta_of_lines lines in
  let salary_range := salary_of_lines lines in
  let category := category_of_lines title company lines in
  SeedRec title company location job_type salary_range category.

(** ** Structured data (JSON-LD)

    A [JobPosting] node, typed after the schema.org vocabulary the code
    reads: a property is absent ([None]) or has the shape named here.
    Text properties are strings; [employmentType], [occupationalCategory]
    and [industry] are a string or a non-empty array of strings; amounts
    are non-negative integers, given by the numeral of the JSON text. *)

Inductive oneOrMany : Type :=
| One (s : str)
| Many (first : str) (others : list str).

Record organization : Type := Organization {
  org_name : option str;
  org_at_name : option str
}.

Record postalAddress : Type := PostalAddress {
  streetAddress : option str;
  addressLocality : option str;
  addressRegion : option str;
  addressCountry : option str
}.

Record place : Type := Place { address : option postalAddress }.

Inductive locationValue : Type :=
| LocText (s : str)
| LocPlace (p : place)
| LocPlaces (ps : list place).

Record quantity : Type := Quantity {
  q_currency : option str;
  q_minValue : option N;
  q_maxValue : option N;
  q_value : option N;
  q_amount : option N
}.

Inductive salaryValue : Type :=
| SalNumber (n : N)
| SalQuantity (q : quantity).

Record monetaryAmount : Type := MonetaryAmount {
  sal_currency : option str;
  sal_value : option salaryValue;
  sal_minValue : option N;
  sal_maxValue : option N;
  sal_amount : option N
}.

(** A description: the string, and the nodes it parses to when it is
    loaded as markup (parsing is the library's part). *)
Record markup : Type := Markup {
  source : str;
  nodes : list node
}.

Record jobPosting : Type := JobPosting {
  ld_title : option str;
  hiringOrganization : option organization;
  datePosted : option str;
  employmentType : option oneOrMany;
  jobLocation : option locationValue;
  jobLocationType : option locationValue;
  baseSalary : option monetaryAmount;
  occupationalCategory : option oneOrMany;
  industry : option oneOrMany;
  ld_description : option markup
}.

Definition no_posting : jobPosting :=
  JobPosting None None None None None None None None None None.

(** Truthiness of the values above. *)
Definition truthy_many (o : option oneOrMany) : bool :=
  match o with
  | Some (One s) => nonempty s
  | Some (Many _ _) => true
  | None => false
  end.

(** [Array.isArray(x) ? x[0] : x] *)
Definition first_of (x : oneOrMany) : str :=
  match x with One s => s | Many a _ => a end.

Definition truthy_loc (o : option locationValue) : bool :=
  match o with
  | Some (LocText s) => nonempty s
  | Some _ => true
  | None => false
  end.

Definition truthy_num (o : option N) : bool :=
  match o with Some n => negb (n =? 0) | None => false end.

(** [a ?? b] *)
Definition coalesce {A} (a b : option A) : option A :=
  match a with Some _ => a | None => b end.

(** The fields of a job record while it is assembled. *)
Record fields : Type := Fields {
  title : str;
  company : str;
  job_type : str;
  location : str;
  salary_range : str;
  category : str;
  description_html : str;
  description_text : str;
  date_posted : str
}.

(** [empType.replace(/_/g, ' ').replace(/\b\w/g, l => l.toUpperCase())] *)
Definition humanize_type (empType : str) : str :=
  replace_all (Seq WordB (Chr is_word))
              (fun m => List.map to_upper (m_text m))
              (replace_all (chr 95) (fun _ => space) empType).

(** [parts.join(sep)] *)
Fixpoint join (sep : str) (parts : list str) : str :=
  match parts with
  | [] => []
  | [p] => p
  | p :: ps => p ++ sep ++ join sep ps
  end.

(** [[a, b, c].filter(Boolean)] on possibly absent strings *)
Definition present (l : list (option str)) : list str :=
  List.filter nonempty (omap id l).

(** The location step of [enrichFromJsonLd]. *)
Definition enrich_location (jsonLd : jobPosting) (out_location : str) : str :=
  let locNode := if truthy_loc (jobLocation jsonLd) then jobLocation jsonLd
                 else jobLocationType jsonLd in
  let addr :=
    match locNode with
    | Some (LocPlace p) => address p
    | Some (LocPlaces ps) => head ps ≫= address
    | _ => None
    end in
  match addr with
  | Some a =>
      if truthy (streetAddress a) then default [] (streetAddress a)
      else
        let parts := present [addressLocality a; addressRegion a;
                              addressCountry a] in
        match parts with
        | [] => out_location
        | _ :: _ => or_str out_location (join (js ", ") parts)
        end
  | None => out_location
  end.

(** The salary step of [enrichFromJsonLd]. *)
Definition enrich_salary (jsonLd : jobPosting) (out_salary : str) : str :=
  match baseSalary jsonLd with
  | None => out_salary
  | Some sal =>
      let currency :=
        or_else (sal_currency sal)
          (or_else (match sal_value sal with
                    | Some (SalQuantity q) => q_currency q
                    | _ => None
                    end) (js "NGN")) in
      (* [val = sal.value || sal]: a quantity, a non-zero number, or the
         amount node itself *)
      let '(min, max) :=
        match sal_value sal with
        | Some (SalQuantity q) =>
            (coalesce (q_minValue q) (coalesce (q_value q) (q_amount q)),
             q_maxValue q)
        | Some (SalNumber n) =>
            if n =? 0
            then (coalesce (sal_minValue sal) (Some 0), sal_maxValue sal)
            else (None, None)
        | None =>
            (coalesce (sal_minValue sal) (sal_amount sal), sal_maxValue sal)
        end in
      if truthy_num min || truthy_num max then
        let mk := fun n : option N =>
                    if truthy_num n
                    then currency ++ space
                           ++ toLocaleString (to_number (default 0 n))
                    else [] in
        let range := join (js " - ") (List.filter nonempty [mk min; mk max]) in
        or_str range out_salary
      else out_salary
  end.

(** The category step of [enrichFromJsonLd]. *)
Definition enrich_category (jsonLd : jobPosting) (out_category : str) : str :=
  if truthy_many (occupationalCategory jsonLd) && negb (nonempty out_category)
  then from_option first_of [] (occupationalCategory jsonLd)
  else if truthy_many (industry jsonLd) && negb (nonempty out_category)
  then from_option first_of [] (industry jsonLd)
  else out_category.

Section Platform.

(** [new URL(href, base).href], [None] when the constructor throws. *)
Variable URL_href : str -> str -> option str.

(** The markup parser of the document library: the nodes a string parses
    to when it is handed to [replaceWith]. *)
Variable parseFragment : str -> list node.

(** ** URL resolver *)

(** [toAbs] of the pipeline revision:
    [try { return new URL(href, base).href; } catch { return null; }] *)
Definition toAbs (href base : str) : option str := URL_href href base.

(** [toAbs] of the first and of the XPath revision, which test the scheme:
    [const abs = new URL(href, base).href;
     return /^https?:/i.test(abs) ? abs : null;] *)
Definition toAbs_gated (href base : str) : option str :=
  match URL_href href base with
  | Some abs => if test re_http abs then Some abs else None
  | None => None
  end.

(** [toAbs] of the CommonJS revision, which answers [''] for a failure:
    [try { return new URL(href, base).toString(); } catch (_) { return ''; }] *)
Definition toAbs_cjs (href base : str) : str :=
  match URL_href href base with
  | Some abs => abs
  | None => []
  end.

(** The three "next" affordances [findNextUrl] asks the document for, each
    the [href] attribute of the first matching anchor. *)
Record nextLinks : Type := NextLinks {
  next_by_page_text : option str;
  next_by_rel : option str;
  next_by_label : option str
}.

Definition no_next : nextLinks := NextLinks None None None.

Definition nextLink (nl : nextLinks) : option str :=
  or_opt (or_opt (next_by_page_text nl) (next_by_rel nl)) (next_by_label nl).

(** [findNextUrl] *)
Definition findNextUrl (nl : nextLinks) (currentUrl : str) : option str :=
  if truthy (nextLink nl) then toAbs (default [] (nextLink nl)) currentUrl
  else
    match exec re_page currentUrl with
    | Some m =>
        Some (replace_first re_page_sep
                (fun m' =>
                   default [] (group m' 1) ++ js "page="
                     ++ Number_toString
                          (plus_one (parseInt (default [] (group m 1)))))
                currentUrl)
    | None =>
        Some (if includes (js "?") currentUrl
              then currentUrl ++ js "&page=2"
              else currentUrl ++ js "?page=2")
    end.

(** [findNextUrl] of the XPath revision: the same cursor, resolved against
    the default base and gated on the scheme. *)
Definition default_base : str := js "https://www.jobberman.com".

Definition findNextUrl_xpath (nl : nextLinks) (currentUrl : str) : option str :=
  if truthy (nextLink nl) then toAbs_gated (default [] (nextLink nl)) default_base
  else
    match exec re_page currentUrl with
    | Some m =>
        let currentPage := parseInt (default [] (group m 1)) in
        Some (replace_first re_page_sep
                (fun m' =>
                   default [] (group m' 1) ++ js "page="
                     ++ Number_toString (plus_one currentPage))
                currentUrl)
    | None =>
        if includes (js "?") currentUrl
        then Some (currentUrl ++ js "&page=2")
        else Some (currentUrl ++ js "?page=2")
    end.

(** ** Description sanitiser *)

Definition allowed : list str :=
  List.map js ["p"; "br"; "strong"; "b"; "em"; "i"; "u"; "ul"; "ol"; "li";
               "h1"; "h2"; "h3"; "h4"; "h5"; "h6"; "a"; "span"; "div";
               "section"; "article"]%string.

(** The first traversal of [sanitizeDescription], over every element of
    the copy in document order.  An element of type [tag] loses its
    attributes, an anchor gets its resolved [href] back, and an element
    outside the allow-list is replaced by its normalised text, or removed
    when that is empty.  The text is taken when the element is visited,
    before its descendants are; what happens to the descendants of a
    replaced element is not seen in the result.  [replaceWith] parses the
    text it is given as markup: the element is replaced by the nodes the
    text parses to, and these are not visited by this traversal, which
    runs over the elements found before it began. *)
Fixpoint strip (baseUrl : str) (n : node) : list node :=
  match n with
  | Elem KTag name as_ cs =>
      let tag := lower name in
      let isAnchor := str_eqb tag (js "a") in
      let href := if isAnchor then or_else (assoc (js "href") as_) [] else [] in
      let attribs' :=
        if isAnchor && nonempty href
        then match toAbs href baseUrl with
             | Some abs => if nonempty abs then [(js "href", abs)] else []
             | None => []
             end
        else [] in
      if mem_str tag allowed
      then [Elem KTag name attribs' (flat_map (strip baseUrl) cs)]
      else
        let txt := cleanText (text n) in
        if nonempty txt then parseFragment txt else []
  | Elem k name as_ cs => [Elem k name as_ (flat_map (strip baseUrl) cs)]
  | _ => [n]
  end.

(** The second traversal, "remove empty nodes (except br)": one visit per
    element in document order, so an element is judged before its
    descendants are. *)
Fixpoint prune (n : node) : list node :=
  match n with
  | Elem KTag name as_ cs =>
      if str_eqb (lower name) (js "br")
      then [Elem KTag name as_ (flat_map prune cs)]
      else if negb (nonempty (cleanText (text n)))
              && Nat.eqb (length (elem_children n)) 0
      then []
      else [Elem KTag name as_ (flat_map prune cs)]
  | Elem k name as_ cs => [Elem k name as_ (flat_map prune cs)]
  | _ => [n]
  end.

(** [/>\s+</g] *)
Definition re_between_tags : regex :=
  seqs [chr 62; plus (Chr is_space); chr 60].

(** The tree [sanitizeDescription] leaves under its private root. *)
Definition sanitize_nodes (fragment : list node) (baseUrl : str) : list node :=
  flat_map prune (flat_map (strip baseUrl) fragment).

(** [sanitizeDescription($ctx, $fragment, baseUrl)]; the fragment is the
    selection handed in, the result is the markup string. *)
Definition sanitizeDescription (fragment : list node) (baseUrl : str) : str :=
  match fragment with
  | [] => []
  | _ :: _ =>
      let html := inner_html (sanitize_nodes fragment baseUrl) in
      trim (replace_all re_ws2 (fun _ => space)
              (replace_all re_between_tags (fun _ => js "><") html))
  end.

(** ** Field merge resolver *)

(** The fragment [enrichFromJsonLd] builds from a JSON-LD description:
    [cheerioLoad(`<div>${description}</div>`)('div').first()]. *)
Definition wrap (description : markup) : node :=
  Elem KTag (js "div") [] (nodes description).

Definition has_description (ld : jobPosting) : bool :=
  truthy (option_map source (ld_description ld)).

Definition description_fragment (ld : jobPosting) : node :=
  wrap (default (Markup [] []) (ld_description ld)).

(** [enrichFromJsonLd(jsonLd, fields, baseUrl)] *)
Definition enrichFromJsonLd (jsonLd : option jobPosting) (fs : fields)
    (baseUrl : str) : fields :=
  match jsonLd with
  | None => fs
  | Some ld =>
      let title' := or_else (ld_title ld) (title fs) in
      let company' :=
        or_else (hiringOrganization ld ≫=
                   fun o => or_opt (org_name o) (org_at_name o))
                (company fs) in
      let date_posted' := or_else (datePosted ld) (date_posted fs) in
      let job_type' :=
        if truthy_many (employmentType ld)
        then humanize_type (from_option first_of [] (employmentType ld))
        else job_type fs in
      let location' := enrich_location ld (location fs) in
      let salary_range' := enrich_salary ld (salary_range fs) in
      let category' := enrich_category ld (category fs) in
      let '(html', text') :=
        if has_description ld then
          let frag := description_fragment ld in
          (or_str (sanitizeDescription [frag] baseUrl) (description_html fs),
           or_str (cleanText (text frag)) (description_text fs))
        else (description_html fs, description_text fs) in
      Fields title' company' job_type' location' salary_range' category'
             html' text' date_posted'
  end.

(** [cleanText] of the CommonJS revision:
    [(s || '').replace(/\s+/g, ' ').replace(/[ \t\r\n]+/g, ' ').trim()] *)
Definition cleanText_cjs (s : str) : str :=
  trim (replace_all re_nbsp_ws (fun _ => space)
          (replace_all (plus (Chr is_space)) (fun _ => space) s)).

(** The description step of [enrichFromJsonLd] in the CommonJS revision,
    for whatever its sanitiser answers:
    [if (html && cleanText(text)) { out.description_html = html;
                                    out.description_text = text; }] *)
Definition enrich_description_cjs (sanitize : list node -> str -> str)
    (ld : jobPosting) (fs : fields) (baseUrl : str) : str * str :=
  if has_description ld then
    let fragment := description_fragment ld in
    let html := sanitize [fragment] baseUrl in
    let text := cleanText_cjs (text fragment) in
    if nonempty html && nonempty (cleanText_cjs text)
    then (html, text)
    else (description_html fs, description_text fs)
  else (description_html fs, description_text fs).

(** ** Selector cascade and detail extraction *)

(** [pickFirst($, selectors)]: the hits are, selector by selector, the
    first element the selector matches. *)
Definition pickFirst (hits : list (option node)) : option node :=
  List.find (fun h => match h with Some _ => true | None => false end) hits
    ≫= id.

(** [getFullText($el)] *)
Definition getFullText (el : option node) : str :=
  match el with
  | None => []
  | Some n =>
      let rich :=
        or_else (attr (js "title") n)
          (or_else (attr (js "aria-label") n)
             (or_else (attr (js "data-title") n) [])) in
      cleanText (or_str rich (text n))
  end.

(** [/\b(\d{1,2})\s+(hours?|days?)\s+ago\b/i] *)
Definition re_ago : regex :=
  seqs [WordB; Grp 1 (Rep 1 (Some 2%nat) (Chr is_digit)); plus (Chr is_space);
        Grp 2 (Alt (Seq (lit_ci (js "hour")) (opt (chr_ci 115)))
                   (Seq (lit_ci (js "day")) (opt (chr_ci 115))));
        plus (Chr is_space); lit_ci (js "ago"); WordB].

(** [/\b(Today|Yesterday|New)\b/i] *)
Definition re_day_word : regex :=
  seqs [WordB;
        Grp 1 (alts [lit_ci (js "Today"); lit_ci (js "Yesterday");
                     lit_ci (js "New")]);
        WordB].

(** [/\b\d{4}-\d{2}-\d{2}\b/] *)
Definition re_iso_date : regex :=
  seqs [WordB; Rep 4 (Some 4%nat) (Chr is_digit); chr 45;
        Rep 2 (Some 2%nat) (Chr is_digit); chr 45;
        Rep 2 (Some 2%nat) (Chr is_digit); WordB].

(** [extractDatePosted($)]: [scope] is the first element of the header
    scope, [body] the document body. *)
Definition extractDatePosted (scope body : option node) : option str :=
  let txt := or_str (cleanText (from_option text [] scope))
                    (cleanText (from_option text [] body)) in
  if nonempty txt then
    match exec re_ago txt with
    | Some m => Some (m_text m)
    | None =>
        match exec re_day_word txt with
        | Some m => Some (m_text m)
        | None => option_map m_text (exec re_iso_date txt)
        end
    end
  else None.

(** A parsed [application/ld+json] block. *)
Inductive typeValue : Type :=
| TypeStr (s : str)
| TypeArr (l : list str).

Record ldNode : Type := LdNode {
  at_type : option typeValue;
  posting : jobPosting
}.

Inductive ldValue : Type :=
| LdGraph (graph : list (option ldNode))
| LdArray (items : list (option ldNode))
| LdObject (n : ldNode).

Definition is_job (n : option ldNode) : bool :=
  match n ≫= at_type with
  | Some (TypeStr t) => str_eqb t (js "JobPosting")
  | Some (TypeArr ts) => mem_str (js "JobPosting") ts
  | None => false
  end.

Definition candidates (v : ldValue) : list (option ldNode) :=
  match v with
  | LdGraph g => g
  | LdArray a => a
  | LdObject n => [Some n]
  end.

(** [parseJsonLdJob($)]: the blocks are the script contents after
    [safeJsonParse], [None] for one that does not parse. *)
Fixpoint parseJsonLdJob (blocks : list (option ldValue)) : option jobPosting :=
  match blocks with
  | [] => None
  | None :: rest => parseJsonLdJob rest
  | Some v :: rest =>
      match List.find is_job (candidates v) with
      | Some n => option_map posting n
      | None => parseJsonLdJob rest
      end
  end.

(** What [extractFromDetail] asks of a detail document. *)
Record detailDoc : Type := DetailDoc {
  hits_title : list (option node);
  hits_company : list (option node);
  hits_job_type : list (option node);
  hits_location : list (option node);
  hits_salary : list (option node);
  hits_category : list (option node);
  hits_description : list (option node);
  (** the first "Description" heading: the block after it, and its parent *)
  heading : option (option node * option node);
  (** [biggestTextBlockHeuristic($)] *)
  biggest_block : option node;
  date_scope : option node;
  body : option node;
  ld_blocks : list (option ldValue)
}.

(** A request: its URL and its [userData] (label, page number, and the
    seed of a detail request, [None] for the empty object). *)
Record request : Type := Request {
  url : str;
  is_detail : bool;
  pageNo : Z;
  seed : option seedRec
}.

Record jobRecord : Type := JobRecord {
  r_url : str;
  r_fields : fields
}.

(** One description candidate: sanitised markup and clean text of the
    same element. *)
Definition describe (n : node) (baseUrl : str) : str * str :=
  (sanitizeDescription [n] baseUrl, cleanText (text n)).

(** A fallback candidate replaces the description, both halves, when its
    text is longer. *)
Definition prefer_longer (cand cur : str * str) : str * str :=
  if (length (snd cur) <? length (snd cand))%nat then cand else cur.

Definition too_short (description_text : str) : bool :=
  negb (nonempty description_text) || (length description_text <? 100)%nat.

(** The description cascade of [extractFromDetail]. *)
Definition cascade_description (d : detailDoc) (baseUrl : str) : str * str :=
  let d0 := match pickFirst (hits_description d) with
            | Some n => describe n baseUrl
            | None => ([], [])
            end in
  let d1 :=
    if too_short (snd d0) then
      match heading d with
      | Some (next_block, parent) =>
          match (match next_block with Some n => Some n | None => parent end) with
          | Some cand => prefer_longer (describe cand baseUrl) d0
          | None => d0
          end
      | None => d0
      end
    else d0 in
  if too_short (snd d1) then
    match biggest_block d with
    | Some big => prefer_longer (describe big baseUrl) d1
    | None => d1
    end
  else d1.

(** The record of the selector cascade laid over the seed, before the
    structured data is consulted. *)
Definition cascade_fields (sd : option seedRec) (d : detailDoc)
    (baseUrl : str) : fields :=
  let pick := fun (hits : list (option node)) (below : str) =>
                or_str (deEllipsize (getFullText (pickFirst hits))) below in
  let '(html, txt) := cascade_description d baseUrl in
  Fields (pick (hits_title d) (from_option s_title [] sd))
         (pick (hits_company d) (from_option s_company [] sd))
         (pick (hits_job_type d) (from_option s_job_type [] sd))
         (pick (hits_location d) (from_option s_location [] sd))
         (pick (hits_salary d) (from_option s_salary_range [] sd))
         (pick (hits_category d) (from_option s_category [] sd))
         html txt
         (default [] (extractDatePosted (date_scope d) (body d))).

(** [extractFromDetail({ request, $ })] *)
Definition extractFromDetail (rq : request) (d : detailDoc) : jobRecord :=
  JobRecord (url rq)
    (enrichFromJsonLd (parseJsonLdJob (ld_blocks d))
                      (cascade_fields (seed rq) d (url rq)) (url rq)).

(** ** Listing pages *)

(** A listing link and the card around it
    ([$(a).closest('li, article, ...')], empty when there is none). *)
Record anchor : Type := Anchor {
  a_href : option str;
  a_card : option node
}.

(** What the list branch asks of a listing document: the anchors matched
    by [a[href*="/listings/"]], the [href]s of the fallback selector, and
    the "next" affordances. *)
Record listDoc : Type := ListDoc {
  listing_anchors : list anchor;
  fallback_hrefs : list (option str);
  next_links : nextLinks
}.

(** [href && toAbs(href, base)], when it is truthy. *)
Definition abs_of (href : option str) (base : str) : option str :=
  if truthy href then
    match toAbs (default [] href) base with
    | Some abs => if nonempty abs then Some abs else None
    | None => None
    end
  else None.

(** [abs.split('?')[0]] *)
Definition strip_query (abs : str) : str := split_head (js "?") abs.

(** [links.add(u)] on a [Set], kept in insertion order. *)
Definition set_add (u : str) (links : list str) : list str :=
  if mem_str u links then links else links ++ [u].

(** [collectJobLinks($, base)] *)
Definition collectJobLinks (d : listDoc) (base : str) : list str :=
  let primary :=
    fold_left (fun links a =>
                 match abs_of (a_href a) base with
                 | Some abs => if negb (includes (js "#") abs)
                               then set_add (strip_query abs) links
                               else links
                 | None => links
                 end) (listing_anchors d) [] in
  match primary with
  | [] =>
      fold_left (fun links href =>
                   match abs_of href base with
                   | Some abs => set_add (strip_query abs) links
                   | None => links
                   end) (fallback_hrefs d) []
  | _ :: _ => primary
  end.

(** The [seedsByUrl] map of the list branch. *)
Definition seedsByUrl (d : listDoc) (base : str) : gmap str seedRec :=
  fold_left (fun seeds a =>
               match abs_of (a_href a) base with
               | Some abs =>
                   let sd := extractFromListingCard (a_card a) in
                   if nonempty (s_title sd)
                   then <[strip_query abs := sd]> seeds
                   else seeds
               | None => seeds
               end) (listing_anchors d) ∅.

(** ** Crawl quota controller *)

Record config : Type := Config {
  RESULTS_WANTED : Z;
  MAX_PAGES : Z;
  collectDetails : bool
}.

(** A record handed to [Dataset.pushData]: a detail record, or the
    [{ url, ...seed }] record of a listing link. *)
Inductive item : Type :=
| DetailItem (r : jobRecord)
| ListItem (u : str) (sd : option seedRec).

Definition item_url (i : item) : str :=
  match i with
  | DetailItem r => r_url r
  | ListItem u _ => u
  end.

Inductive level : Type := Info | Warning.

Inductive logMsg : Type :=
| ProcessingList (page : Z) (u : str)
| NoJobLinks (u : str)
| PushedFromList (n total : Z)
| EnqueuedDetails (n total : Z)
| ReachedResultsWanted
| ReachedMaxPages
| NoLinksOnPage (page : Z)
| EnqueuingNextList (page : Z) (next : str)
| NoNextLink (page : Z)
| SkippingLimitMet
| SkippingDuplicate (u : str)
| SkippingNoTitle (u : str)
| Saved (title : str) (total : Z).

Definition level_of (m : logMsg) : level :=
  match m with
  | NoJobLinks _ | NoLinksOnPage _ | SkippingDuplicate _ | SkippingNoTitle _ =>
      Warning
  | _ => Info
  end.

(** The state the handlers share: the three module-level variables of the
    actor, and what has been handed to the dataset, the request queue and
    the log. *)
Record crawlState : Type := CrawlState {
  jobsScraped : Z;
  jobsEnqueued : Z;
  scrapedUrls : gset str;
  dataset : list item;
  queue : list request;
  log : list logMsg
}.

Definition set_scraped (n : Z) (w : crawlState) : crawlState :=
  CrawlState n (jobsEnqueued w) (scrapedUrls w) (dataset w) (queue w) (log w).
Definition set_enqueued (n : Z) (w : crawlState) : crawlState :=
  CrawlState (jobsScraped w) n (scrapedUrls w) (dataset w) (queue w) (log w).
Definition add_url (u : str) (w : crawlState) : crawlState :=
  CrawlState (jobsScraped w) (jobsEnqueued w) ({[u]} ∪ scrapedUrls w)
             (dataset w) (queue w) (log w).
(** [Dataset.pushData(items)] *)
Definition pushData (items : list item) (w : crawlState) : crawlState :=
  CrawlState (jobsScraped w) (jobsEnqueued w) (scrapedUrls w)
             (dataset w ++ items) (queue w) (log w).
(** [enqueueLinks({ urls: [u], userData })] *)
Definition enqueue (rq : request) (w : crawlState) : crawlState :=
  CrawlState (jobsScraped w) (jobsEnqueued w) (scrapedUrls w) (dataset w)
             (queue w ++ [rq]) (log w).
Definition say (m : logMsg) (w : crawlState) : crawlState :=
  CrawlState (jobsScraped w) (jobsEnqueued w) (scrapedUrls w) (dataset w)
             (queue w) (log w ++ [m]).

(** [l.slice(0, e)] *)
Definition slice0 {A} (e : Z) (l : list A) : list A :=
  if (e <? 0)%Z then take (Z.to_nat (Z.of_nat (length l) + e)) l
  else take (Z.to_nat e) l.

Definition zlen {A} (l : list A) : Z := Z.of_nat (length l).

(** What a list handler still needs after an [await]. *)
Record listCtx : Type := ListCtx {
  c_page : Z;
  c_links : Z;          (** [links.length] *)
  c_batch : Z;          (** [toEnqueue.length] *)
  c_seeds : gmap str seedRec;
  c_next : option str   (** [findNextUrl($, request.url)] *)
}.

(** A handler suspended at one of its [await]s. *)
Inductive cont : Type :=
| AwaitListPush (n : Z) (cx : listCtx)
| AwaitDetailEnqueue (rest : list str) (cx : listCtx)
| AwaitNextEnqueue
| AwaitDetailPush (u : str) (title : str).

(** The end of the list branch: the stop conditions and the next page. *)
Definition list_tail (cfg : config) (cx : listCtx) (w : crawlState)
    : crawlState * option cont :=
  if ((RESULTS_WANTED cfg <=? jobsScraped w)
      || (RESULTS_WANTED cfg <=? jobsEnqueued w))%Z
  then (say ReachedResultsWanted w, None)
  else if (MAX_PAGES cfg <=? c_page cx)%Z
  then (say ReachedMaxPages w, None)
  else if (c_links cx =? 0)%Z
  then (say (NoLinksOnPage (c_page cx)) w, None)
  else
    match c_next cx with
    | Some nextUrl =>
        if nonempty nextUrl then
          (enqueue (Request nextUrl false (c_page cx + 1) None)
                   (say (EnqueuingNextList (c_page cx + 1) nextUrl) w),
           Some AwaitNextEnqueue)
        else (say (NoNextLink (c_page cx)) w, None)
    | None => (say (NoNextLink (c_page cx)) w, None)
    end.

(** The loop [for (const u of toEnqueue)], up to its next [await]. *)
Fixpoint enqueue_loop (cfg : config) (rest : list str) (cx : listCtx)
    (w : crawlState) : crawlState * option cont :=
  match rest with
  | [] =>
      list_tail cfg cx
        (if (0 <? c_batch cx)%Z
         then say (EnqueuedDetails (c_batch cx) (jobsEnqueued w)) w
         else w)
  | u :: rest' =>
      if ((jobsEnqueued w <? RESULTS_WANTED cfg)
          && (jobsScraped w <? RESULTS_WANTED cfg))%Z
      then (enqueue (Request u true 1 (c_seeds cx !! u)) w,
            Some (AwaitDetailEnqueue rest' cx))
      else enqueue_loop cfg rest' cx w
  end.

(** A page as the engine hands it to the handler: the answers of the
    document to the queries of either branch. *)
Record page : Type := Page {
  as_list : listDoc;
  as_detail : detailDoc
}.

(** [requestHandler], from its start to its first [await] or its end. *)
Definition start (cfg : config) (rq : request) (pg : page) (w : crawlState)
    : crawlState * option cont :=
  if is_detail rq then
    if (RESULTS_WANTED cfg <=? jobsScraped w)%Z
    then (say SkippingLimitMet w, None)
    else if bool_decide (url rq ∈ scrapedUrls w)
    then (say (SkippingDuplicate (url rq)) w, None)
    else
      let item := extractFromDetail rq (as_detail pg) in
      if negb (nonempty (cleanText (title (r_fields item))))
      then (say (SkippingNoTitle (url rq)) w, None)
      else (pushData [DetailItem item] w,
            Some (AwaitDetailPush (url rq) (title (r_fields item))))
  else
    let w := say (ProcessingList (pageNo rq) (url rq)) w in
    let links := collectJobLinks (as_list pg) (url rq) in
    let w := match links with [] => say (NoJobLinks (url rq)) w | _ => w end in
    let seeds := seedsByUrl (as_list pg) (url rq) in
    let next := findNextUrl (next_links (as_list pg)) (url rq) in
    if negb (collectDetails cfg) then
      let toPush := slice0 (RESULTS_WANTED cfg - jobsScraped w) links in
      let cx := ListCtx (pageNo rq) (zlen links) 0 seeds next in
      match toPush with
      | [] => list_tail cfg cx w
      | _ :: _ =>
          let items := List.map (fun u => ListItem u (seeds !! u)) toPush in
          (pushData items w, Some (AwaitListPush (zlen items) cx))
      end
    else
      let toEnqueue := slice0 (RESULTS_WANTED cfg - jobsEnqueued w) links in
      enqueue_loop cfg toEnqueue
                   (ListCtx (pageNo rq) (zlen links) (zlen toEnqueue) seeds next) w.

(** A suspended handler, from the [await] it waits at to its next one or
    its end. *)
Definition resume (cfg : config) (k : cont) (w : crawlState)
    : crawlState * option cont :=
  match k with
  | AwaitListPush n cx =>
      let w := set_scraped (jobsScraped w + n) w in
      list_tail cfg cx (say (PushedFromList n (jobsScraped w)) w)
  | AwaitDetailEnqueue rest cx =>
      enqueue_loop cfg rest cx (set_enqueued (jobsEnqueued w + 1) w)
  | AwaitNextEnqueue => (w, None)
  | AwaitDetailPush u t =>
      let w := add_url u (set_scraped (jobsScraped w + 1) w) in
      (say (Saved t (jobsScraped w)) w, None)
  end.

(** The [await]s a suspended handler has before it, at most. *)
Definition awaits (k : option cont) : nat :=
  match k with
  | None => 0
  | Some (AwaitListPush _ _) => 2
  | Some (AwaitDetailEnqueue rest _) => length rest + 2
  | Some AwaitNextEnqueue => 1
  | Some (AwaitDetailPush _ _) => 1
  end.

(** A handler run without interruption. *)
Fixpoint drive (cfg : config) (fuel : nat) (k : option cont) (w : crawlState)
    : crawlState * option cont :=
  match k, fuel with
  | Some c, S fuel' =>
      let '(w', k') := resume cfg c w in drive cfg fuel' k' w'
  | _, _ => (w, k)
  end.

(** [requestHandler] run from start to end with nothing in between. *)
Definition handle (cfg : config) (rq : request) (pg : page) (w : crawlState)
    : crawlState :=
  let '(w', k) := start cfg rq pg w in
  fst (drive cfg (awaits k) k w').

(** The crawl: the engine starts a queued request while fewer than
    [maxConcurrency] handlers are in flight, or lets a suspended handler
    go on.  Which request, which handler and what the site answers are the
    engine's and the site's choice. *)
Record crawl : Type := Crawl {
  shared : crawlState;
  in_flight : list cont
}.

Definition take_request (q1 q2 : list request) (w : crawlState) : crawlState :=
  CrawlState (jobsScraped w) (jobsEnqueued w) (scrapedUrls w) (dataset w)
             (q1 ++ q2) (log w).

(** The crawl after the engine starts the queued request [rq] on the page
    [pg], and after it lets the suspended handler [k] go on. *)
Definition started (cfg : config) (rq : request) (pg : page)
    (q1 q2 : list request) (c : crawl) : crawl :=
  let '(w', k) := start cfg rq pg (take_request q1 q2 (shared c)) in
  Crawl w' (in_flight c ++ option_list k).

Definition resumed (cfg : config) (k : cont) (r1 r2 : list cont) (c : crawl)
    : crawl :=
  let '(w', k') := resume cfg k (shared c) in
  Crawl w' (r1 ++ option_list k' ++ r2).

Inductive step (cfg : config) (maxConcurrency : nat) : crawl -> crawl -> Prop :=
| step_start c rq pg q1 q2 :
    queue (shared c) = q1 ++ rq :: q2 ->
    (length (in_flight c) < maxConcurrency)%nat ->
    step cfg maxConcurrency c (started cfg rq pg q1 q2 c)
| step_resume c k r1 r2 :
    in_flight c = r1 ++ k :: r2 ->
    step cfg maxConcurrency c (resumed cfg k r1 r2 c).

(** [crawler.run(initialUrls.map(u => ({ url: u, userData: { label: 'LIST',
    pageNo: 1 } })))] with the counters at zero. *)
Definition initial (initialUrls : list str) : crawl :=
  Crawl (CrawlState 0 0 ∅ []
           (List.map (fun u => Request u false 1 None) initialUrls) [])
        [].

Inductive reachable (cfg : config) (maxConcurrency : nat)
    (initialUrls : list str) : crawl -> Prop :=
| reach_initial : reachable cfg maxConcurrency initialUrls (initial initialUrls)
| reach_step c c' :
    reachable cfg maxConcurrency initialUrls c ->
    step cfg maxConcurrency c c' ->
    reachable cfg maxConcurrency initialUrls c'.

(** A schedule: the engine's moves one after the other.  [StartReq i pg]
    starts the [i]-th queued request on the page [pg]; [Resume i] lets
    the [i]-th suspended handler go on. *)
Inductive move : Type :=
| StartReq (i : nat) (pg : page)
| Resume (i : nat).

Fixpoint pick {A} (i : nat) (l : list A) : option (list A * A * list A) :=
  match l, i with
  | [], _ => None
  | x :: l', O => Some ([], x, l')
  | x :: l', S i' =>
      match pick i' l' with
      | Some (a, y, b) => Some (x :: a, y, b)
      | None => None
      end
  end.

Definition play1 (cfg : config) (maxConcurrency : nat) (m : move) (c : crawl)
    : option crawl :=
  match m with
  | StartReq i pg =>
      if (length (in_flight c) <? maxConcurrency)%nat then
        match pick i (queue (shared c)) with
        | Some (q1, rq, q2) => Some (started cfg rq pg q1 q2 c)
        | None => None
        end
      else None
  | Resume i =>
      match pick i (in_flight c) with
      | Some (r1, k, r2) => Some (resumed cfg k r1 r2 c)
      | None => None
      end
  end.

Fixpoint play (cfg : config) (maxConcurrency : nat) (ms : list move)
    (c : crawl) : option crawl :=
  match ms with
  | [] => Some c
  | m :: ms' =>
      match play1 cfg maxConcurrency m c with
      | Some c' => play cfg maxConcurrency ms' c'
      | None => None
      end
  end.

End Platform.

(** ** Sample inputs *)

(** [new URL(href, base).href] on an [href] that is already an absolute,
    normalised URL: the [href] itself. *)
Definition resolve_absolute : str -> str -> option str :=
  fun href _ => Some href.

(** The parser on a string that holds no markup and no character
    reference: one text node. *)
Definition parse_text : str -> list node :=
  fun t => [Text t].

(** An element without attributes. *)
Definition el (name : string) (cs : list node) : node :=
  Elem KTag (js name) [] cs.

Definition blank_detail : detailDoc :=
  DetailDoc [] [] [] [] [] [] [] None None None None [].

Definition blank_list : listDoc := ListDoc [] [] no_next.

Definition titled_detail (t : string) : detailDoc :=
  DetailDoc [Some (el "h1" [Text (js t)])] [] [] [] [] [] [] None None None
            None [].

(** A listing page with one card-less link to a detail page. *)
Definition one_link_list (href : string) : listDoc :=
  ListDoc [Anchor (Some (js href)) None] [] no_next.

(** A block holding one [JobPosting] node. *)
Definition posting_block (p : jobPosting) : option ldValue :=
  Some (LdObject (LdNode (Some (TypeStr (js "JobPosting"))) p)).

(** ** Auxiliary notions for the proofs *)

(** The length of the longest prefix of [s] made of [p]-characters. *)
Fixpoint span_len (p : N -> bool) (s : str) : nat :=
  match s with
  | c :: s' => if p c then S (span_len p s') else O
  | [] => O
  end.

(** The matcher state after [k] more characters. *)
Definition advance (k : nat) (st : mstate) : mstate :=
  MState (rev (take k (ahead st)) ++ seen st) (drop k (ahead st)) (caps st).

(** The input starts with a numeric [page] parameter. *)
Definition page_shape (ah : str) : Prop :=
  exists c d rest,
    ah = c :: js "page=" ++ d :: rest /\ is_sep c = true /\ is_digit d = true.

(** Two states agree on the produced count, the dataset and the visited
    set. *)
Definition core_eq (w w' : crawlState) : Prop :=
  jobsScraped w' = jobsScraped w /\ dataset w' = dataset w
  /\ scrapedUrls w' = scrapedUrls w.

(** A handler that is finished or waits for the request queue only. *)
Definition quiet (k : option cont) : Prop :=
  match k with
  | None | Some AwaitNextEnqueue | Some (AwaitDetailEnqueue _ _) => True
  | Some (AwaitListPush _ _) | Some (AwaitDetailPush _ _) => False
  end.

(** The records a suspended handler has pushed and not yet counted. *)
Definition uncounted (k : option cont) : Z :=
  match k with
  | Some (AwaitListPush n _) => n
  | Some (AwaitDetailPush _ _) => 1
  | _ => 0
  end.

(** The quota invariant of a crawl with one handler at a time. *)
Definition quota_ok (cfg : config) (w : crawlState) (k : option cont) : Prop :=
  (0 <= jobsScraped w)%Z /\ (0 <= uncounted k)%Z
  /\ (jobsScraped w + uncounted k <= RESULTS_WANTED cfg)%Z
  /\ zlen (dataset w) = (jobsScraped w + uncounted k)%Z.

(** The number of records in the dataset that carry the URL [u]. *)
Definition count_url (u : str) (ds : list item) : nat :=
  length (List.filter (fun i => str_eqb (item_url i) u) ds).

(** The quota invariant of a crawl: at most one handler in flight, and
    the shared state within quota. *)
Definition crawl_quota (cfg : config) (c : crawl) : Prop :=
  match in_flight c with
  | [] => quota_ok cfg (shared c) None
  | [k] => quota_ok cfg (shared c) (Some k)
  | _ => False
  end.

(** A dataset record that either is a listing record or has a title that
    is not empty after normalisation. *)
Definition titled (i : item) : Prop :=
  match i with
  | DetailItem r => nonempty (cleanText (title (r_fields r))) = true
  | ListItem _ _ => True
  end.

(** The URL of the record a suspended detail handler has pushed and not
    yet marked as visited. *)
Definition is_pending (k : option cont) (u : str) : bool :=
  match k with
  | Some (AwaitDetailPush u' _) => str_eqb u' u
  | _ => false
  end.

(** The de-duplication invariant of a crawl that collects details with
    one handler at a time: a URL has one record when it is visited or
    pending, none otherwise, and a pending URL is not yet visited. *)
Definition dedup_ok (w : crawlState) (k : option cont) : Prop :=
  (forall u, count_url u (dataset w)
             = if bool_decide (u ∈ scrapedUrls w) || is_pending k u
               then 1%nat else 0%nat)
  /\ (forall u, is_pending k u = true -> u ∉ scrapedUrls w)
  /\ (forall n cx, k <> Some (AwaitListPush n cx)).

Definition crawl_dedup (c : crawl) : Prop :=
  match in_flight c with
  | [] => dedup_ok (shared c) None
  | [k] => dedup_ok (shared c) (Some k)
  | _ => False
  end.

(** Sample crawls. *)
Definition one_wanted : config := Config 1 999 true.

Definition start_dev : str := js "https://www.jobberman.com/jobs?q=dev".
Definition start_ops : str := js "https://www.jobberman.com/jobs?q=ops".

Definition list_dev : page :=
  Page (one_link_list "https://www.jobberman.com/listings/dev-1") blank_detail.
Definition list_ops : page :=
  Page (one_link_list "https://www.jobberman.com/listings/ops-2") blank_detail.
Definition detail_dev : page := Page blank_list (titled_detail "Developer").
Definition detail_ops : page := Page blank_list (titled_detail "Operator").
Definition untitled_page : page := Page blank_list blank_detail.

(** Two listing pages are handled up to their [await enqueueLinks], then
    both go on; the two detail pages are handled up to their
    [await Dataset.pushData], then both go on. *)
Definition racing_schedule : list move :=
  [StartReq 0 list_dev; StartReq 0 list_ops; Resume 0; Resume 0;
   StartReq 0 detail_dev; StartReq 0 detail_ops; Resume 0; Resume 0].

Definition fresh : crawlState := CrawlState 0 0 ∅ [] [] [].

Definition detail_request (u : string) : request := Request (js u) true 1 None.

(** The same pages with every handler run to its end before the next
    one starts. *)
Definition orderly_schedule : list move :=
  [StartReq 0 list_dev; Resume 0; StartReq 0 list_ops;
   StartReq 0 detail_dev; Resume 0].

(** A detail URL whose page has no title, handled twice from the start of
    a crawl; and the same URL handled a second time on a page that has a
    title. *)
Definition dev_1 : request :=
  detail_request "https://www.jobberman.com/listings/dev-1".

Definition untitled_once : crawlState :=
  handle resolve_absolute parse_text one_wanted dev_1 untitled_page fresh.

Definition untitled_twice : crawlState :=
  handle resolve_absolute parse_text one_wanted dev_1 untitled_page untitled_once.

Definition untitled_then_titled : crawlState :=
  handle resolve_absolute parse_text one_wanted dev_1 detail_dev untitled_once.

(** ** The merge precedence in the words of the specification *)

(** The value of a field given its three tiers, lowest first: the highest
    tier that is not empty, and the lowest when all are empty. *)
Definition three_tier (low mid high : str) : str :=
  if nonempty high then high
  else if nonempty mid then mid
  else low.

(** The merge of the specification: the structured-data value when it is
    not empty after normalisation, otherwise the cascade value when that
    is not empty, otherwise the seed value. *)
Definition merge (seed cascade structured : str) : str :=
  if nonempty (cleanText structured) then structured
  else if nonempty cascade then cascade
  else seed.

(** A value that is empty or holds more than white space: it is empty
    after normalisation exactly when it is empty as it stands. *)
Definition not_blank (s : str) : Prop :=
  nonempty (cleanText s) = nonempty s.

(** The seed tier of a request. *)
Definition seed_tier (f : seedRec -> str) (rq : request) : str :=
  from_option f [] (seed rq).

(** The cascade tier of a field: the normalised text of the first hit. *)
Definition cascade_tier (hits : list (option node)) : str :=
  deEllipsize (getFullText (pickFirst hits)).

(** The structured-data tier, field by field. *)
Definition structured_title (ld : option jobPosting) : str :=
  default [] (ld ≫= ld_title).

Definition structured_company (ld : option jobPosting) : str :=
  default [] ((ld ≫= hiringOrganization)
                 ≫= fun o => or_opt (org_name o) (org_at_name o)).

Definition structured_date (ld : option jobPosting) : str :=
  default [] (ld ≫= datePosted).

Definition structured_category (ld : option jobPosting) : str :=
  match ld with
  | Some p =>
      if truthy_many (occupationalCategory p)
      then from_option first_of [] (occupationalCategory p)
      else if truthy_many (industry p)
      then from_option first_of [] (industry p)
      else []
  | None => []
  end.

(** Sample detail pages for the merge. *)
Definition categorised (c : string) : jobPosting :=
  JobPosting None None None None None None None (Some (One (js c))) None None.

Definition entitled (t : string) : jobPosting :=
  JobPosting (Some (js t)) None None None None None None None None None.

Definition located (city : string) : jobPosting :=
  JobPosting None None None None
    (Some (LocPlace (Place (Some (PostalAddress None (Some (js city)) None None)))))
    None None None None None.

Definition seeded (sd : seedRec) : request :=
  Request (js "https://www.jobberman.com/listings/dev-1") true 1 (Some sd).

Definition with_posting (p : jobPosting) : detailDoc :=
  DetailDoc [] [] [] [] [] [] [] None None None None [posting_block p].

Definition with_title_and_posting (t : string) (p : jobPosting) : detailDoc :=
  DetailDoc [Some (el "h1" [Text (js t)])] [] [] [] [] [] [] None None None
            None [posting_block p].

(** A posting whose description is a picture only, and a record that has
    a description from the page already. *)
Definition picture_only : jobPosting :=
  JobPosting None None None None None None None None None
    (Some (Markup (js "<p><img src='poster.png'></p>")
                  [el "p" [Elem KTag (js "img") [(js "src", js "poster.png")] []]])).

Definition described : fields :=
  Fields (js "Developer") [] [] [] [] []
         (js "<div><p>Build things.</p></div>") (js "Build things.") [].

(** The employment type the structured data gives: its first entry,
    re-cased. *)
Definition structured_job_type (ld : option jobPosting) : str :=
  from_option (fun et => humanize_type (first_of et)) []
              (ld ≫= employmentType).

(** The salary the structured data renders, empty when it has none. *)
Definition structured_salary (ld : option jobPosting) : str :=
  from_option (fun p => enrich_salary p []) [] ld.

Definition structured_street (ld : option jobPosting) : str :=
  match ld with
  | Some p =>
      let locNode := if truthy_loc (jobLocation p) then jobLocation p
                     else jobLocationType p in
      match locNode with
      | Some (LocPlace pl) => default [] (address pl ≫= streetAddress)
      | Some (LocPlaces pls) =>
          default [] ((head pls ≫= address) ≫= streetAddress)
      | _ => []
      end
  | None => []
  end.

Definition structured_address_parts (ld : option jobPosting) : str :=
  match ld with
  | Some p =>
      let locNode := if truthy_loc (jobLocation p) then jobLocation p
                     else jobLocationType p in
      let addr := match locNode with
                  | Some (LocPlace pl) => address pl
                  | Some (LocPlaces pls) => head pls ≫= address
                  | _ => None
                  end in
      match addr with
      | Some a => join (js ", ") (present [addressLocality a; addressRegion a;
                                           addressCountry a])
      | None => []
      end
  | None => []
  end.

(** Case split on the structured data inside [enrichFromJsonLd]. *)
Ltac enrich_split ld :=
  destruct ld as [?p|];
  [ unfold enrichFromJsonLd;
    match goal with
    | |- context [if has_description ?p then ?a else ?b] =>
        destruct (if has_description p then a else b) as [?h ?t]
    end
  | unfold enrichFromJsonLd ].

(** The records the handlers in flight have pushed and not yet counted. *)
Definition in_flight_uncounted (fl : list cont) : Z :=
  fold_right (fun k acc => (uncounted (Some k) + acc)%Z) 0%Z fl.

Definition detail_only (fl : list cont) : Prop :=
  Forall (fun k => forall n cx, k <> AwaitListPush n cx) fl.

(** The quota invariant of a crawl that collects details with up to
    [maxConcurrency] handlers in flight. *)
Definition overshoot_ok (cfg : config) (maxConcurrency : nat) (c : crawl)
    : Prop :=
  (0 <= jobsScraped (shared c))%Z
  /\ zlen (dataset (shared c))
     = (jobsScraped (shared c) + in_flight_uncounted (in_flight c))%Z
  /\ (jobsScraped (shared c) + in_flight_uncounted (in_flight c)
      <= RESULTS_WANTED cfg + Z.of_nat maxConcurrency - 1)%Z
  /\ (0 <= in_flight_uncounted (in_flight c) <= zlen (in_flight c))%Z
  /\ (length (in_flight c) <= maxConcurrency)%nat
  /\ detail_only (in_flight c).

(** A listing card and a description fragment to run the extractors on. *)
Definition sample_card : node :=
  el "li"
    [Elem KTag (js "a") [(js "href", js "/listings/dev-1")]
       [Text (js "Software Dev")];
     Text [10%N; 32%N; 32%N];
     el "p" [Text (js "Acme")];
     Text [10%N; 32%N; 32%N];
     el "span" [Text (js "Lagos  Full Time")];
     el "span" [Text (js "  NGN 150,000 - 250,000")]].

Definition sample_fragment : list node :=
  [el "div"
     [Elem KTag (js "a")
        [(js "href", js "https://www.jobberman.com/listings/42?ref=x");
         (js "class", js "btn"); (js "onclick", js "track()")]
        [Text (js "Apply")];
      el "font" [Text (js " now ")]]].

(** ** Further notions for the properties of the helpers *)

From Stdlib Require DecimalN.

(** [squeezed k p x s out]: [out] is [s] with every maximal run of at
    least [k] characters of the class [p] replaced by [x], which is what
    [s.replace(/[p]{k,}/g, x)] computes. *)
Inductive squeezed (k : nat) (p : N -> bool) (x : str) : str -> str -> Prop :=
| squeezed_nil : squeezed k p x [] []
| squeezed_keep c s out :
    (span_len p (c :: s) < k)%nat -> squeezed k p x s out ->
    squeezed k p x (c :: s) (c :: out)
| squeezed_run run rest out :
    (k <= length run)%nat -> forallb p run = true -> head_is p rest = false ->
    squeezed k p x rest out ->
    squeezed k p x (run ++ rest) (x ++ out).

(** No two adjacent characters of the class [p]. *)
Fixpoint no_run2 (p : N -> bool) (s : str) : bool :=
  match s with
  | a :: t =>
      match t with
      | b :: _ => negb (p a && p b)
      | [] => true
      end && no_run2 p t
  | [] => true
  end.

(** The characters the first replacement of [cleanText] removes:
    [[ \t\r\n]]. *)
Definition is_break (c : N) : bool :=
  (c =? 160) || (c =? 9) || (c =? 13) || (c =? 10).

(** Upper-casing the first character of every word, given whether the
    character before is a word character: what
    [s.replace(/\b\w/g, l => l.toUpperCase())] computes. *)
Fixpoint capitalise (prev : bool) (s : str) : str :=
  match s with
  | c :: t =>
      (if is_word c && negb prev then to_upper c else c)
        :: capitalise (is_word c) t
  | [] => []
  end.

Definition underscore_to_space (c : N) : N := if c =? 95 then 32 else c.

(** Dropping the grouping commas: [s.replace(/,/g, '')]. *)
Definition drop_comma (c : N) : str := if 44 =? c then [] else [c].

(** The matcher went from [st] to [x] over the text [w]. *)
Definition moved (st x : mstate) (w : str) : Prop :=
  ahead st = w ++ ahead x /\ seen x = rev w ++ seen st.

(** A text node. *)
Definition is_text (n : node) : bool :=
  match n with Text _ => true | _ => false end.

(** The strings the first traversal of the sanitiser hands to
    [replaceWith]: the normalised text of every element of type [tag]
    off the allow-list that it visits, when it is not empty. *)
Fixpoint replaced_texts (n : node) : list str :=
  match n with
  | Elem KTag name _ cs =>
      if mem_str (lower name) allowed then flat_map replaced_texts cs
      else if nonempty (cleanText (text n)) then [cleanText (text n)] else []
  | Elem _ _ _ cs => flat_map replaced_texts cs
  | _ => []
  end.

(** The attributes [as'] are what the sanitiser leaves of the attributes
    [as_] of an element: nothing, or on an anchor its own [href] as the
    URL resolver answered it. *)
Definition reset_from (URL_href : str -> str -> option str)
    (baseUrl name : str) (as_ as' : list (str * str)) : Prop :=
  as' = []
  \/ (lower name = js "a"
      /\ exists href abs,
           assoc (js "href") as_ = Some href
           /\ URL_href href baseUrl = Some abs /\ nonempty abs = true
           /\ as' = [(js "href", abs)]).

(** The element [n'] is what the sanitiser leaves of the element [n]:
    the same element, of type [tag] only when it is on the allow-list
    and then with its attributes reset, and every element among its
    children is what the sanitiser leaves of a child of [n]. *)
#[warnings="-register-all"]
Inductive cleaned (URL_href : str -> str -> option str) (baseUrl : str)
  : node -> node -> Prop :=
| cleaned_tag name as_ as' cs cs' :
    mem_str (lower name) allowed = true ->
    reset_from URL_href baseUrl name as_ as' ->
    Forall (fun c' => is_elem c' = true ->
                      exists c, In c cs /\ cleaned URL_href baseUrl c c') cs' ->
    cleaned URL_href baseUrl (Elem KTag name as_ cs) (Elem KTag name as' cs')
| cleaned_raw k name as_ cs cs' :
    k <> KTag ->
    Forall (fun c' => is_elem c' = true ->
                      exists c, In c cs /\ cleaned URL_href baseUrl c c') cs' ->
    cleaned URL_href baseUrl (Elem k name as_ cs) (Elem k name as_ cs').



(** All the candidates of all the blocks that parse, in document order. *)
Definition all_candidates (blocks : list (option ldValue))
    : list (option ldNode) :=
  flat_map (fun b => from_option candidates [] b) blocks.

(** A queued request that is a detail request or a list request for a
    page within [MAX_PAGES]; a log line that is not about a list page
    beyond it. *)
Definition page_ok (cfg : config) (rq : request) : Prop :=
  is_detail rq = false -> (pageNo rq <= MAX_PAGES cfg)%Z.

Definition log_ok (cfg : config) (m : logMsg) : Prop :=
  match m with
  | ProcessingList p _ | EnqueuingNextList p _ => (p <= MAX_PAGES cfg)%Z
  | _ => True
  end.

(** What a handler may do to the queue and the log: add requests and
    lines of that kind at the end. *)
Definition grows (cfg : config) (w w' : crawlState) : Prop :=
  (exists nq, queue w' = queue w ++ nq /\ Forall (page_ok cfg) nq)
  /\ (exists nl, log w' = log w ++ nl /\ Forall (log_ok cfg) nl).

Definition is_detail_item (i : item) : Prop :=
  match i with DetailItem _ => True | ListItem _ _ => False end.

Definition is_list_item (i : item) : Prop :=
  match i with ListItem _ _ => True | DetailItem _ => False end.

(** A handler of the list branch suspended before its pagination. *)
Definition is_list_cont (k : cont) : Prop :=
  match k with
  | AwaitListPush _ _ | AwaitNextEnqueue => True
  | AwaitDetailEnqueue _ _ | AwaitDetailPush _ _ => False
  end.

(** The dataset holds a detail record for the URL [u]. *)
Definition recorded (u : str) (ds : list item) : Prop :=
  exists r, In (DetailItem r) ds /\ r_url r = u.

(** The URL a suspended detail handler is about to mark as visited has
    its record in the dataset. *)
Definition pending_recorded (ds : list item) (k : cont) : Prop :=
  match k with
  | AwaitDetailPush u _ => recorded u ds
  | _ => True
  end.

(** ** Start URL, cookies and limits

    What the actor does with its input before the crawl starts.  The
    platform supplies [String.prototype.toLowerCase], [JSON.parse] and
    the serialisation of a URL with its search parameters. *)

(** The value of a search parameter: a string of the program, or the text
    the platform gives for a property that an object literal inherits
    from [Object.prototype]. *)
Inductive paramValue : Type :=
| PText (s : str)
| PInherited (key : str).

(** [const dateMap = { '24h': '1 day', '7d': '7 days', '30d': '30 days',
    '1 day': '1 day', '7 days': '7 days', '30 days': '30 days' }] *)
Definition dateMap : list (str * str) :=
  [(js "24h", js "1 day"); (js "7d", js "7 days"); (js "30d", js "30 days");
   (js "1 day", js "1 day"); (js "7 days", js "7 days");
   (js "30 days", js "30 days")].

(** [const dateMap = { '24h': '1 day', '7d': '7 days', '30d': '30 days' }]
    of the first and of the XPath revision. *)
Definition dateMap_short : list (str * str) :=
  [(js "24h", js "1 day"); (js "7d", js "7 days"); (js "30d", js "30 days")].

(** The properties every object literal inherits. *)
Definition object_prototype_keys : list str :=
  List.map js ["constructor"; "__defineGetter__"; "__defineSetter__";
               "hasOwnProperty"; "__lookupGetter__"; "__lookupSetter__";
               "isPrototypeOf"; "propertyIsEnumerable"; "toString";
               "valueOf"; "__proto__"; "toLocaleString"]%string.

(** [map[key]] on such a literal: the own entry, else the inherited
    property, else [undefined].  Every value found is truthy. *)
Definition literal_get (map : list (str * str)) (key : str)
    : option paramValue :=
  match assoc key map with
  | Some v => Some (PText v)
  | None => if mem_str key object_prototype_keys then Some (PInherited key)
            else None
  end.

(** [String(x)] of a string that may be [undefined]. *)
Definition String_of (x : option str) : str :=
  match x with Some s => s | None => js "undefined" end.

(** [if (kw && String(kw).trim()) u.searchParams.set(name, String(kw).trim())] *)
Definition text_param (name : string) (kw : option str)
    : list (str * paramValue) :=
  if truthy kw && nonempty (trim (String_of kw))
  then [(js name, PText (trim (String_of kw)))] else [].

Section Input.

Variable toLowerCase : str -> str.

(** [String(date).toLowerCase().replace(/\s+/g, '')] *)
Definition normalizedDate (date : option str) : str :=
  replace_all (plus (Chr is_space)) (fun _ => []) (toLowerCase (String_of date)).

(** The search parameters [buildStartUrl] sets on
    [https://www.jobberman.com/jobs], in the order it sets them. *)
Definition buildStartUrl_params (kw loc date : option str)
    : list (str * paramValue) :=
  text_param "q" kw ++ text_param "l" loc
    ++ match literal_get dateMap (normalizedDate date) with
       | Some v => [(js "created_at", v)]
       | None => []
       end.

(** The same of the first and of the XPath revision:
    [if (date && dateMap[date]) url.searchParams.set('created_at', dateMap[date])] *)
Definition buildStartUrl_params_v1 (kw loc date : option str)
    : list (str * paramValue) :=
  text_param "q" kw ++ text_param "l" loc
    ++ (if truthy date then
          match literal_get dateMap_short (String_of date) with
          | Some v => [(js "created_at", v)]
          | None => []
          end
        else []).

(** [u.href] of the URL with these parameters. *)
Variable URL_with_params : list (str * paramValue) -> str.

Definition buildStartUrl (kw loc date : option str) : str :=
  URL_with_params (buildStartUrl_params kw loc date).

(** *** Cookies *)

(** A parsed JSON value.  A number is given by its [String(n)]; an object
    by its entries in the order [Object.entries] lists them. *)
#[warnings="-register-all"]
Inductive json : Type :=
| JNull
| JBool (b : bool)
| JNum (shown : str)
| JStr (s : str)
| JArr (items : list json)
| JObj (entries : list (str * json)).

(** [JSON.parse(text)], [None] when it throws. *)
Variable JSON_parse : str -> option json.

(** [`${v}`] *)
Fixpoint to_string (v : json) : str :=
  match v with
  | JNull => js "null"
  | JBool true => js "true"
  | JBool false => js "false"
  | JNum shown => shown
  | JStr s => s
  | JArr items =>
      join (js ",")
           (List.map (fun e => match e with
                               | JNull => []
                               | _ => to_string e
                               end) items)
  | JObj _ => js "[object Object]"
  end.

(** [`${v}`] of a value that may be [undefined]. *)
Definition template (v : option json) : str :=
  match v with Some v => to_string v | None => js "undefined" end.

Fixpoint own (key : str) (entries : list (str * json)) : option json :=
  match entries with
  | [] => None
  | (k, v) :: rest => if str_eqb key k then Some v else own key rest
  end.

(** [`${c.name}=${c.value}`]; [None] when reading a property of [null]
    throws. *)
Definition cookie_pair (c : json) : option str :=
  match c with
  | JNull => None
  | JObj entries =>
      Some (template (own (js "name") entries) ++ js "="
              ++ template (own (js "value") entries))
  | _ => Some (js "undefined=undefined")
  end.

(** [parsed.map(f)] for an [f] that may throw. *)
Fixpoint map_throwing {A B} (f : A -> option B) (l : list A)
    : option (list B) :=
  match l with
  | [] => Some []
  | a :: l' =>
      match f a with
      | Some b => option_map (cons b) (map_throwing f l')
      | None => None
      end
  end.

(** [normalizeCookieHeader({ cookies, cookiesJson })]: the header, and
    whether the warning of the [catch] was logged. *)
Definition normalizeCookieHeader (cookies cookiesJson : option str)
    : str * bool :=
  if truthy cookies && nonempty (trim (String_of cookies))
  then (trim (String_of cookies), false)
  else if truthy cookiesJson then
    match JSON_parse (String_of cookiesJson) with
    | Some (JArr items) =>
        match map_throwing cookie_pair items with
        | Some pairs => (join (js "; ") pairs, false)
        | None => ([], true)
        end
    | Some (JObj entries) =>
        (join (js "; ")
              (List.map (fun kv => fst kv ++ js "=" ++ to_string (snd kv))
                        entries), false)
    | Some JNull => ([], true)
    | Some _ => ([], false)
    | None => ([], true)
    end
  else ([], false).

End Input.

(** *** Limits and start URLs *)

(** A numeric input field: absent, [null], or an integer. *)
Inductive rawNumber : Type :=
| RawUndefined
| RawNull
| RawInt (z : Z).

(** [Number.isFinite(+raw) ? Math.max(1, +raw) : dflt] *)
Definition limit_of (raw : rawNumber) (dflt : Z) : Z :=
  match raw with
  | RawUndefined => dflt
  | RawNull => Z.max 1 0
  | RawInt z => Z.max 1 z
  end.

(** An entry of [startUrls]: a string, or an object with or without a
    [url]; anything else has no [url]. *)
Inductive startEntry : Type :=
| EntryText (s : str)
| EntryObject (url : option str)
| EntryOther.

Record input : Type := Input {
  results_wanted : rawNumber;
  max_pages : rawNumber;
  in_collectDetails : option bool;
  startUrls : option (list startEntry);
  startUrl : option str;
  in_url : option str
}.

(** [RESULTS_WANTED], [MAX_PAGES] and [collectDetails = true] *)
Definition config_of (i : input) : config :=
  Config (limit_of (results_wanted i) 100) (limit_of (max_pages i) 999)
         (default true (in_collectDetails i)).

(** [typeof o === 'string' ? o : o?.url] *)
Definition entry_url (o : startEntry) : option str :=
  match o with
  | EntryText s => Some s
  | EntryObject u => u
  | EntryOther => None
  end.

(** [initialUrls], given the built search URL. *)
Definition initialUrls_of (i : input) (builtStartUrl : str) : list str :=
  let given :=
    match startUrls i with
    | Some ((_ :: _) as entries) =>
        List.filter nonempty (omap entry_url entries)
    | _ => []
    end
    ++ (if truthy (startUrl i) then [String_of (startUrl i)] else [])
    ++ (if truthy (in_url i) then [String_of (in_url i)] else []) in
  match given with
  | [] => [builtStartUrl]
  | _ :: _ => given
  end.

(** The two shapes [cookiesJson] may have for the same cookies: an array
    of [{ name, value }] objects, and one object from names to values. *)
Definition cookie_array (cookies : list (str * str)) : json :=
  JArr (List.map (fun nv => JObj [(js "name", JStr (fst nv));
                                  (js "value", JStr (snd nv))]) cookies).

Definition cookie_object (cookies : list (str * str)) : json :=
  JObj (List.map (fun nv => (fst nv, JStr (snd nv))) cookies).

(** [name=value; name=value; ...] *)
Definition cookie_header (cookies : list (str * str)) : str :=
  join (js "; ") (List.map (fun nv => fst nv ++ js "=" ++ snd nv) cookies).

(** A parser that knows one text. *)
Definition parse_only (text : str) (v : json) : str -> option json :=
  fun t => if str_eqb t text then Some v else None.

(** Following the cursor from page to page: [nls] holds, page by page,
    the "next" affordances of the document found there. *)
Fixpoint follow (URL_href : str -> str -> option str) (nls : list nextLinks)
    (url : str) : option str :=
  match nls with
  | [] => Some url
  | nl :: nls' =>
      match findNextUrl URL_href nl url with
      | Some next => follow URL_href nls' next
      | None => None
      end
  end.

(** The detail requests of a queue, and the handlers suspended at the
    [await] of an enqueued detail request. *)
Definition detail_requests (q : list request) : Z :=
  zlen (List.filter is_detail q).

Definition is_enqueueing (k : cont) : bool :=
  match k with AwaitDetailEnqueue _ _ => true | _ => false end.

Definition enqueueing (fl : list cont) : Z :=
  zlen (List.filter is_enqueueing fl).

(** The invariant of the enqueue counter with up to [maxConcurrency]
    handlers in flight. *)
Definition enqueue_ok (cfg : config) (maxConcurrency : nat) (c : crawl)
    : Prop :=
  (0 <= jobsEnqueued (shared c))%Z
  /\ (jobsEnqueued (shared c) + enqueueing (in_flight c)
      <= RESULTS_WANTED cfg + Z.of_nat maxConcurrency - 1)%Z
  /\ (detail_requests (queue (shared c))
      <= jobsEnqueued (shared c) + enqueueing (in_flight c))%Z
  /\ (length (in_flight c) <= maxConcurrency)%nat.
(** * Properties *)

Example findNextUrl_page3 U :
  findNextUrl U no_next (js "https://site/jobs?page=3")
  = Some (js "https://site/jobs?page=4").
Proof. vm_compute. reflexivity. Qed.

Example findNextUrl_nopage U :
  findNextUrl U no_next (js "https://site/jobs")
  = Some (js "https://site/jobs?page=2").
Proof. vm_compute. reflexivity. Qed.

Example findNextUrl_amp U :
  findNextUrl U no_next (js "https://site/jobs?q=dev&page=19&x=1")
  = Some (js "https://site/jobs?q=dev&page=20&x=1").
Proof. vm_compute. reflexivity. Qed.

Example humanize_type_upper :
  humanize_type (js "FULL_TIME") = js "FULL TIME".
Proof. vm_compute. reflexivity. Qed.

Example humanize_type_lower :
  humanize_type (js "part_time") = js "Part Time".
Proof. vm_compute. reflexivity. Qed.

Example cleanText_collapses :
  cleanText (js "  Senior   Developer" ++ [10%N] ++ js "  (Remote) ")
  = js "Senior Developer (Remote)".
Proof. vm_compute. reflexivity. Qed.

Example deEllipsize_dots : deEllipsize [72%N; 105%N; 8230%N] = js "Hi...".
Proof. vm_compute. reflexivity. Qed.

(** The card text is cleaned before it is split, so a card is one line:
    the company is not found and the location is cut at the job type. *)
Example card_is_one_line :
  card_lines (text sample_card)
  = [js "Software Dev Acme Lagos Full Time NGN 150,000 - 250,000"].
Proof. vm_compute. reflexivity. Qed.

Example extractFromListingCard_sample :
  let r := extractFromListingCard (Some sample_card) in
  s_title r = js "Software Dev" /\ s_company r = [] /\
  s_job_type r = js "Full Time" /\
  s_salary_range r = js "NGN 150,000 - NGN 250,000".
Proof. vm_compute. repeat split. Qed.

(** Only the [href] of an anchor is kept, and a tag off the list is
    replaced by its content. *)
Example sanitizeDescription_sample :
  sanitizeDescription resolve_absolute parse_text sample_fragment
    (js "https://www.jobberman.com/")
  = js "<div><a href=" ++ [34%N]
    ++ js "https://www.jobberman.com/listings/42?ref=x" ++ [34%N]
    ++ js ">Apply</a>now</div>".
Proof. vm_compute. reflexivity. Qed.

Example extractDatePosted_relative :
  extractDatePosted
    (Some (el "header" [Text (js "Posted 3 days ago by Acme")])) None
  = Some (js "3 days ago").
Proof. vm_compute. reflexivity. Qed.


(** ** The matcher on character runs *)

Lemma clear_caps_nil st : clear_caps [] st = st.
Proof.
  destruct st as [sn ah cs]. unfold clear_caps. simpl. f_equal.
  induction cs as [|e cs IH]; simpl; [reflexivity | now rewrite IH].
Qed.

Lemma advance_cons k c sn t cs :
  advance k (MState (c :: sn) t cs) = advance (S k) (MState sn (c :: t) cs).
Proof.
  unfold advance. simpl. f_equal. now rewrite <- app_assoc.
Qed.

Lemma advance_0 st : advance 0 st = st.
Proof. destruct st as [sn ah cs]. unfold advance. simpl. now rewrite drop_0. Qed.

(** A greedy run of one character class takes the longest run first. *)
Lemma rep_chr_head p fuel : forall lo st,
  (length (ahead st) + lo < fuel)%nat ->
  head (rep_loop (rmatch (Chr p)) [] fuel lo None st)
  = if (lo <=? span_len p (ahead st))%nat
    then Some (advance (span_len p (ahead st)) st) else None.
Proof.
  induction fuel as [|fuel IH]; intros lo st Hf; [lia|].
  cbn [rep_loop]. rewrite clear_caps_nil.
  destruct st as [sn ah cs]. cbn [rmatch ahead seen caps option_map].
  destruct ah as [|c t]; cbn [span_len flat_map app].
  - destruct lo; cbn; [now rewrite advance_0 | reflexivity].
  - destruct (p c) eqn:Hp; cbn [flat_map app ahead].
    + assert (Hne : Nat.eqb (length t) (length (c :: t)) = false)
        by (apply Nat.eqb_neq; simpl; lia).
      rewrite Hne, andb_false_r, app_nil_r.
      specialize (IH (Nat.pred lo) (MState (c :: sn) t cs)).
      cbn [ahead] in IH, Hf. simpl length in Hf.
      assert (Hf' : (length t + Nat.pred lo < fuel)%nat) by lia.
      specialize (IH Hf').
      destruct (Nat.leb_spec (Nat.pred lo) (span_len p t)) as [Hle|Hgt].
      * destruct (rep_loop _ _ fuel (Nat.pred lo) None _) as [|x l];
          [discriminate|].
        cbn in IH |- *. injection IH as ->.
        destruct (Nat.leb_spec lo (S (span_len p t))); [|lia].
        now rewrite advance_cons.
      * destruct (rep_loop _ _ fuel (Nat.pred lo) None _) as [|x l];
          [|discriminate].
        destruct lo as [|lo]; [simpl in Hgt; lia|].
        cbn. destruct (Nat.leb_spec lo (span_len p t)); [simpl in Hgt; lia|].
        reflexivity.
    + destruct lo; cbn; [now rewrite advance_0 | reflexivity].
Qed.

Lemma span_len_app p ds post :
  forallb p ds = true -> head_is p post = false ->
  span_len p (ds ++ post) = length ds.
Proof.
  induction ds as [|d ds IH]; simpl; intros Hd Hp.
  - destruct post as [|c post]; simpl in *; [reflexivity | now rewrite Hp].
  - apply andb_true_iff in Hd as [Hd1 Hd2]. rewrite Hd1. f_equal. now apply IH.
Qed.

Lemma span_len_split p s :
  forallb p (take (span_len p s) s) = true
  /\ head_is p (drop (span_len p s) s) = false.
Proof.
  induction s as [|c s [IH1 IH2]]; simpl; [auto|].
  destruct (p c) eqn:Hp; simpl; [now rewrite Hp, IH1 | now rewrite Hp].
Qed.

Lemma rmatch_chr p sn c t cs :
  rmatch (Chr p) (MState sn (c :: t) cs)
  = if p c then [MState (c :: sn) t cs] else [].
Proof. reflexivity. Qed.

Lemma rmatch_seq r1 r2 st :
  rmatch (Seq r1 r2) st = flat_map (rmatch r2) (rmatch r1 st).
Proof. reflexivity. Qed.

Lemma rmatch_grp i r st :
  rmatch (Grp i r) st = List.map (set_cap i st) (rmatch r st).
Proof. reflexivity. Qed.

Lemma rmatch_lit lp : forall sn t cs,
  rmatch (lit lp) (MState sn (lp ++ t) cs) = [MState (rev lp ++ sn) t cs].
Proof.
  induction lp as [|a lp IH]; intros sn t cs; [reflexivity|].
  cbn [lit app]. rewrite rmatch_seq. unfold chr at 1.
  rewrite rmatch_chr, N.eqb_refl.
  cbn [flat_map]. rewrite IH, app_nil_r. cbn [rev]. now rewrite <- app_assoc.
Qed.

Lemma rmatch_lit_inv lp : forall st x,
  In x (rmatch (lit lp) st) -> ahead st = lp ++ ahead x.
Proof.
  induction lp as [|a lp IH]; intros [sn ah cs] x Hx.
  - cbn in Hx. destruct Hx as [<-|[]]. reflexivity.
  - cbn [lit] in Hx. rewrite rmatch_seq in Hx.
    apply in_flat_map in Hx as (y & Hy & Hx).
    destruct ah as [|c t]; [destruct Hy|].
    unfold chr in Hy. rewrite rmatch_chr in Hy.
    destruct (N.eqb_spec a c) as [->|]; [|destruct Hy].
    destruct Hy as [<-|[]]. apply IH in Hx. cbn in Hx |- *. now rewrite Hx.
Qed.

(** The run [p+] at the end of a pattern: it matches when the input starts
    with a [p]-character, and then takes the whole run. *)
Lemma rmatch_plus_head p sn ah cs :
  head (rmatch (plus (Chr p)) (MState sn ah cs))
  = if head_is p ah
    then Some (advance (span_len p ah) (MState sn ah cs)) else None.
Proof.
  change (rmatch (plus (Chr p)) (MState sn ah cs))
    with (rep_loop (rmatch (Chr p)) [] (S (length ah + 1)) 1 None
                   (MState sn ah cs)).
  rewrite rep_chr_head by (cbn; lia).
  cbn [ahead]. destruct ah as [|c t]; cbn [span_len head_is]; [reflexivity|].
  destruct (p c); reflexivity.
Qed.

Lemma head_map {A B} (f : A -> B) l : head (List.map f l) = option_map f (head l).
Proof. destruct l; reflexivity. Qed.

Lemma head_is_app_run p ds post :
  ds <> [] -> forallb p ds = true -> head_is p (ds ++ post) = true.
Proof.
  destruct ds as [|d ds]; [congruence|]. simpl. intros _ H.
  now apply andb_true_iff in H as [-> _].
Qed.

Lemma take_minus_suffix {A} (a b : list A) :
  take (length (a ++ b) - length b) (a ++ b) = a.
Proof.
  rewrite length_app.
  replace (length a + length b - length b)%nat with (length a) by lia.
  apply take_app_length.
Qed.

Lemma match_param_run q lp p sn c ds post :
  q c = true -> ds <> [] -> forallb p ds = true -> head_is p post = false ->
  match_here (Seq (Chr q) (Seq (lit lp) (Grp 1 (plus (Chr p)))))
             sn (c :: lp ++ ds ++ post)
  = Some (RResult (rev sn) (c :: lp ++ ds) post [(1%nat, ds)]).
Proof.
  intros Hq Hne Hp Hpost. unfold match_here.
  rewrite rmatch_seq, rmatch_chr, Hq. cbn [flat_map].
  rewrite rmatch_seq, rmatch_lit. cbn [flat_map]. rewrite !app_nil_r.
  rewrite rmatch_grp.
  pose proof (rmatch_plus_head p (rev lp ++ c :: sn) (ds ++ post) []) as Hh.
  rewrite head_is_app_run, span_len_app in Hh by assumption.
  destruct (rmatch (plus (Chr p)) _) as [|x l] eqn:Hx; [discriminate|].
  cbn in Hh. injection Hh as ->.
  cbn [List.map]. unfold result_of, set_cap, advance.
  cbn [seen ahead caps]. rewrite !drop_app_length.
  rewrite take_minus_suffix.
  change (c :: lp ++ ds ++ post) with ((c :: lp) ++ ds ++ post).
  rewrite (app_assoc (c :: lp) ds post), take_minus_suffix.
  reflexivity.
Qed.

Lemma match_sep_run q lp p sn c ds post :
  q c = true -> ds <> [] -> forallb p ds = true -> head_is p post = false ->
  match_here (Seq (Grp 1 (Chr q)) (Seq (lit lp) (plus (Chr p))))
             sn (c :: lp ++ ds ++ post)
  = Some (RResult (rev sn) (c :: lp ++ ds) post [(1%nat, [c])]).
Proof.
  intros Hq Hne Hp Hpost. unfold match_here.
  rewrite rmatch_seq, rmatch_grp, rmatch_chr, Hq. cbn [List.map flat_map].
  unfold set_cap at 1. cbn [seen ahead caps].
  change (c :: lp ++ ds ++ post) with ([c] ++ lp ++ ds ++ post) at 1 2.
  rewrite take_minus_suffix.
  rewrite rmatch_seq, rmatch_lit. cbn [flat_map]. rewrite !app_nil_r.
  pose proof (rmatch_plus_head p (rev lp ++ c :: sn) (ds ++ post)
                [(1%nat, [c])]) as Hh.
  rewrite head_is_app_run, span_len_app in Hh by assumption.
  destruct (rmatch (plus (Chr p)) _) as [|x l] eqn:Hx; [discriminate|].
  cbn in Hh. injection Hh as ->.
  unfold result_of, advance. cbn [seen ahead caps].
  rewrite !drop_app_length.
  change (c :: lp ++ ds ++ post) with ((c :: lp) ++ ds ++ post).
  rewrite (app_assoc (c :: lp) ds post), take_minus_suffix.
  reflexivity.
Qed.

Lemma match_param_inv q lp r sn ah m :
  match_here (Seq (Chr q) (Seq (lit lp) r)) sn ah = Some m ->
  exists c rest,
    ah = c :: lp ++ rest /\ q c = true
    /\ rmatch r (MState (rev lp ++ c :: sn) rest []) <> [].
Proof.
  unfold match_here. intros H.
  destruct (rmatch _ _) as [|x l] eqn:Hx; [discriminate|].
  assert (Hin : In x (rmatch (Seq (Chr q) (Seq (lit lp) r)) (MState sn ah [])))
    by (rewrite Hx; now left).
  rewrite rmatch_seq in Hin. apply in_flat_map in Hin as (y & Hy & Hin).
  destruct ah as [|c t]; [destruct Hy|].
  rewrite rmatch_chr in Hy. destruct (q c) eqn:Hq; [|destruct Hy].
  destruct Hy as [<-|[]].
  rewrite rmatch_seq in Hin. apply in_flat_map in Hin as (z & Hz & Hin).
  pose proof (rmatch_lit_inv _ _ _ Hz) as Hah. cbn [ahead] in Hah.
  remember (ahead z) as rest eqn:Hrest. subst t.
  exists c, rest. split; [reflexivity|]. split; [assumption|].
  rewrite rmatch_lit in Hz. destruct Hz as [Hz|[]]. subst z.
  intros Hnil. rewrite Hnil in Hin. destruct Hin.
Qed.

Lemma plus_nonempty p sn ah cs :
  rmatch (plus (Chr p)) (MState sn ah cs) <> [] -> head_is p ah = true.
Proof.
  intros H. pose proof (rmatch_plus_head p sn ah cs) as Hh.
  destruct (head_is p ah); [reflexivity|].
  destruct (rmatch _ _); [congruence | discriminate].
Qed.

(** The leftmost match skips the positions at which nothing matches. *)
Lemma search_skip r suf : forall pre sn,
  (forall p1 p2, pre = p1 ++ p2 -> p2 <> [] ->
                 match_here r (rev p1 ++ sn) (p2 ++ suf) = None) ->
  search_from r sn (pre ++ suf) = search_from r (rev pre ++ sn) suf.
Proof.
  induction pre as [|c pre IH]; intros sn H; [reflexivity|].
  pose proof (H [] (c :: pre) eq_refl ltac:(discriminate)) as H0.
  cbn [rev app] in H0. cbn [app search_from]. rewrite H0.
  rewrite IH.
  - cbn [rev]. now rewrite <- app_assoc.
  - intros p1 p2 -> Hne. specialize (H (c :: p1) p2 eq_refl Hne).
    cbn [rev] in H. now rewrite <- app_assoc in H.
Qed.

Lemma search_none r : forall ah sn,
  search_from r sn ah = None ->
  forall p1 p2, ah = p1 ++ p2 -> match_here r (rev p1 ++ sn) p2 = None.
Proof.
  induction ah as [|c ah IH]; intros sn H p1 p2 E.
  - destruct p1; [|discriminate]. destruct p2; [|discriminate].
    cbn in H |- *. destruct (match_here r sn []); [discriminate|reflexivity].
  - cbn [search_from] in H.
    destruct (match_here r sn (c :: ah)) eqn:Hm; [discriminate|].
    destruct p1 as [|a p1].
    + cbn in E |- *. now subst p2.
    + injection E as <- E. cbn [rev]. rewrite <- app_assoc. cbn [app].
      now apply IH.
Qed.

Lemma search_hit r sn ah m :
  match_here r sn ah = Some m -> search_from r sn ah = Some m.
Proof. intros H. destruct ah; cbn [search_from]; now rewrite H. Qed.

(** ** Pagination cursor *)

Lemma page_shape_run (d : N) (rest : str) :
  is_digit d = true ->
  exists ds post,
    d :: rest = ds ++ post /\ ds <> [] /\ forallb is_digit ds = true
    /\ head_is is_digit post = false.
Proof.
  intros Hd. pose proof (span_len_split is_digit (d :: rest)) as [H1 H2].
  exists (take (span_len is_digit (d :: rest)) (d :: rest)),
         (drop (span_len is_digit (d :: rest)) (d :: rest)).
  split; [now rewrite take_drop|]. split; [|now split].
  cbn [span_len]. rewrite Hd. discriminate.
Qed.

Lemma re_page_shape sn ah :
  match_here re_page sn ah <> None <-> page_shape ah.
Proof.
  split.
  - destruct (match_here re_page sn ah) as [m|] eqn:Hm; [intros _|congruence].
    unfold re_page in Hm. apply match_param_inv in Hm as (c & rest & -> & Hc & Hr).
    rewrite rmatch_grp in Hr.
    assert (Hr' : rmatch (plus (Chr is_digit))
                    (MState (rev (js "page=") ++ c :: sn) rest []) <> [])
      by (intros E; rewrite E in Hr; now apply Hr).
    apply plus_nonempty in Hr'. destruct rest as [|d rest]; [discriminate|].
    exists c, d, rest. auto.
  - intros (c & d & rest & -> & Hc & Hd).
    destruct (page_shape_run d rest Hd) as (ds & post & E & Hne & Hds & Hpost).
    rewrite E. unfold re_page. now rewrite match_param_run.
Qed.

Lemma match_sep_inv q lp r sn ah m :
  match_here (Seq (Grp 1 (Chr q)) (Seq (lit lp) r)) sn ah = Some m ->
  exists c rest,
    ah = c :: lp ++ rest /\ q c = true
    /\ rmatch r (MState (rev lp ++ c :: sn) rest [(1%nat, [c])]) <> [].
Proof.
  unfold match_here. intros H.
  destruct (rmatch _ _) as [|x l] eqn:Hx; [discriminate|].
  assert (Hin : In x (rmatch (Seq (Grp 1 (Chr q)) (Seq (lit lp) r))
                             (MState sn ah [])))
    by (rewrite Hx; now left).
  rewrite rmatch_seq, rmatch_grp in Hin.
  apply in_flat_map in Hin as (y & Hy & Hin).
  destruct ah as [|c t]; [destruct Hy|].
  rewrite rmatch_chr in Hy. destruct (q c) eqn:Hq; [|destruct Hy].
  destruct Hy as [<-|[]].
  unfold set_cap in Hin. cbn [seen ahead caps] in Hin.
  change (c :: t) with ([c] ++ t) in Hin. rewrite take_minus_suffix in Hin.
  rewrite rmatch_seq in Hin. apply in_flat_map in Hin as (z & Hz & Hin).
  pose proof (rmatch_lit_inv _ _ _ Hz) as Hah. cbn [ahead] in Hah.
  remember (ahead z) as rest eqn:Hrest. subst t.
  exists c, rest. split; [reflexivity|]. split; [assumption|].
  rewrite rmatch_lit in Hz. destruct Hz as [Hz|[]]. subst z.
  unfold str in *.
  intros Hnil. rewrite Hnil in Hin. destruct Hin.
Qed.

Lemma re_page_sep_shape sn ah :
  match_here re_page_sep sn ah <> None <-> page_shape ah.
Proof.
  split.
  - destruct (match_here re_page_sep sn ah) as [m|] eqn:Hm;
      [intros _|congruence].
    unfold re_page_sep in Hm.
    apply match_sep_inv in Hm as (c & rest & -> & Hc & Hr).
    apply plus_nonempty in Hr. destruct rest as [|d rest]; [discriminate|].
    exists c, d, rest. auto.
  - intros (c & d & rest & -> & Hc & Hd).
    destruct (page_shape_run d rest Hd) as (ds & post & E & Hne & Hds & Hpost).
    rewrite E. unfold re_page_sep. now rewrite match_sep_run.
Qed.

Lemma js_page : js "page=" = [112; 97; 103; 101; 61].
Proof. reflexivity. Qed.

Lemma sep_cases c : is_sep c = true -> c = 63 \/ c = 38.
Proof.
  unfold is_sep. intros H. apply orb_true_iff in H as [H|H];
    apply N.eqb_eq in H; auto.
Qed.

(** A parameter that starts later is not seen from an earlier position,
    unless the text before it holds one already. *)
Lemma page_shape_blocked p2 c tail :
  p2 <> [] -> ~ page_shape p2 -> is_sep c = true ->
  ~ page_shape (p2 ++ c :: tail).
Proof.
  intros Hne Hno Hc (c' & d' & rest' & E & Hc' & Hd').
  rewrite js_page in E.
  assert (Hbad : forall x, In x [112; 97; 103; 101; 61] -> c <> x).
  { intros x Hx ->. cbn in Hx.
    repeat (destruct Hx as [<-|Hx]; [discriminate Hc|]). destruct Hx. }
  destruct p2 as [|a0 p2]; [congruence|]. cbn in E. injection E as -> E.
  destruct p2 as [|a1 p2]; cbn in E;
    [injection E as E _; refine (Hbad _ _ E); cbn; tauto|injection E as -> E].
  destruct p2 as [|a2 p2]; cbn in E;
    [injection E as E _; refine (Hbad _ _ E); cbn; tauto|injection E as -> E].
  destruct p2 as [|a3 p2]; cbn in E;
    [injection E as E _; refine (Hbad _ _ E); cbn; tauto|injection E as -> E].
  destruct p2 as [|a4 p2]; cbn in E;
    [injection E as E _; refine (Hbad _ _ E); cbn; tauto|injection E as -> E].
  destruct p2 as [|a5 p2]; cbn in E;
    [injection E as E _; refine (Hbad _ _ E); cbn; tauto|injection E as -> E].
  destruct p2 as [|a6 p2]; cbn in E.
  - injection E as -> _. apply sep_cases in Hc as [->| ->]; discriminate Hd'.
  - injection E as -> E. apply Hno. exists c', d', p2.
    rewrite js_page. auto.
Qed.

Lemma test_false r s : test r s = false -> search_from r [] s = None.
Proof. unfold test, exec. destruct (search_from r [] s); congruence. Qed.

Lemma no_page_before r pre c tail :
  (forall sn ah, match_here r sn ah <> None <-> page_shape ah) ->
  test re_page pre = false -> is_sep c = true ->
  forall p1 p2, pre = p1 ++ p2 -> p2 <> [] ->
    match_here r (rev p1 ++ []) (p2 ++ c :: tail) = None.
Proof.
  intros Hr Ht Hc p1 p2 E Hne.
  destruct (match_here r _ _) eqn:Hm; [|reflexivity].
  exfalso. eapply (page_shape_blocked p2 c tail Hne); [|assumption|].
  - intros Hs. apply (re_page_shape (rev p1 ++ [])) in Hs. apply Hs.
    apply (search_none _ _ _ (test_false _ _ Ht) p1 p2 E).
  - apply (Hr (rev p1 ++ [])). congruence.
Qed.

Lemma exec_page_param r m pre c ds post :
  (forall sn ah, match_here r sn ah <> None <-> page_shape ah) ->
  match_here r (rev pre ++ []) (c :: js "page=" ++ ds ++ post) = Some m ->
  test re_page pre = false -> is_sep c = true ->
  exec r (pre ++ c :: js "page=" ++ ds ++ post) = Some m.
Proof.
  intros Hr Hm Ht Hc. unfold exec.
  rewrite search_skip by (now apply no_page_before).
  now apply search_hit.
Qed.

Lemma exec_none_of_test pre :
  test re_page pre = false -> exec re_page pre = None.
Proof. apply test_false. Qed.

Lemma rev_app_nil {A} (l : list A) : rev (rev l ++ []) = l.
Proof. now rewrite app_nil_r, rev_involutive. Qed.

(** ** Numbers *)

(** Reading and writing at and above [2^53]. *)
Example number_samples :
  Number_toString (parseInt (js "9007199254740993")) = js "9007199254740992"
  /\ Number_toString (parseInt (js "18446744073709551616"))
     = js "18446744073709552000"
  /\ Number_toString (parseInt (js "1000000000000000000000")) = js "1e+21"
  /\ Number_toString (parseInt (js "1180591620717411303424"))
     = js "1.1805916207174113e+21"
  /\ toLocaleString (parseInt (js "18446744073709551616"))
     = js "18,446,744,073,709,552,000"
  /\ plus_one (parseInt (js "9007199254740992")) = Finite 9007199254740992.
Proof. repeat split; vm_compute; reflexivity. Qed.

(** ** Numbers in the exact range *)

Lemma size_small n : n < 2 ^ 53 -> (N.size n <=? 53) = true.
Proof.
  intros H. apply N.leb_le.
  destruct (N.eq_dec n 0) as [->|Hn]; [cbn; lia|].
  rewrite N.size_log2 by assumption.
  apply N.le_succ_l, N.log2_lt_pow2; lia.
Qed.

Lemma size_large n : 2 ^ 53 <= n -> (N.size n <=? 53) = false.
Proof.
  intros H. apply N.leb_gt.
  assert (Hn : n <> 0) by (intros ->; cbn in H; lia).
  rewrite N.size_log2 by assumption.
  apply N.lt_succ_r, N.log2_le_pow2; lia.
Qed.

Lemma round53_small n : n < 2 ^ 53 -> round53 n = n.
Proof. intros H. unfold round53. now rewrite size_small. Qed.

Lemma round53_large n : 2 ^ 53 <= n -> 2 ^ 53 <= round53 n.
Proof.
  intros H. unfold round53. rewrite size_large by assumption.
  assert (Hn : n <> 0) by (intros ->; cbn in H; lia).
  assert (Hs : 53 < N.size n) by (apply N.leb_gt, size_large; assumption).
  set (sh := N.size n - 53).
  assert (Hq : 2 ^ 52 <= N.shiftr n sh).
  { rewrite N.shiftr_div_pow2.
    apply N.div_le_lower_bound; [apply N.pow_nonzero; lia|].
    rewrite <- N.pow_add_r.
    replace (sh + 52) with (N.log2 n)
      by (unfold sh; rewrite N.size_log2 in * by assumption; lia).
    apply N.log2_spec. lia. }
  rewrite N.shiftl_mul_pow2.
  assert (Hp : 2 <= 2 ^ sh).
  { change 2 with (2 ^ 1) at 1. apply N.pow_le_mono_r; unfold sh; lia. }
  match goal with |- _ <= ?q * _ => assert (Hq' : 2 ^ 52 <= q) end.
  { destruct (_ || _); lia. }
  change (2 ^ 53) with (2 ^ 52 * 2). apply N.mul_le_mono; assumption.
Qed.

Lemma to_number_small n : n < safe_bound -> to_number n = Finite n.
Proof.
  unfold safe_bound. intros H. unfold to_number.
  rewrite round53_small by assumption.
  assert (H' : n < 2 ^ 1024).
  { eapply N.lt_trans; [exact H|]. apply N.pow_lt_mono_r; lia. }
  apply N.ltb_lt in H'. now rewrite H'.
Qed.

Lemma shortest_small n : n < safe_bound -> shortest n = n.
Proof.
  unfold safe_bound. intros H. unfold shortest.
  destruct (List.find _ _) as [c|] eqn:E; [|reflexivity].
  apply find_some in E. destruct E as [_ E]. apply N.eqb_eq in E.
  destruct (N.lt_ge_cases c (2 ^ 53)) as [Hc|Hc].
  - now rewrite round53_small in E.
  - apply round53_large in Hc. lia.
Qed.

Lemma Number_toString_small n :
  n < safe_bound -> Number_toString (Finite n) = dec n.
Proof.
  intros H. unfold Number_toString. rewrite shortest_small by assumption.
  assert (H' : n < 10 ^ 21).
  { eapply N.lt_trans; [exact H|]. vm_compute. reflexivity. }
  apply N.ltb_lt in H'. now rewrite H'.
Qed.

Lemma toLocaleString_small n :
  n < safe_bound -> toLocaleString (Finite n) = rev (group3 (rev (dec n))).
Proof. intros H. unfold toLocaleString. now rewrite shortest_small. Qed.

Lemma page_plus_one ds :
  digits_value ds + 1 < safe_bound ->
  Number_toString (plus_one (parseInt ds)) = dec (digits_value ds + 1).
Proof.
  intros H. unfold parseInt.
  rewrite to_number_small by lia. cbn [plus_one].
  rewrite to_number_small by assumption.
  now apply Number_toString_small.
Qed.

(** The fallback of [findNextUrl] on a URL that carries a numeric [page]
    parameter. *)
Lemma findNextUrl_numbered U nl pre c ds post :
  truthy (nextLink nl) = false ->
  is_sep c = true -> ds <> [] -> forallb is_digit ds = true ->
  head_is is_digit post = false -> test re_page pre = false ->
  findNextUrl U nl (pre ++ c :: js "page=" ++ ds ++ post)
  = Some (pre ++ c :: js "page="
              ++ Number_toString (plus_one (parseInt ds)) ++ post).
Proof.
  intros Hnl Hc Hne Hds Hpost Hpre. unfold findNextUrl. rewrite Hnl.
  rewrite (exec_page_param re_page _ pre c ds post re_page_shape
             (match_param_run _ _ _ _ _ _ _ Hc Hne Hds Hpost) Hpre Hc).
  unfold replace_first.
  rewrite (exec_page_param re_page_sep _ pre c ds post re_page_sep_shape
             (match_sep_run _ _ _ _ _ _ _ Hc Hne Hds Hpost) Hpre Hc).
  cbn [m_pre m_post m_caps group cap_lookup Nat.eqb default].
  rewrite rev_app_nil. reflexivity.
Qed.

Lemma findNextUrl_increment U nl pre c ds post :
  truthy (nextLink nl) = false ->
  is_sep c = true -> ds <> [] -> forallb is_digit ds = true ->
  head_is is_digit post = false -> test re_page pre = false ->
  digits_value ds + 1 < safe_bound ->
  findNextUrl U nl (pre ++ c :: js "page=" ++ ds ++ post)
  = Some (pre ++ c :: js "page=" ++ dec (digits_value ds + 1) ++ post).
Proof.
  intros Hnl Hc Hne Hds Hpost Hpre Hb.
  rewrite findNextUrl_numbered by assumption.
  now rewrite page_plus_one.
Qed.

(** From [2^53] on the page number is rounded to a double when it is
    read and when one is added: the page after [9007199254740993] is
    [9007199254740992], not [9007199254740994]. *)
Lemma findNextUrl_large_page_rounds :
  findNextUrl resolve_absolute no_next (js "https://site/jobs?page=9007199254740993")
  = Some (js "https://site/jobs?page=9007199254740992")
  /\ findNextUrl_xpath resolve_absolute no_next
       (js "https://site/jobs?page=9007199254740993")
     = Some (js "https://site/jobs?page=9007199254740992")
  /\ findNextUrl resolve_absolute no_next (js "https://site/jobs?page=9007199254740993")
     <> Some (js "https://site/jobs?page="
                ++ dec (digits_value (js "9007199254740993") + 1)).
Proof. repeat split; [vm_compute; reflexivity..|vm_compute; discriminate]. Qed.

Lemma findNextUrl_append U nl url :
  truthy (nextLink nl) = false -> test re_page url = false ->
  findNextUrl U nl url
  = Some (url ++ (if includes (js "?") url then js "&page=2" else js "?page=2")).
Proof.
  intros Hnl Hno. unfold findNextUrl. rewrite Hnl.
  rewrite (exec_none_of_test _ Hno). now destruct (includes _ _).
Qed.

Lemma findNextUrl_xpath_same U nl url :
  truthy (nextLink nl) = false ->
  findNextUrl_xpath U nl url = findNextUrl U nl url.
Proof.
  intros Hnl. unfold findNextUrl_xpath, findNextUrl. rewrite Hnl.
  destruct (exec re_page url); [reflexivity|]. now destruct (includes _ _).
Qed.

(** C7 (amended).  On a listing page without a "next" affordance,
    [findNextUrl] answers the current URL with the number of its first
    numeric [page] parameter raised by one, where that number plus one is
    below [2^53], and the current URL with [&page=2] or [?page=2]
    appended when it carries no such parameter; the XPath revision of the
    function answers the same.  [https://site/jobs?page=3] gives
    [https://site/jobs?page=4] and [https://site/jobs] gives
    [https://site/jobs?page=2]. *)
Theorem findNextUrl_fallback (U : str -> str -> option str) (nl : nextLinks) :
  truthy (nextLink nl) = false ->
  (forall pre c ds post,
      is_sep c = true -> ds <> [] -> forallb is_digit ds = true ->
      head_is is_digit post = false -> test re_page pre = false ->
      digits_value ds + 1 < safe_bound ->
      findNextUrl U nl (pre ++ c :: js "page=" ++ ds ++ post)
      = Some (pre ++ c :: js "page=" ++ dec (digits_value ds + 1) ++ post))
  /\ (forall url,
         test re_page url = false ->
         findNextUrl U nl url
         = Some (url ++ (if includes (js "?") url
                         then js "&page=2" else js "?page=2")))
  /\ (forall url, findNextUrl_xpath U nl url = findNextUrl U nl url)
  /\ findNextUrl U nl (js "https://site/jobs?page=3")
     = Some (js "https://site/jobs?page=4")
  /\ findNextUrl U nl (js "https://site/jobs")
     = Some (js "https://site/jobs?page=2").
Proof.
  intros Hnl. repeat split.
  - intros. now apply findNextUrl_increment.
  - intros. now apply findNextUrl_append.
  - intros. now apply findNextUrl_xpath_same.
  - apply (findNextUrl_increment U nl (js "https://site/jobs") 63 (js "3") []);
      try assumption; try reflexivity; discriminate.
  - apply (findNextUrl_append U nl (js "https://site/jobs")); [assumption|].
    vm_compute. reflexivity.
Qed.

Lemma findNextUrl_fallback_witness :
  findNextUrl resolve_absolute no_next (js "https://site/jobs?q=dev&page=19")
  = Some (js "https://site/jobs?q=dev&page=20").
Proof.
  exact (proj1 (findNextUrl_fallback resolve_absolute no_next eq_refl)
               (js "https://site/jobs?q=dev") 38 (js "19") []
               eq_refl ltac:(discriminate) eq_refl eq_refl eq_refl eq_refl).
Defined.

(** ** Captures *)

Lemma cap_lookup_clear i gs cs :
  mem_nat i gs = false ->
  cap_lookup i (List.filter (fun e => negb (mem_nat (fst e) gs)) cs)
  = cap_lookup i cs.
Proof.
  intros Hi. induction cs as [|[j s] cs IH]; [reflexivity|].
  cbn [List.filter fst cap_lookup].
  destruct (mem_nat j gs) eqn:Hj; cbn [negb cap_lookup].
  - destruct (Nat.eqb_spec i j) as [->|]; [congruence | exact IH].
  - now rewrite IH.
Qed.

Lemma mem_nat_app i l1 l2 :
  mem_nat i (l1 ++ l2) = mem_nat i l1 || mem_nat i l2.
Proof. unfold mem_nat. apply existsb_app. Qed.

Lemma rep_loop_caps i body gs :
  mem_nat i gs = false ->
  (forall st x, In x (body st) -> cap_lookup i (caps x) = cap_lookup i (caps st)) ->
  forall fuel lo hi st x,
    In x (rep_loop body gs fuel lo hi st) ->
    cap_lookup i (caps x) = cap_lookup i (caps st).
Proof.
  intros Hi Hbody. induction fuel as [|fuel IH]; intros lo hi st x Hx.
  - cbn in Hx. destruct lo; [|destruct Hx]. destruct Hx as [<-|[]]. reflexivity.
  - cbn [rep_loop] in Hx. apply in_app_or in Hx as [Hx|Hx].
    + assert (Hmore : In x (flat_map
               (fun st' =>
                  if Nat.eqb lo 0
                     && Nat.eqb (length (ahead st')) (length (ahead st))
                  then []
                  else rep_loop body gs fuel (Nat.pred lo)
                                (option_map Nat.pred hi) st')
               (body (clear_caps gs st)))).
      { destruct hi as [[|h]|]; [destruct Hx | exact Hx | exact Hx]. }
      apply in_flat_map in Hmore as (y & Hy & Hxy).
      destruct (_ && _); [destruct Hxy|].
      apply IH in Hxy. rewrite Hxy. rewrite (Hbody _ _ Hy).
      destruct st as [sn ah cs]. cbn [clear_caps caps seen ahead].
      now apply cap_lookup_clear.
    + destruct lo; [|destruct Hx]. destruct Hx as [<-|[]]. reflexivity.
Qed.

(** A pattern leaves the captures of the groups it does not contain as
    they are. *)
Lemma rmatch_caps i r : forall st x,
  mem_nat i (groups r) = false ->
  In x (rmatch r st) -> cap_lookup i (caps x) = cap_lookup i (caps st).
Proof.
  induction r as [|p|r1 IH1 r2 IH2|r1 IH1 r2 IH2|lo hi r IH|j r IH| | |];
    intros st x Hi Hx; cbn [groups] in Hi.
  - destruct Hx as [<-|[]]. reflexivity.
  - cbn in Hx. destruct (ahead st) as [|c t]; [destruct Hx|].
    destruct (p c); [|destruct Hx]. destruct Hx as [<-|[]]. reflexivity.
  - rewrite mem_nat_app in Hi. apply orb_false_iff in Hi as [Hi1 Hi2].
    rewrite rmatch_seq in Hx. apply in_flat_map in Hx as (y & Hy & Hx).
    rewrite (IH2 _ _ Hi2 Hx). now apply IH1.
  - rewrite mem_nat_app in Hi. apply orb_false_iff in Hi as [Hi1 Hi2].
    cbn [rmatch] in Hx. apply in_app_or in Hx as [Hx|Hx]; auto.
  - cbn [rmatch] in Hx. eapply rep_loop_caps in Hx; eauto.
  - rewrite rmatch_grp in Hx. apply in_map_iff in Hx as (y & <- & Hy).
    cbn [mem_nat existsb] in Hi. apply orb_false_iff in Hi as [Hij Hi].
    cbn [set_cap caps cap_lookup]. rewrite Hij. now apply IH.
  - cbn in Hx. destruct (at_word_boundary st); [|destruct Hx].
    destruct Hx as [<-|[]]. reflexivity.
  - cbn in Hx. destruct (seen st); [|destruct Hx].
    destruct Hx as [<-|[]]. reflexivity.
  - cbn in Hx. destruct (ahead st); [|destruct Hx].
    destruct Hx as [<-|[]]. reflexivity.
Qed.

(** [p{n}] takes exactly [n] characters. *)
Lemma rep_exact p : forall fuel n st x,
  In x (rep_loop (rmatch (Chr p)) [] fuel n (Some n) st) ->
  exists w, ahead st = w ++ ahead x /\ length w = n.
Proof.
  induction fuel as [|fuel IH]; intros n st x Hx.
  - cbn in Hx. destruct n; [|destruct Hx]. destruct Hx as [<-|[]].
    now exists [].
  - cbn [rep_loop] in Hx. destruct n as [|n].
    + cbn in Hx. destruct Hx as [<-|[]]. now exists [].
    + rewrite app_nil_r in Hx. apply in_flat_map in Hx as (y & Hy & Hx).
      rewrite clear_caps_nil in Hy. cbn [Nat.eqb andb option_map Nat.pred] in Hx.
      destruct st as [sn ah cs]. destruct ah as [|c t]; [destruct Hy|].
      rewrite rmatch_chr in Hy. destruct (p c); [|destruct Hy].
      destruct Hy as [<-|[]]. apply IH in Hx as (w & Hw & Hl).
      cbn [ahead] in Hw |- *. exists (c :: w). cbn. now rewrite Hw, Hl.
Qed.

Lemma search_from_some r : forall ah sn m,
  search_from r sn ah = Some m -> exists sn' ah', match_here r sn' ah' = Some m.
Proof.
  induction ah as [|c ah IH]; intros sn m H; cbn [search_from] in H.
  - destruct (match_here r sn []) eqn:Hm; [|discriminate].
    injection H as <-. eauto.
  - destruct (match_here r sn (c :: ah)) eqn:Hm.
    + injection H as <-. eauto.
    + eauto.
Qed.

(** ** Salary line *)

(** Whenever the salary pattern matches, its first group holds three
    characters: the currency code before the first amount. *)
Lemma salary_code_captured line m :
  exec re_salary line = Some m ->
  exists c, group m 1 = Some c /\ length c = 3%nat.
Proof.
  intros H. apply search_from_some in H as (sn & ah & H).
  unfold match_here in H.
  destruct (rmatch re_salary (MState sn ah [])) as [|x l] eqn:Hx;
    [discriminate|].
  injection H as <-.
  assert (Hin : In x (rmatch re_salary (MState sn ah [])))
    by (rewrite Hx; now left).
  unfold re_salary in Hin. cbn [seqs] in Hin.
  rewrite rmatch_seq in Hin. apply in_flat_map in Hin as (y & Hy & Hin).
  cbn [rmatch] in Hy. destruct (at_word_boundary _); [|destruct Hy].
  destruct Hy as [<-|[]].
  rewrite rmatch_seq in Hin. apply in_flat_map in Hin as (y & Hy & Hin).
  apply rmatch_caps with (i := 1%nat) in Hin; [|reflexivity].
  unfold group, result_of. cbn [m_caps]. rewrite Hin.
  rewrite rmatch_grp in Hy. apply in_map_iff in Hy as (z & <- & Hz).
  unfold re_code in Hz. cbn [rmatch] in Hz.
  apply rep_exact in Hz as (w & Hw & Hl). cbn [ahead] in Hw.
  cbn [set_cap caps cap_lookup Nat.eqb ahead].
  exists w. split; [|assumption]. f_equal.
  rewrite Hw. apply take_minus_suffix.
Qed.

(** C8.  The salary line [NGN 150,000 - 250,000] is parsed into currency
    [NGN], minimum 150000 and maximum 250000 and rendered as
    [NGN 150,000 - NGN 250,000], alone or inside a card; the line
    [NGN 80,000] is parsed without a maximum and rendered as the single
    amount [NGN 80,000], with no range separator in it. *)
Theorem salary_line_examples :
  option_map parse_salary (exec re_salary (js "NGN 150,000 - 250,000"))
  = Some (SalaryRange (js "NGN") (Finite 150000) (Some (Finite 250000)))
  /\ salary_of_lines [js "NGN 150,000 - 250,000"]
     = js "NGN 150,000 - NGN 250,000"
  /\ s_salary_range
       (extractFromListingCard
          (Some (el "li" [el "span" [Text (js "NGN 150,000 - 250,000")]])))
     = js "NGN 150,000 - NGN 250,000"
  /\ option_map parse_salary (exec re_salary (js "NGN 80,000"))
     = Some (SalaryRange (js "NGN") (Finite 80000) None)
  /\ salary_of_lines [js "NGN 80,000"] = js "NGN 80,000"
  /\ includes (js " - ") (salary_of_lines [js "NGN 80,000"]) = false
  /\ includes (js "-") (salary_of_lines [js "NGN 80,000"]) = false.
Proof. repeat split; vm_compute; reflexivity. Qed.

(** An amount from [2^53] on is rendered as the double it is read as. *)
Example salary_large_amount :
  salary_of_lines [js "NGN 9007199254740993"]
  = js "NGN 9,007,199,254,740,992".
Proof. vm_compute. reflexivity. Qed.

(** The salary step on a line where both amounts are matched and the
    maximum is zero: the maximum is not rendered. *)
Lemma salary_zero_maximum_dropped :
  exists m,
    exec re_salary (js "NGN 50,000 - 0") = Some m
    /\ group m 2 = Some (js "50,000")
    /\ group m 4 = Some (js "0")
    /\ salary_of_lines [js "NGN 50,000 - 0"] = js "NGN 50,000"
    /\ salary_of_lines [js "NGN 50,000 - 0"] <> js "NGN 50,000 - NGN 0".
Proof.
  eexists. split; [vm_compute; reflexivity|].
  repeat split; try (vm_compute; reflexivity).
  vm_compute. discriminate.
Qed.

(** C10 (amended).  On the salary line of a card, the rendered range uses
    the three-letter code captured before the first amount and no other:
    when a second amount is matched and is not zero, both amounts are
    rendered with that code, whatever code stands before the second
    amount; when there is no second amount, or it is zero, the first
    amount alone is rendered with that code. *)
Theorem salary_single_currency (lines : list str) (salLine : str) (m : rresult) :
  List.find (test re_salary_line) lines = Some salLine ->
  exec re_salary salLine = Some m ->
  exists c,
    group m 1 = Some c /\ length c = 3%nat
    /\ currencyCode (parse_salary m) = c
    /\ salary_of_lines lines
       = match group m 4 with
         | Some m4 =>
             if number_truthy (amount_of m4)
             then c ++ space ++ toLocaleString (amount_of (default [] (group m 2)))
                    ++ js " - " ++ c ++ space ++ toLocaleString (amount_of m4)
             else c ++ space ++ toLocaleString (amount_of (default [] (group m 2)))
         | None =>
             c ++ space ++ toLocaleString (amount_of (default [] (group m 2)))
         end.
Proof.
  intros Hfind Hexec.
  destruct (salary_code_captured _ _ Hexec) as (c & Hc & Hl).
  assert (Hcode : currencyCode (parse_salary m) = c).
  { unfold parse_salary. cbn [currencyCode]. rewrite Hc. cbn [or_else].
    unfold or_str. destruct c; [discriminate|reflexivity]. }
  exists c. repeat split; try assumption.
  unfold salary_of_lines. rewrite Hfind, Hexec.
  unfold render_salary. rewrite Hcode.
  unfold parse_salary. cbn [maxAmount minAmount].
  destruct (group m 4) as [m4|]; [|reflexivity].
  destruct m4 as [|d m4]; [reflexivity|]. cbn [nonempty]. reflexivity.
Qed.

Lemma salary_single_currency_witness :
  exists c,
    c = js "NGN"
    /\ salary_of_lines [js "NGN 150,000 - USD 250,000"]
       = c ++ space ++ js "150,000" ++ js " - " ++ c ++ space ++ js "250,000".
Proof.
  destruct (salary_single_currency
              [js "NGN 150,000 - USD 250,000"]
              (js "NGN 150,000 - USD 250,000")
              (RResult [] (js "NGN 150,000 - USD 250,000") []
                 [(4%nat, js "250,000"); (3%nat, js "USD");
                  (2%nat, js "150,000"); (1%nat, js "NGN")])
              eq_refl eq_refl) as (c & Hc & _ & _ & Hs).
  exists c. split.
  - injection Hc as <-. reflexivity.
  - injection Hc as <-. exact Hs.
Defined.

(** ** The handlers and the shared state *)

Lemma core_eq_refl w : core_eq w w.
Proof. now repeat split. Qed.

Lemma core_eq_trans w1 w2 w3 : core_eq w1 w2 -> core_eq w2 w3 -> core_eq w1 w3.
Proof. unfold core_eq. intros (?&?&?) (?&?&?). repeat split; congruence. Qed.

Lemma list_tail_core cfg cx w :
  core_eq w (list_tail cfg cx w).1 /\ quiet (list_tail cfg cx w).2.
Proof.
  unfold list_tail.
  repeat match goal with
         | |- context [if ?b then _ else _] => destruct b
         | |- context [match c_next cx with _ => _ end] => destruct (c_next cx)
         end; cbn; repeat split.
Qed.

Lemma enqueue_loop_core cfg cx : forall rest w,
  core_eq w (enqueue_loop cfg rest cx w).1
  /\ quiet (enqueue_loop cfg rest cx w).2.
Proof.
  induction rest as [|u rest IH]; intros w; cbn [enqueue_loop].
  - destruct (0 <? c_batch cx)%Z.
    + destruct (list_tail_core cfg cx
                  (say (EnqueuedDetails (c_batch cx) (jobsEnqueued w)) w))
        as [Hc Hq].
      split; [|exact Hq]. eapply core_eq_trans; [|exact Hc]. now repeat split.
    + apply list_tail_core.
  - destruct (_ && _); [|apply IH]. cbn. repeat split.
Qed.

Lemma quota_core cfg w w' k :
  core_eq w w' -> quiet k -> quota_ok cfg w None -> quota_ok cfg w' k.
Proof.
  intros (Hs & Hd & _) Hq (H0 & _ & H1 & H2).
  assert (Hu : uncounted k = 0%Z)
    by (destruct k as [[]|]; try reflexivity; destruct Hq).
  unfold quota_ok. rewrite Hu, Hs, Hd. cbn [uncounted] in *. repeat split; lia.
Qed.

Lemma slice0_bound {A} (e : Z) (l : list A) :
  (0 <= e)%Z -> (zlen (slice0 e l) <= e)%Z.
Proof.
  intros He. unfold slice0, zlen.
  destruct (Z.ltb_spec e 0); [lia|]. rewrite length_take. lia.
Qed.

Lemma zlen_app {A} (l1 l2 : list A) : zlen (l1 ++ l2) = (zlen l1 + zlen l2)%Z.
Proof. unfold zlen. rewrite length_app. lia. Qed.

Lemma zlen_nonneg {A} (l : list A) : (0 <= zlen l)%Z.
Proof. unfold zlen. lia. Qed.

(** A handler started from a state within quota stays within quota up to
    its first [await]. *)
Lemma start_quota U P cfg rq pg w :
  quota_ok cfg w None ->
  quota_ok cfg (start U P cfg rq pg w).1 (start U P cfg rq pg w).2.
Proof.
  intros Hq. pose proof Hq as (H0 & _ & H1 & H2). cbn [uncounted] in H1, H2.
  unfold start. destruct (is_detail rq).
  - destruct (Z.leb_spec (RESULTS_WANTED cfg) (jobsScraped w)).
    { cbn [fst snd]. eapply quota_core; eauto; now repeat split. }
    destruct (bool_decide _).
    { cbn [fst snd]. eapply quota_core; eauto; now repeat split. }
    destruct (negb _).
    { cbn [fst snd]. eapply quota_core; eauto; now repeat split. }
    cbn [fst snd]. unfold quota_ok.
    cbn [uncounted pushData jobsScraped dataset]. rewrite zlen_app.
    unfold zlen in *. cbn [length]. repeat split; lia.
  - set (w1 := match collectJobLinks U (as_list pg) (url rq) with
               | [] => _ | _ => _ end).
    assert (Hw1 : core_eq w w1).
    { subst w1. destruct (collectJobLinks _ _ _); now repeat split. }
    assert (Hq1 : quota_ok cfg w1 None)
      by (eapply quota_core; eauto; exact I).
    pose proof Hw1 as (Hs1 & Hd1 & _).
    destruct (negb (collectDetails cfg)).
    + destruct (slice0 _ _) as [|u0 toPush] eqn:Hsl.
      * destruct (list_tail_core cfg
                    (ListCtx (pageNo rq)
                       (zlen (collectJobLinks U (as_list pg) (url rq))) 0
                       (seedsByUrl U (as_list pg) (url rq))
                       (findNextUrl U (next_links (as_list pg)) (url rq))) w1)
          as [Hc Hk].
        eapply quota_core; eauto.
      * cbn [fst snd]. unfold quota_ok.
        cbn [uncounted pushData jobsScraped dataset]. rewrite zlen_app.
        assert (Hn : (zlen (List.map
                              (fun u => ListItem u
                                 (seedsByUrl U (as_list pg) (url rq) !! u))
                              (u0 :: toPush))
                      <= RESULTS_WANTED cfg - jobsScraped w1)%Z).
        { unfold zlen. rewrite length_map. fold (zlen (u0 :: toPush)).
          rewrite <- Hsl. apply slice0_bound. lia. }
        pose proof (zlen_nonneg
                      (List.map (fun u => ListItem u
                                   (seedsByUrl U (as_list pg) (url rq) !! u))
                                (u0 :: toPush))).
        rewrite Hd1, Hs1 in *. repeat split; lia.
    + destruct (enqueue_loop_core cfg
                  (ListCtx (pageNo rq)
                     (zlen (collectJobLinks U (as_list pg) (url rq)))
                     (zlen (slice0 (RESULTS_WANTED cfg - jobsEnqueued w1)
                                   (collectJobLinks U (as_list pg) (url rq))))
                     (seedsByUrl U (as_list pg) (url rq))
                     (findNextUrl U (next_links (as_list pg)) (url rq)))
                  (slice0 (RESULTS_WANTED cfg - jobsEnqueued w1)
                          (collectJobLinks U (as_list pg) (url rq))) w1)
        as [Hc Hk].
      eapply quota_core; eauto.
Qed.

(** A suspended handler that goes on from a state within quota stays
    within quota. *)
Lemma resume_quota cfg k w :
  quota_ok cfg w (Some k) ->
  quota_ok cfg (resume cfg k w).1 (resume cfg k w).2.
Proof.
  intros (H0 & Hu & H1 & H2). destruct k as [n cx|rest cx| |u t];
    cbn [uncounted] in *; cbn [resume].
  - destruct (list_tail_core cfg cx
                (say (PushedFromList n
                        (jobsScraped (set_scraped (jobsScraped w + n) w)))
                     (set_scraped (jobsScraped w + n) w))) as [Hc Hk].
    eapply quota_core; [exact Hc | exact Hk |].
    unfold quota_ok. cbn. repeat split; lia.
  - destruct (enqueue_loop_core cfg cx rest
                (set_enqueued (jobsEnqueued w + 1) w)) as [Hc Hk].
    eapply quota_core; [exact Hc | exact Hk |].
    unfold quota_ok. cbn. repeat split; lia.
  - cbn. unfold quota_ok. cbn. repeat split; lia.
  - cbn. unfold quota_ok. cbn. repeat split; lia.
Qed.

Lemma take_request_quota cfg q1 q2 w k :
  quota_ok cfg w k -> quota_ok cfg (take_request q1 q2 w) k.
Proof. intros H. exact H. Qed.

Lemma step_quota U P cfg c c' :
  crawl_quota cfg c -> step U P cfg 1 c c' -> crawl_quota cfg c'.
Proof.
  intros Hc Hs. destruct Hs as [c rq pg q1 q2 Hq Hlen | c k r1 r2 Hfl];
    [unfold started | unfold resumed].
  - unfold crawl_quota in Hc.
    destruct (in_flight c) as [|k0 fl] eqn:Hfl; [|cbn in Hlen; lia].
    pose proof (start_quota U P cfg rq pg (take_request q1 q2 (shared c))
                  (take_request_quota _ _ _ _ _ Hc)) as Hst.
    destruct (start U P cfg rq pg (take_request q1 q2 (shared c))) as [w' k].
    unfold crawl_quota. cbn [in_flight shared fst snd] in *.
    destruct k; exact Hst.
  - unfold crawl_quota in Hc. rewrite Hfl in Hc.
    destruct r1 as [|k1 r1]; cbn [app] in Hc.
    + destruct r2 as [|k2 r2]; [|destruct Hc].
      pose proof (resume_quota cfg k (shared c) Hc) as Hr.
      destruct (resume cfg k (shared c)) as [w' k'].
      unfold crawl_quota. cbn [in_flight shared fst snd app] in *.
      rewrite app_nil_r. destruct k'; exact Hr.
    + destruct r1; destruct Hc.
Qed.

Lemma initial_quota cfg urls :
  (1 <= RESULTS_WANTED cfg)%Z -> crawl_quota cfg (initial urls).
Proof. intros H. unfold crawl_quota, quota_ok. cbn. repeat split; lia. Qed.

Lemma reachable_quota U P cfg urls c :
  (1 <= RESULTS_WANTED cfg)%Z -> reachable U P cfg 1 urls c -> crawl_quota cfg c.
Proof.
  intros HN Hr. induction Hr as [|c c' _ IH Hs].
  - now apply initial_quota.
  - eapply step_quota; eauto.
Qed.

(** In a crawl whose handlers run one at a time, the produced count and
    the number of records handed to the dataset never exceed
    [RESULTS_WANTED], in every reachable state, between handlers and
    inside one. *)
Theorem quota_bound_one_at_a_time (U : str -> str -> option str)
    (P : str -> list node)
    (cfg : config) (initialUrls : list str) (c : crawl) :
  (1 <= RESULTS_WANTED cfg)%Z ->
  reachable U P cfg 1 initialUrls c ->
  (jobsScraped (shared c) <= RESULTS_WANTED cfg)%Z
  /\ (zlen (dataset (shared c)) <= RESULTS_WANTED cfg)%Z.
Proof.
  intros HN Hr.
  pose proof (reachable_quota U P cfg initialUrls c HN Hr) as Hq.
  unfold crawl_quota in Hq.
  destruct (in_flight c) as [|k [|k' fl]]; [| |destruct Hq];
    destruct Hq as (H0 & Hu & H1 & H2); lia.
Qed.

Lemma pick_spec {A} : forall i (l a b : list A) x,
  pick i l = Some (a, x, b) -> l = a ++ x :: b.
Proof.
  induction i as [|i IH]; intros [|y l] a b x H; cbn in H; try discriminate.
  - injection H as <- <- <-. reflexivity.
  - destruct (pick i l) as [[[a' x'] b']|] eqn:Hp; [|discriminate].
    injection H as <- <- <-. cbn. f_equal. now apply IH.
Qed.

Lemma play1_step U P cfg n m c c' :
  play1 U P cfg n m c = Some c' -> step U P cfg n c c'.
Proof.
  destruct m as [i pg|i]; cbn [play1]; intros H.
  - destruct (Nat.ltb_spec (length (in_flight c)) n); [|discriminate].
    destruct (pick i (queue (shared c))) as [[[q1 rq] q2]|] eqn:Hp;
      [|discriminate].
    injection H as <-. apply step_start; [now apply pick_spec in Hp | assumption].
  - destruct (pick i (in_flight c)) as [[[r1 k] r2]|] eqn:Hp; [|discriminate].
    injection H as <-. apply step_resume. now apply pick_spec in Hp.
Qed.

(** Every schedule the engine can play leads to a reachable state. *)
Lemma play_reachable U P cfg n urls ms : forall c c',
  reachable U P cfg n urls c -> play U P cfg n ms c = Some c' ->
  reachable U P cfg n urls c'.
Proof.
  induction ms as [|m ms IH]; intros c c' Hr H; cbn [play] in H.
  - now injection H as <-.
  - destruct (play1 U P cfg n m c) as [c1|] eqn:H1; [|discriminate].
    eapply IH; [|exact H]. eapply reach_step; [exact Hr|].
    eapply play1_step. exact H1.
Qed.

(** C3 (the code at the claim's input).  With two start URLs and handlers
    that interleave at their [await]s, a crawl configured for one record
    produces two: each handler tests the counter, waits for the queue or
    the dataset, and raises the counter only afterwards. *)
Theorem quota_exceeded_when_interleaved :
  exists c,
    reachable resolve_absolute parse_text one_wanted 20 [start_dev; start_ops] c
    /\ RESULTS_WANTED one_wanted = 1%Z
    /\ jobsScraped (shared c) = 2%Z
    /\ length (dataset (shared c)) = 2%nat.
Proof.
  assert (H : exists c,
             play resolve_absolute parse_text one_wanted 20 racing_schedule
                  (initial [start_dev; start_ops]) = Some c
             /\ jobsScraped (shared c) = 2%Z
             /\ length (dataset (shared c)) = 2%nat).
  { vm_compute. eexists. repeat split. }
  destruct H as (c & Hp & Hs & Hd). exists c. repeat split; try assumption.
  eapply play_reachable; [apply reach_initial | exact Hp].
Qed.

Lemma quota_bound_one_at_a_time_witness :
  match play resolve_absolute parse_text one_wanted 1 orderly_schedule
             (initial [start_dev; start_ops]) with
  | Some c =>
      (jobsScraped (shared c) <= RESULTS_WANTED one_wanted)%Z
      /\ (zlen (dataset (shared c)) <= RESULTS_WANTED one_wanted)%Z
  | None => False
  end.
Proof.
  destruct (play resolve_absolute parse_text one_wanted 1 orderly_schedule
                 (initial [start_dev; start_ops])) as [c|] eqn:E.
  - apply (quota_bound_one_at_a_time resolve_absolute parse_text one_wanted
             [start_dev; start_ops] c).
    + vm_compute. discriminate.
    + eapply play_reachable; [apply reach_initial | exact E].
  - vm_compute in E. discriminate.
Defined.

(** ** Title gate *)

Lemma resume_dataset cfg k w : dataset (resume cfg k w).1 = dataset w.
Proof.
  destruct k as [n cx|rest cx| |u t]; cbn [resume].
  - destruct (list_tail_core cfg cx
                (say (PushedFromList n
                        (jobsScraped (set_scraped (jobsScraped w + n) w)))
                     (set_scraped (jobsScraped w + n) w)))
      as [(_ & Hd & _) _].
    exact Hd.
  - destruct (enqueue_loop_core cfg cx rest
                (set_enqueued (jobsEnqueued w + 1) w)) as [(_ & Hd & _) _].
    exact Hd.
  - reflexivity.
  - reflexivity.
Qed.

(** What a handler hands to the dataset before its first [await]. *)
Lemma start_dataset U P cfg rq pg w :
  exists new,
    dataset (start U P cfg rq pg w).1 = dataset w ++ new
    /\ Forall titled new
    /\ (is_detail rq = true ->
        cleanText (title (r_fields (extractFromDetail U P rq (as_detail pg)))) = [] ->
        new = [] /\ (start U P cfg rq pg w).2 = None).
Proof.
  unfold start. destruct (is_detail rq) eqn:Hd.
  - destruct (RESULTS_WANTED cfg <=? jobsScraped w)%Z.
    { exists []. cbn. rewrite app_nil_r. repeat split; auto. }
    destruct (bool_decide _).
    { exists []. cbn. rewrite app_nil_r. repeat split; auto. }
    destruct (nonempty (cleanText _)) eqn:Ht; cbn [negb].
    + eexists. cbn [fst snd pushData dataset]. split; [reflexivity|].
      split; [repeat constructor; exact Ht|].
      intros _ E. rewrite E in Ht. discriminate.
    + exists []. cbn. rewrite app_nil_r. repeat split; auto.
  - set (w1 := match collectJobLinks U (as_list pg) (url rq) with
               | [] => _ | _ => _ end).
    assert (Hw1 : dataset w1 = dataset w)
      by (subst w1; now destruct (collectJobLinks _ _ _)).
    destruct (negb (collectDetails cfg)).
    + destruct (slice0 _ _) as [|u0 toPush] eqn:Hsl.
      * exists []. rewrite app_nil_r. split; [|split; [constructor|discriminate]].
        destruct (list_tail_core cfg
                    (ListCtx (pageNo rq)
                       (zlen (collectJobLinks U (as_list pg) (url rq))) 0
                       (seedsByUrl U (as_list pg) (url rq))
                       (findNextUrl U (next_links (as_list pg)) (url rq))) w1)
          as [(_ & Hdd & _) _].
        now rewrite Hdd.
      * eexists. cbn [fst snd pushData dataset]. rewrite Hw1.
        split; [reflexivity|]. split; [|discriminate].
        apply Forall_forall. intros i Hi. apply list_elem_of_In in Hi.
        apply in_map_iff in Hi as (u & <- & _). exact I.
    + exists []. rewrite app_nil_r. split; [|split; [constructor|discriminate]].
      destruct (enqueue_loop_core cfg
                  (ListCtx (pageNo rq)
                     (zlen (collectJobLinks U (as_list pg) (url rq)))
                     (zlen (slice0 (RESULTS_WANTED cfg - jobsEnqueued w1)
                                   (collectJobLinks U (as_list pg) (url rq))))
                     (seedsByUrl U (as_list pg) (url rq))
                     (findNextUrl U (next_links (as_list pg)) (url rq)))
                  (slice0 (RESULTS_WANTED cfg - jobsEnqueued w1)
                          (collectJobLinks U (as_list pg) (url rq))) w1)
        as [(_ & Hdd & _) _].
      now rewrite Hdd.
Qed.

Lemma step_titled U P cfg n c c' :
  step U P cfg n c c' ->
  Forall titled (dataset (shared c)) -> Forall titled (dataset (shared c')).
Proof.
  intros Hs Hc. destruct Hs as [c rq pg q1 q2 Hq Hlen | c k r1 r2 Hfl].
  - unfold started.
    destruct (start_dataset U P cfg rq pg (take_request q1 q2 (shared c)))
      as (new & Hd & Hn & _).
    destruct (start U P cfg rq pg (take_request q1 q2 (shared c))) as [w' k].
    cbn [shared fst] in *. rewrite Hd. apply Forall_app. split; assumption.
  - unfold resumed. pose proof (resume_dataset cfg k (shared c)) as Hd.
    destruct (resume cfg k (shared c)) as [w' k'].
    cbn [shared fst] in *. now rewrite Hd.
Qed.

Lemma reachable_titled U P cfg n urls c :
  reachable U P cfg n urls c -> Forall titled (dataset (shared c)).
Proof.
  intros Hr. induction Hr as [|c c' _ IH Hs]; [constructor|].
  eapply step_titled; eauto.
Qed.

Lemma start_untitled U P cfg rq pg w :
  is_detail rq = true ->
  cleanText (title (r_fields (extractFromDetail U P rq (as_detail pg)))) = [] ->
  start U P cfg rq pg w
  = (say (if (RESULTS_WANTED cfg <=? jobsScraped w)%Z then SkippingLimitMet
          else if bool_decide (url rq ∈ scrapedUrls w)
               then SkippingDuplicate (url rq)
               else SkippingNoTitle (url rq)) w, None).
Proof.
  intros Hd Ht. unfold start. rewrite Hd, Ht.
  destruct (_ <=? _)%Z; [reflexivity|]. destruct (bool_decide _); reflexivity.
Qed.

(** C5.  When the record merged for a detail page has a title that is
    empty after normalisation, the handler ends without a record: nothing
    is handed to the dataset, the counters, the visited set and the
    request queue stay as they were, the handler is not left waiting, and,
    when the page got as far as the gate, the warning "no title" is
    logged.  In every reachable state of a crawl, with any number of
    handlers in flight, every detail record in the dataset has a title
    that is not empty after normalisation. *)
Theorem title_gate (U : str -> str -> option str)
    (P : str -> list node) (cfg : config)
    (rq : request) (pg : page) (w : crawlState) :
  is_detail rq = true ->
  cleanText (title (r_fields (extractFromDetail U P rq (as_detail pg)))) = [] ->
  (start U P cfg rq pg w).2 = None
  /\ handle U P cfg rq pg w = (start U P cfg rq pg w).1
  /\ dataset (handle U P cfg rq pg w) = dataset w
  /\ jobsScraped (handle U P cfg rq pg w) = jobsScraped w
  /\ jobsEnqueued (handle U P cfg rq pg w) = jobsEnqueued w
  /\ scrapedUrls (handle U P cfg rq pg w) = scrapedUrls w
  /\ queue (handle U P cfg rq pg w) = queue w
  /\ ((jobsScraped w < RESULTS_WANTED cfg)%Z -> url rq ∉ scrapedUrls w ->
      log (handle U P cfg rq pg w) = log w ++ [SkippingNoTitle (url rq)]
      /\ level_of (SkippingNoTitle (url rq)) = Warning)
  /\ (forall n urls c r,
         reachable U P cfg n urls c ->
         In (DetailItem r) (dataset (shared c)) ->
         cleanText (title (r_fields r)) <> []).
Proof.
  intros Hd Ht. unfold handle. rewrite (start_untitled U P cfg rq pg w Hd Ht).
  cbn [fst snd awaits drive]. repeat split.
  - destruct (Z.leb_spec (RESULTS_WANTED cfg) (jobsScraped w)); [lia|].
    rewrite bool_decide_eq_false_2 by assumption. reflexivity.
  - intros n urls c r Hr Hin E.
    pose proof (reachable_titled U P cfg n urls c Hr) as Hall.
    rewrite Forall_forall in Hall.
    specialize (Hall (DetailItem r)). cbn [titled] in Hall.
    rewrite E in Hall. apply list_elem_of_In in Hin.
    specialize (Hall Hin). discriminate.
Qed.

Lemma title_gate_witness :
  (start resolve_absolute parse_text one_wanted
         (detail_request "https://www.jobberman.com/listings/dev-1")
         untitled_page fresh).2 = None
  /\ dataset (handle resolve_absolute parse_text one_wanted
                     (detail_request "https://www.jobberman.com/listings/dev-1")
                     untitled_page fresh) = []
  /\ log (handle resolve_absolute parse_text one_wanted
                 (detail_request "https://www.jobberman.com/listings/dev-1")
                 untitled_page fresh)
     = [SkippingNoTitle (js "https://www.jobberman.com/listings/dev-1")].
Proof.
  pose proof (title_gate resolve_absolute parse_text one_wanted
                (detail_request "https://www.jobberman.com/listings/dev-1")
                untitled_page fresh eq_refl eq_refl)
    as (H1 & _ & H2 & _ & _ & _ & _ & H3 & _).
  split; [exact H1|]. split; [exact H2|].
  apply H3.
  - vm_compute. reflexivity.
  - apply not_elem_of_empty.
Defined.

(** ** De-duplication *)

Lemma list_tail_awaits cfg cx w : (awaits (list_tail cfg cx w).2 <= 1)%nat.
Proof.
  unfold list_tail.
  repeat match goal with
         | |- context [if ?b then _ else _] => destruct b
         | |- context [match c_next cx with _ => _ end] => destruct (c_next cx)
         end; cbn; lia.
Qed.

Lemma enqueue_loop_awaits cfg cx : forall rest w,
  (awaits (enqueue_loop cfg rest cx w).2 <= length rest + 1)%nat.
Proof.
  induction rest as [|u rest IH]; intros w; cbn [enqueue_loop length].
  - destruct (0 <? c_batch cx)%Z; apply list_tail_awaits.
  - destruct (_ && _); [cbn; lia|]. specialize (IH w). lia.
Qed.

Lemma resume_awaits cfg k w :
  (awaits (resume cfg k w).2 < awaits (Some k))%nat.
Proof.
  destruct k as [n cx|rest cx| |u t]; cbn [resume awaits].
  - pose proof (list_tail_awaits cfg cx
                  (say (PushedFromList n
                          (jobsScraped (set_scraped (jobsScraped w + n) w)))
                       (set_scraped (jobsScraped w + n) w))). lia.
  - pose proof (enqueue_loop_awaits cfg cx rest
                  (set_enqueued (jobsEnqueued w + 1) w)). lia.
  - cbn. lia.
  - cbn. lia.
Qed.

(** A handler that is let run reaches its end. *)
Lemma drive_finishes cfg : forall fuel k w,
  (awaits k <= fuel)%nat -> (drive cfg fuel k w).2 = None.
Proof.
  induction fuel as [|fuel IH]; intros k w Hf.
  - destruct k as [k|]; [destruct k; cbn in Hf; lia | reflexivity].
  - destruct k as [k|]; [|reflexivity]. cbn [drive].
    pose proof (resume_awaits cfg k w) as Hlt.
    destruct (resume cfg k w) as [w' k']. cbn [snd] in Hlt.
    apply IH. lia.
Qed.

Lemma start_scraped U P cfg rq pg w :
  scrapedUrls (start U P cfg rq pg w).1 = scrapedUrls w.
Proof.
  unfold start. destruct (is_detail rq).
  - destruct (_ <=? _)%Z; [reflexivity|]. destruct (bool_decide _);
      [reflexivity|]. destruct (negb _); reflexivity.
  - set (w1 := match collectJobLinks U (as_list pg) (url rq) with
               | [] => _ | _ => _ end).
    assert (Hw1 : scrapedUrls w1 = scrapedUrls w)
      by (subst w1; now destruct (collectJobLinks _ _ _)).
    destruct (negb (collectDetails cfg)).
    + destruct (slice0 _ _) as [|u0 toPush]; [|exact Hw1].
      destruct (list_tail_core cfg
                  (ListCtx (pageNo rq)
                     (zlen (collectJobLinks U (as_list pg) (url rq))) 0
                     (seedsByUrl U (as_list pg) (url rq))
                     (findNextUrl U (next_links (as_list pg)) (url rq))) w1)
        as [(_ & _ & Hs) _].
      now rewrite Hs.
    + destruct (enqueue_loop_core cfg
                  (ListCtx (pageNo rq)
                     (zlen (collectJobLinks U (as_list pg) (url rq)))
                     (zlen (slice0 (RESULTS_WANTED cfg - jobsEnqueued w1)
                                   (collectJobLinks U (as_list pg) (url rq))))
                     (seedsByUrl U (as_list pg) (url rq))
                     (findNextUrl U (next_links (as_list pg)) (url rq)))
                  (slice0 (RESULTS_WANTED cfg - jobsEnqueued w1)
                          (collectJobLinks U (as_list pg) (url rq))) w1)
        as [(_ & _ & Hs) _].
      now rewrite Hs.
Qed.

Lemma resume_scraped cfg k w :
  scrapedUrls w ⊆ scrapedUrls (resume cfg k w).1.
Proof.
  destruct k as [n cx|rest cx| |u t]; cbn [resume].
  - destruct (list_tail_core cfg cx
                (say (PushedFromList n
                        (jobsScraped (set_scraped (jobsScraped w + n) w)))
                     (set_scraped (jobsScraped w + n) w)))
      as [(_ & _ & Hs) _].
    now rewrite Hs.
  - destruct (enqueue_loop_core cfg cx rest
                (set_enqueued (jobsEnqueued w + 1) w)) as [(_ & _ & Hs) _].
    now rewrite Hs.
  - reflexivity.
  - cbn. set_solver.
Qed.

Lemma drive_scraped cfg : forall fuel k w,
  scrapedUrls w ⊆ scrapedUrls (drive cfg fuel k w).1.
Proof.
  induction fuel as [|fuel IH]; intros k w.
  - destruct k; reflexivity.
  - destruct k as [k|]; [|reflexivity]. cbn [drive].
    pose proof (resume_scraped cfg k w) as Hr.
    destruct (resume cfg k w) as [w' k']. cbn [fst] in Hr.
    etransitivity; [exact Hr | apply IH].
Qed.

(** The visited set is append-only: no handler, run to its end or up to
    an [await], removes a URL from it. *)
Lemma handle_scraped U P cfg rq pg w :
  scrapedUrls w ⊆ scrapedUrls (handle U P cfg rq pg w).
Proof.
  unfold handle. pose proof (start_scraped U P cfg rq pg w) as Hs.
  destruct (start U P cfg rq pg w) as [w' k]. cbn [fst] in Hs.
  rewrite <- Hs. apply drive_scraped.
Qed.

Lemma step_scraped U P cfg n c c' :
  step U P cfg n c c' -> scrapedUrls (shared c) ⊆ scrapedUrls (shared c').
Proof.
  intros Hs. destruct Hs as [c rq pg q1 q2 Hq Hlen | c k r1 r2 Hfl].
  - unfold started.
    pose proof (start_scraped U P cfg rq pg (take_request q1 q2 (shared c))) as H.
    destruct (start U P cfg rq pg (take_request q1 q2 (shared c))) as [w' k].
    cbn [shared fst] in *. now rewrite H.
  - unfold resumed. pose proof (resume_scraped cfg k (shared c)) as H.
    destruct (resume cfg k (shared c)) as [w' k']. exact H.
Qed.

(** A detail page that passes the quota check, the visited check and the
    title gate: what the handler leaves when it has run to its end. *)
Lemma handle_detail_emits U P cfg rq pg w :
  is_detail rq = true ->
  (jobsScraped w < RESULTS_WANTED cfg)%Z ->
  url rq ∉ scrapedUrls w ->
  nonempty (cleanText (title (r_fields (extractFromDetail U P rq (as_detail pg)))))
  = true ->
  handle U P cfg rq pg w
  = say (Saved (title (r_fields (extractFromDetail U P rq (as_detail pg))))
               (jobsScraped w + 1))
        (add_url (url rq)
           (set_scraped (jobsScraped w + 1)
              (pushData [DetailItem (extractFromDetail U P rq (as_detail pg))] w))).
Proof.
  intros Hd Hlt Hnew Ht. unfold handle, start. rewrite Hd.
  destruct (Z.leb_spec (RESULTS_WANTED cfg) (jobsScraped w)); [lia|].
  rewrite bool_decide_eq_false_2 by assumption. rewrite Ht. reflexivity.
Qed.

(** A detail URL that is in the visited set already: the handler leaves
    a log line and nothing else. *)
Lemma handle_detail_revisit U P cfg rq pg w :
  is_detail rq = true -> url rq ∈ scrapedUrls w ->
  handle U P cfg rq pg w
  = say (if (RESULTS_WANTED cfg <=? jobsScraped w)%Z then SkippingLimitMet
         else SkippingDuplicate (url rq)) w.
Proof.
  intros Hd Hin. unfold handle, start. rewrite Hd.
  destruct (_ <=? _)%Z; [reflexivity|].
  rewrite bool_decide_eq_true_2 by assumption. reflexivity.
Qed.

Lemma count_url_app u ds new :
  count_url u (ds ++ new) = (count_url u ds + count_url u new)%nat.
Proof. unfold count_url. now rewrite List.filter_app, length_app. Qed.

Lemma dedup_core w w' k :
  core_eq w w' -> quiet k -> dedup_ok w None -> dedup_ok w' k.
Proof.
  intros (_ & Hd & Hs) Hq (Hc & _ & _).
  assert (Hp : forall u, is_pending k u = false)
    by (intros u; destruct k as [[]|]; try reflexivity; destruct Hq).
  repeat split.
  - intros u. rewrite Hd, Hs, Hp. apply Hc.
  - intros u Hu. rewrite Hp in Hu. discriminate.
  - intros n cx ->. destruct Hq.
Qed.

Lemma start_dedup U P cfg rq pg w :
  collectDetails cfg = true ->
  dedup_ok w None ->
  dedup_ok (start U P cfg rq pg w).1 (start U P cfg rq pg w).2.
Proof.
  intros Hcd Hok. pose proof Hok as (Hc & _ & _).
  unfold start. destruct (is_detail rq).
  - destruct (_ <=? _)%Z.
    { cbn [fst snd]. eapply dedup_core; eauto; now repeat split. }
    destruct (bool_decide (url rq ∈ scrapedUrls w)) eqn:Hin.
    { cbn [fst snd]. eapply dedup_core; eauto; now repeat split. }
    apply bool_decide_eq_false in Hin.
    destruct (negb _).
    { cbn [fst snd]. eapply dedup_core; eauto; now repeat split. }
    cbn [fst snd]. repeat split.
    + intros u. cbn [pushData dataset scrapedUrls is_pending].
      rewrite count_url_app, Hc. cbn [is_pending orb].
      unfold count_url. cbn [List.filter item_url r_url extractFromDetail].
      unfold str_eqb. rewrite orb_false_r.
      repeat case_bool_decide; subst; cbn; try reflexivity; contradiction.
    + intros u Hu. cbn [is_pending] in Hu. unfold str_eqb in Hu.
      apply bool_decide_eq_true in Hu. now subst u.
    + intros n cx E. discriminate.
  - set (w1 := match collectJobLinks U (as_list pg) (url rq) with
               | [] => _ | _ => _ end).
    assert (Hw1 : core_eq w w1).
    { subst w1. destruct (collectJobLinks _ _ _); now repeat split. }
    rewrite Hcd. cbn [negb].
    destruct (enqueue_loop_core cfg
                (ListCtx (pageNo rq)
                   (zlen (collectJobLinks U (as_list pg) (url rq)))
                   (zlen (slice0 (RESULTS_WANTED cfg - jobsEnqueued w1)
                                 (collectJobLinks U (as_list pg) (url rq))))
                   (seedsByUrl U (as_list pg) (url rq))
                   (findNextUrl U (next_links (as_list pg)) (url rq)))
                (slice0 (RESULTS_WANTED cfg - jobsEnqueued w1)
                        (collectJobLinks U (as_list pg) (url rq))) w1)
      as [Hce Hk].
    eapply dedup_core; [|exact Hk|exact Hok].
    eapply core_eq_trans; eauto.
Qed.

Lemma resume_dedup cfg k w :
  dedup_ok w (Some k) -> dedup_ok (resume cfg k w).1 (resume cfg k w).2.
Proof.
  intros (Hc & Hp & Hl). destruct k as [n cx|rest cx| |u t]; cbn [resume].
  - exfalso. now apply (Hl n cx).
  - destruct (enqueue_loop_core cfg cx rest
                (set_enqueued (jobsEnqueued w + 1) w)) as [Hce Hk].
    eapply dedup_core; [exact Hce | exact Hk |].
    repeat split; try discriminate. intros u. apply Hc.
  - cbn [fst snd]. repeat split; try discriminate. intros u. apply Hc.
  - cbn [fst snd]. repeat split; try discriminate.
    intros u'. cbn [say add_url set_scraped dataset scrapedUrls is_pending].
    rewrite Hc. cbn [is_pending]. unfold str_eqb. rewrite orb_false_r.
    destruct (decide (u = u')) as [Heq|Hne]; [subst u'|].
    + rewrite (bool_decide_eq_true_2 (u = u)) by reflexivity.
      rewrite orb_true_r. rewrite bool_decide_eq_true_2 by set_solver.
      reflexivity.
    + rewrite (bool_decide_eq_false_2 (u = u')) by assumption.
      rewrite orb_false_r.
      destruct (decide (u' ∈ scrapedUrls w)).
      * rewrite (bool_decide_eq_true_2 (u' ∈ scrapedUrls w)) by assumption.
        rewrite bool_decide_eq_true_2 by set_solver. reflexivity.
      * rewrite (bool_decide_eq_false_2 (u' ∈ scrapedUrls w)) by assumption.
        rewrite bool_decide_eq_false_2; [reflexivity|].
        intros [E|E]%elem_of_union;
          [apply elem_of_singleton in E; congruence | contradiction].
Qed.

Lemma step_dedup U P cfg c c' :
  collectDetails cfg = true ->
  crawl_dedup c -> step U P cfg 1 c c' -> crawl_dedup c'.
Proof.
  intros Hcd Hc Hs. destruct Hs as [c rq pg q1 q2 Hq Hlen | c k r1 r2 Hfl];
    [unfold started | unfold resumed].
  - unfold crawl_dedup in Hc.
    destruct (in_flight c) as [|k0 fl] eqn:Hfl; [|cbn in Hlen; lia].
    pose proof (start_dedup U P cfg rq pg (take_request q1 q2 (shared c)) Hcd Hc)
      as Hst.
    destruct (start U P cfg rq pg (take_request q1 q2 (shared c))) as [w' k].
    unfold crawl_dedup. cbn [in_flight shared fst snd] in *.
    destruct k; exact Hst.
  - unfold crawl_dedup in Hc. rewrite Hfl in Hc.
    destruct r1 as [|k1 r1]; cbn [app] in Hc.
    + destruct r2 as [|k2 r2]; [|destruct Hc].
      pose proof (resume_dedup cfg k (shared c) Hc) as Hr.
      destruct (resume cfg k (shared c)) as [w' k'].
      unfold crawl_dedup. cbn [in_flight shared fst snd app] in *.
      rewrite app_nil_r. destruct k'; exact Hr.
    + destruct r1; destruct Hc.
Qed.

Lemma reachable_dedup U P cfg urls c :
  collectDetails cfg = true -> reachable U P cfg 1 urls c -> crawl_dedup c.
Proof.
  intros Hcd Hr. induction Hr as [|c c' _ IH Hs].
  - unfold crawl_dedup, dedup_ok. cbn. repeat split; try discriminate.
  - eapply step_dedup; eauto.
Qed.

(** In a crawl that collects details with one handler at a time, no URL
    has more than one record, and between handlers a URL has a record
    exactly when it is in the visited set. *)
Lemma one_record_per_url U P cfg urls c u :
  collectDetails cfg = true -> reachable U P cfg 1 urls c ->
  (count_url u (dataset (shared c)) <= 1)%nat
  /\ (in_flight c = [] ->
      (count_url u (dataset (shared c)) = 1%nat <-> u ∈ scrapedUrls (shared c))).
Proof.
  intros Hcd Hr. pose proof (reachable_dedup U P cfg urls c Hcd Hr) as Hd.
  unfold crawl_dedup in Hd.
  destruct (in_flight c) as [|k [|k' fl]]; [| |destruct Hd];
    destruct Hd as (Hc & _ & _); rewrite (Hc u).
  - split; [destruct (_ || _); lia|]. intros _. cbn [is_pending].
    rewrite orb_false_r. case_bool_decide; split; auto;
      [discriminate | contradiction].
  - split; [destruct (_ || _); lia | discriminate].
Qed.

(** A detail URL whose page has no title leaves no record and does not
    enter the visited set, however often it is handled; and a second
    visit that finds a title is not a no-op. *)
Lemma untitled_url_not_recorded :
  count_url (url dev_1) (dataset untitled_twice) = 0%nat
  /\ scrapedUrls untitled_once = ∅
  /\ scrapedUrls untitled_twice = ∅
  /\ size (scrapedUrls untitled_twice) = 0%nat
  /\ count_url (url dev_1) (dataset untitled_then_titled) = 1%nat
  /\ dataset untitled_then_titled <> dataset untitled_once.
Proof.
  repeat split; try (vm_compute; reflexivity).
  vm_compute. discriminate.
Qed.

Lemma size_add_fresh (u : str) (s : gset str) :
  u ∉ s -> size ({[u]} ∪ s) = S (size s).
Proof.
  intros H. rewrite size_union by set_solver. now rewrite size_singleton.
Qed.

(** C4 (amended).  A detail URL whose page passes the quota check, the
    visited check and the title gate is recorded once: the handler hands
    exactly one record to the dataset, for that URL, and the visited set
    grows by exactly that URL.  From then on, handling the URL again, on
    any page and in any later state, changes neither the dataset nor the
    visited set nor the counters nor the queue.  No handler removes a URL
    from the visited set, whether it runs to its end or up to an [await].
    In a crawl that collects details with one handler at a time, no URL
    ever has more than one record in the dataset. *)
Theorem dedup_detail (U : str -> str -> option str)
    (P : str -> list node) (cfg : config)
    (rq : request) (pg : page) (w : crawlState) :
  is_detail rq = true ->
  (jobsScraped w < RESULTS_WANTED cfg)%Z ->
  url rq ∉ scrapedUrls w ->
  nonempty (cleanText (title (r_fields (extractFromDetail U P rq (as_detail pg)))))
  = true ->
  dataset (handle U P cfg rq pg w)
  = dataset w ++ [DetailItem (extractFromDetail U P rq (as_detail pg))]
  /\ count_url (url rq) (dataset (handle U P cfg rq pg w))
     = S (count_url (url rq) (dataset w))
  /\ scrapedUrls (handle U P cfg rq pg w) = {[url rq]} ∪ scrapedUrls w
  /\ size (scrapedUrls (handle U P cfg rq pg w)) = S (size (scrapedUrls w))
  /\ jobsScraped (handle U P cfg rq pg w) = (jobsScraped w + 1)%Z
  /\ (forall rq2 pg2 w2,
         is_detail rq2 = true -> url rq2 = url rq ->
         scrapedUrls (handle U P cfg rq pg w) ⊆ scrapedUrls w2 ->
         dataset (handle U P cfg rq2 pg2 w2) = dataset w2
         /\ scrapedUrls (handle U P cfg rq2 pg2 w2) = scrapedUrls w2
         /\ jobsScraped (handle U P cfg rq2 pg2 w2) = jobsScraped w2
         /\ jobsEnqueued (handle U P cfg rq2 pg2 w2) = jobsEnqueued w2
         /\ queue (handle U P cfg rq2 pg2 w2) = queue w2)
  /\ (forall rq' pg' w',
         scrapedUrls w' ⊆ scrapedUrls (handle U P cfg rq' pg' w'))
  /\ (forall n c c',
         step U P cfg n c c' -> scrapedUrls (shared c) ⊆ scrapedUrls (shared c'))
  /\ (collectDetails cfg = true ->
      forall urls c u,
        reachable U P cfg 1 urls c ->
        (count_url u (dataset (shared c)) <= 1)%nat).
Proof.
  intros Hd Hlt Hnew Ht.
  rewrite (handle_detail_emits U P cfg rq pg w Hd Hlt Hnew Ht).
  cbn [say add_url set_scraped pushData dataset scrapedUrls jobsScraped].
  split; [reflexivity|]. split.
  { rewrite count_url_app. unfold count_url at 2.
    cbn [List.filter item_url r_url extractFromDetail]. unfold str_eqb.
    rewrite bool_decide_eq_true_2 by reflexivity. cbn [length]. lia. }
  split; [reflexivity|]. split; [now apply size_add_fresh|].
  split; [reflexivity|]. split.
  { intros rq2 pg2 w2 Hd2 Hu Hsub.
    rewrite (handle_detail_revisit U P cfg rq2 pg2 w2 Hd2).
    - now repeat split.
    - rewrite Hu. apply Hsub. set_solver. }
  split; [intros; apply handle_scraped|].
  split; [intros n c c'; apply step_scraped|].
  intros Hcd urls c u Hr. now apply (one_record_per_url U P cfg urls c u).
Qed.

Lemma dedup_detail_witness :
  count_url (url dev_1)
            (dataset (handle resolve_absolute parse_text one_wanted dev_1 detail_dev fresh))
  = 1%nat
  /\ size (scrapedUrls (handle resolve_absolute parse_text one_wanted dev_1 detail_dev fresh))
     = 1%nat
  /\ dataset (handle resolve_absolute parse_text one_wanted dev_1 detail_dev
                (handle resolve_absolute parse_text one_wanted dev_1 detail_dev fresh))
     = dataset (handle resolve_absolute parse_text one_wanted dev_1 detail_dev fresh).
Proof.
  pose proof (dedup_detail resolve_absolute parse_text one_wanted dev_1 detail_dev fresh
                eq_refl eq_refl (not_elem_of_empty (url dev_1)) eq_refl)
    as (_ & Hc & _ & Hs & _ & Hre & _).
  split; [exact Hc|]. split; [exact Hs|].
  apply (Hre dev_1 detail_dev); reflexivity.
Defined.

(** ** URL resolver *)

Lemma toAbs_gated_http U href base abs :
  toAbs_gated U href base = Some abs ->
  test re_http abs = true /\ U href base = Some abs.
Proof.
  unfold toAbs_gated. destruct (U href base) as [a|]; [|discriminate].
  destruct (test re_http a) eqn:Ht; [|discriminate].
  intros E. injection E as <-. auto.
Qed.

(** C9 (the code at the claim's input).  [toAbs] of the pipeline revision
    hands back whatever the URL constructor answers, whatever the scheme;
    the CommonJS revision does the same and answers the empty string, not
    [null], when the constructor throws.  Only the first and the XPath
    revision test the scheme.  On [mailto:jobs@example.com], an absolute
    URL that the constructor hands back as it is, the pipeline revision
    answers that URL and the gated revision answers [null]. *)
Theorem toAbs_passes_any_scheme (U : str -> str -> option str)
    (href base : str) :
  toAbs U href base = U href base
  /\ toAbs_cjs U href base = default [] (U href base)
  /\ (forall abs, toAbs_gated U href base = Some abs -> test re_http abs = true)
  /\ test re_http (js "mailto:jobs@example.com") = false
  /\ toAbs resolve_absolute (js "mailto:jobs@example.com") base
     = Some (js "mailto:jobs@example.com")
  /\ toAbs_cjs resolve_absolute (js "mailto:jobs@example.com") base
     = js "mailto:jobs@example.com"
  /\ toAbs_gated resolve_absolute (js "mailto:jobs@example.com") base = None.
Proof.
  split; [reflexivity|].
  split; [unfold toAbs_cjs; now destruct (U href base)|].
  split; [intros abs H; now apply toAbs_gated_http in H|].
  repeat split; vm_compute; reflexivity.
Qed.

(** ** Description sanitiser *)

(** C2 (the code at the claim's input).  The fragment
    [<div><p></p></div>] is sanitised to [<div></div>]: the empty
    paragraph goes, the [div] around it was judged before and stays.
    Sanitising that result, the fragment [<div></div>], gives the empty
    string. *)
Theorem sanitize_twice_differs (U : str -> str -> option str)
    (P : str -> list node) (base : str) :
  sanitize_nodes U P [el "div" [el "p" []]] base = [el "div" []]
  /\ sanitizeDescription U P [el "div" [el "p" []]] base = js "<div></div>"
  /\ inner_html [el "div" []] = js "<div></div>"
  /\ sanitizeDescription U P [el "div" []] base = []
  /\ sanitizeDescription U P (sanitize_nodes U P [el "div" [el "p" []]] base) base
     <> sanitizeDescription U P [el "div" [el "p" []]] base.
Proof.
  repeat split; try (vm_compute; reflexivity).
  vm_compute. discriminate.
Qed.

(** ** Field merge *)

(** The description step of the CommonJS revision takes both halves from
    the structured description or leaves both as they were. *)
Lemma enrich_description_cjs_together sanitize ld fs base :
  enrich_description_cjs sanitize ld fs base
  = (description_html fs, description_text fs)
  \/ enrich_description_cjs sanitize ld fs base
     = (sanitize [description_fragment ld] base,
        cleanText_cjs (text (description_fragment ld))).
Proof.
  unfold enrich_description_cjs.
  destruct (has_description ld); [|now left].
  destruct (_ && _); [now right | now left].
Qed.

(** C6 (the code at the claim's input).  A posting whose description is
    a picture only has markup left after sanitising but no text.  The
    pipeline revision overrides [description_html] with that markup and
    keeps the [description_text] the cascade took from the page; the
    CommonJS revision keeps both halves of the page's description. *)
Theorem description_halves_part (U : str -> str -> option str)
    (P : str -> list node) (base : str) :
  description_html (enrichFromJsonLd U P (Some picture_only) described base)
  = js "<div></div>"
  /\ description_text (enrichFromJsonLd U P (Some picture_only) described base)
     = js "Build things."
  /\ description_text described = js "Build things."
  /\ description_html described = js "<div><p>Build things.</p></div>"
  /\ enrich_description_cjs (sanitizeDescription U P) picture_only described base
     = (description_html described, description_text described).
Proof. repeat split; vm_compute; reflexivity. Qed.

(** A category from the listing card is not overridden by the category of
    the structured data, and a location from the card is not overridden
    by the locality of the structured address. *)
Lemma category_keeps_seed :
  seed_tier s_category (seeded (SeedRec [] [] [] [] [] (js "A"))) = js "A"
  /\ cascade_tier (hits_category (with_posting (categorised "B"))) = []
  /\ structured_category
       (parseJsonLdJob (ld_blocks (with_posting (categorised "B")))) = js "B"
  /\ merge (js "A") [] (js "B") = js "B"
  /\ category (r_fields (extractFromDetail resolve_absolute parse_text
                           (seeded (SeedRec [] [] [] [] [] (js "A")))
                           (with_posting (categorised "B")))) = js "A"
  /\ location (r_fields (extractFromDetail resolve_absolute parse_text
                           (seeded (SeedRec [] [] (js "A") [] [] []))
                           (with_posting (located "B")))) = js "A".
Proof. repeat split; vm_compute; reflexivity. Qed.

Lemma three_tier_or low mid high :
  or_str high (or_str mid low) = three_tier low mid high.
Proof. unfold three_tier, or_str. now destruct (nonempty high), (nonempty mid). Qed.

Lemma or_str_assoc a b c : or_str (or_str a b) c = or_str a (or_str b c).
Proof. unfold or_str. destruct a; [|reflexivity]. now destruct b. Qed.

Lemma or_else_default (o : option str) (b : str) :
  or_else o b = or_str (default [] o) b.
Proof. destruct o as [s|]; reflexivity. Qed.

Lemma cascade_fields_eq U P sd d base :
  let fs := cascade_fields U P sd d base in
  title fs = or_str (cascade_tier (hits_title d)) (from_option s_title [] sd)
  /\ company fs
     = or_str (cascade_tier (hits_company d)) (from_option s_company [] sd)
  /\ job_type fs
     = or_str (cascade_tier (hits_job_type d)) (from_option s_job_type [] sd)
  /\ location fs
     = or_str (cascade_tier (hits_location d)) (from_option s_location [] sd)
  /\ category fs
     = or_str (cascade_tier (hits_category d)) (from_option s_category [] sd)
  /\ salary_range fs
     = or_str (cascade_tier (hits_salary d)) (from_option s_salary_range [] sd)
  /\ date_posted fs = default [] (extractDatePosted (date_scope d) (body d)).
Proof.
  unfold cascade_fields. destruct (cascade_description U P d base) as [html txt].
  repeat split.
Qed.

Lemma enrich_title U P ld fs base :
  title (enrichFromJsonLd U P ld fs base) = or_str (structured_title ld) (title fs).
Proof.
  enrich_split ld; cbn [title]; [|reflexivity].
  rewrite or_else_default. reflexivity.
Qed.

Lemma enrich_company U P ld fs base :
  company (enrichFromJsonLd U P ld fs base)
  = or_str (structured_company ld) (company fs).
Proof.
  enrich_split ld; cbn [company]; [|reflexivity].
  rewrite or_else_default. reflexivity.
Qed.

Lemma enrich_date U P ld fs base :
  date_posted (enrichFromJsonLd U P ld fs base)
  = or_str (structured_date ld) (date_posted fs).
Proof.
  enrich_split ld; cbn [date_posted]; [|reflexivity].
  rewrite or_else_default. reflexivity.
Qed.

Lemma enrich_job_type U P ld fs base :
  job_type (enrichFromJsonLd U P ld fs base)
  = if truthy_many (ld ≫= employmentType)
    then humanize_type (from_option first_of [] (ld ≫= employmentType))
    else job_type fs.
Proof. enrich_split ld; cbn [job_type]; reflexivity. Qed.

Lemma enrich_salary_or p out :
  enrich_salary p out = or_str (enrich_salary p []) out.
Proof.
  assert (Hnil : forall s : str, or_str s [] = s)
    by (intros s; unfold or_str; now destruct s).
  unfold enrich_salary. destruct (baseSalary p) as [sal|]; [|reflexivity].
  destruct (match sal_value sal with
            | Some (SalNumber _) => _ | Some (SalQuantity _) => _ | None => _
            end) as [min max].
  destruct (_ || _); [|reflexivity]. now rewrite Hnil.
Qed.

Lemma enrich_salary_eq U P ld fs base :
  salary_range (enrichFromJsonLd U P ld fs base)
  = or_str (structured_salary ld) (salary_range fs).
Proof.
  enrich_split ld; cbn [salary_range]; [|reflexivity].
  apply enrich_salary_or.
Qed.

Lemma enrich_category_eq U P ld fs base :
  category (enrichFromJsonLd U P ld fs base)
  = or_str (category fs) (structured_category ld).
Proof.
  enrich_split ld; cbn [category].
  - unfold enrich_category, structured_category, or_str.
    destruct (nonempty (category fs)) eqn:Hc; cbn [negb].
    + now rewrite !andb_false_r.
    + rewrite !andb_true_r.
      destruct (truthy_many (occupationalCategory p)); [reflexivity|].
      destruct (truthy_many (industry p)); [reflexivity|].
      now destruct (category fs).
  - unfold or_str, structured_category. now destruct (category fs).
Qed.

Lemma enrich_location_eq U P ld fs base :
  location (enrichFromJsonLd U P ld fs base)
  = if nonempty (structured_street ld) then structured_street ld
    else or_str (location fs) (structured_address_parts ld).
Proof.
  assert (Hnil : forall s : str, or_str s [] = s)
    by (intros s; unfold or_str; now destruct s).
  enrich_split ld; cbn [location].
  - unfold enrich_location, structured_street, structured_address_parts.
    destruct (if truthy_loc (jobLocation p) then _ else _) as [[s|pl|pls]|];
      cbn [nonempty]; try (now rewrite Hnil).
    + destruct (address pl) as [a|]; cbn [mbind option_bind from_option id nonempty];
        [|now rewrite Hnil].
      destruct (streetAddress a) as [st|]; cbn [truthy from_option id nonempty].
      * destruct (nonempty st); [reflexivity|].
        destruct (present _); [now rewrite Hnil | reflexivity].
      * destruct (present _); [now rewrite Hnil | reflexivity].
    + destruct (head pls ≫= address) as [a|];
        cbn [mbind option_bind from_option id nonempty]; [|now rewrite Hnil].
      destruct (streetAddress a) as [st|]; cbn [truthy from_option id nonempty].
      * destruct (nonempty st); [reflexivity|].
        destruct (present _); [now rewrite Hnil | reflexivity].
      * destruct (present _); [now rewrite Hnil | reflexivity].
  - cbn. now rewrite Hnil.
Qed.

(** The merge as the code performs it, field by field: every test is on
    the value as it stands. *)
Lemma merge_as_coded (U : str -> str -> option str)
    (P : str -> list node) (rq : request)
    (d : detailDoc) :
  let ld := parseJsonLdJob (ld_blocks d) in
  let out := r_fields (extractFromDetail U P rq d) in
  title out
  = three_tier (seed_tier s_title rq) (cascade_tier (hits_title d))
               (structured_title ld)
  /\ company out
     = three_tier (seed_tier s_company rq) (cascade_tier (hits_company d))
                  (structured_company ld)
  /\ date_posted out
     = three_tier [] (default [] (extractDatePosted (date_scope d) (body d)))
                  (structured_date ld)
  /\ (title out = [] ->
      seed_tier s_title rq = [] /\ cascade_tier (hits_title d) = []
      /\ structured_title ld = [])
  /\ job_type out
     = (if truthy_many (ld ≫= employmentType)
        then humanize_type (from_option first_of [] (ld ≫= employmentType))
        else three_tier [] (seed_tier s_job_type rq)
                        (cascade_tier (hits_job_type d)))
  /\ salary_range out
     = three_tier (seed_tier s_salary_range rq) (cascade_tier (hits_salary d))
                  (structured_salary ld)
  /\ category out
     = three_tier (structured_category ld) (seed_tier s_category rq)
                  (cascade_tier (hits_category d))
  /\ location out
     = (if nonempty (structured_street ld) then structured_street ld
        else three_tier (structured_address_parts ld)
                        (seed_tier s_location rq)
                        (cascade_tier (hits_location d)))
  /\ title (r_fields (extractFromDetail U P
                        (seeded (SeedRec (js "A") [] [] [] [] []))
                        (with_posting (entitled "B")))) = js "B"
  /\ title (r_fields (extractFromDetail U P
                        (seeded (SeedRec (js "A") [] [] [] [] []))
                        (with_title_and_posting "C" (entitled "")))) = js "C"
  /\ title (r_fields (extractFromDetail U P
                        (seeded (SeedRec [] [] [] [] [] []))
                        (with_posting (entitled "")))) = [].
Proof.
  intros ld out. subst out. unfold extractFromDetail. cbn [r_fields].
  fold ld.
  destruct (cascade_fields_eq U P (seed rq) d (url rq))
    as (Ht & Hc & Hj & Hl & Hk & Hs & Hd).
  fold (seed_tier s_title rq) in Ht. fold (seed_tier s_company rq) in Hc.
  fold (seed_tier s_job_type rq) in Hj. fold (seed_tier s_location rq) in Hl.
  fold (seed_tier s_category rq) in Hk.
  fold (seed_tier s_salary_range rq) in Hs.
  rewrite enrich_title, enrich_company, enrich_date, enrich_job_type,
    enrich_salary_eq, enrich_category_eq, enrich_location_eq.
  rewrite Ht, Hc, Hj, Hl, Hk, Hs, Hd. rewrite !or_str_assoc, !three_tier_or.
  split; [reflexivity|]. split; [reflexivity|].
  split.
  { unfold three_tier, or_str.
    destruct (nonempty (structured_date ld)); [reflexivity|].
    now destruct (default [] (extractDatePosted (date_scope d) (body d))). }
  split.
  { unfold three_tier.
    destruct (structured_title ld) as [|a s]; [|discriminate].
    destruct (cascade_tier (hits_title d)) as [|b c]; [|discriminate].
    cbn. auto. }
  split.
  { destruct (truthy_many _); [reflexivity|].
    unfold three_tier, or_str.
    destruct (nonempty (cascade_tier (hits_job_type d))); [reflexivity|].
    now destruct (seed_tier s_job_type rq). }
  split; [reflexivity|]. split; [reflexivity|]. split; [reflexivity|].
  repeat split; vm_compute; reflexivity.
Qed.

(** ** The quota with handlers that interleave *)

Lemma in_flight_uncounted_app a b :
  in_flight_uncounted (a ++ b)
  = (in_flight_uncounted a + in_flight_uncounted b)%Z.
Proof.
  induction a as [|k a IH]; [reflexivity|].
  change (uncounted (Some k) + in_flight_uncounted (a ++ b)
          = uncounted (Some k) + in_flight_uncounted a
            + in_flight_uncounted b)%Z.
  rewrite IH. lia.
Qed.

Lemma in_flight_uncounted_cons k fl :
  in_flight_uncounted (k :: fl)
  = (uncounted (Some k) + in_flight_uncounted fl)%Z.
Proof. reflexivity. Qed.

Lemma uncounted_detail k :
  (forall n cx, k <> AwaitListPush n cx) ->
  (0 <= uncounted (Some k) <= 1)%Z.
Proof.
  intros Hk. destruct k as [n cx| | |]; cbn [uncounted]; try lia.
  exfalso. now apply (Hk n cx).
Qed.

Lemma in_flight_uncounted_bounds fl :
  detail_only fl -> (0 <= in_flight_uncounted fl <= zlen fl)%Z.
Proof.
  unfold zlen. induction fl as [|k fl IH]; intros Hd.
  - cbn. lia.
  - apply Forall_cons in Hd as [Hk Hd]. specialize (IH Hd).
    pose proof (uncounted_detail k Hk).
    rewrite in_flight_uncounted_cons. cbn [length]. lia.
Qed.

Lemma quiet_uncounted k : quiet k -> uncounted k = 0%Z.
Proof.
  intros H. destruct k as [[]|]; cbn in *; try reflexivity; destruct H.
Qed.

Lemma quiet_detail_only k : quiet k -> detail_only (option_list k).
Proof.
  intros H. destruct k as [[]|]; cbn in *; try (destruct H; fail);
    repeat constructor; discriminate.
Qed.

Lemma in_flight_uncounted_option k :
  in_flight_uncounted (option_list k) = uncounted k.
Proof. destruct k as [k|]; cbn; [lia | reflexivity]. Qed.

Lemma length_option_list {A} (k : option A) : (length (option_list k) <= 1)%nat.
Proof. destruct k; cbn; lia. Qed.

(** What a handler does to the shared state up to its first [await], in
    a crawl that collects details. *)
Lemma start_cases U P cfg rq pg w :
  collectDetails cfg = true ->
  (core_eq w (start U P cfg rq pg w).1 /\ quiet (start U P cfg rq pg w).2)
  \/ (exists u t x,
         (start U P cfg rq pg w).2 = Some (AwaitDetailPush u t)
         /\ (jobsScraped w < RESULTS_WANTED cfg)%Z
         /\ jobsScraped (start U P cfg rq pg w).1 = jobsScraped w
         /\ dataset (start U P cfg rq pg w).1 = dataset w ++ [x]).
Proof.
  intros Hcd. unfold start. destruct (is_detail rq).
  - destruct (Z.leb_spec (RESULTS_WANTED cfg) (jobsScraped w)).
    { left. cbn. now repeat split. }
    destruct (bool_decide _). { left. cbn. now repeat split. }
    destruct (negb _). { left. cbn. now repeat split. }
    right. do 3 eexists. cbn. repeat split. assumption.
  - left. rewrite Hcd. cbn [negb].
    set (w1 := match collectJobLinks U (as_list pg) (url rq) with
               | [] => _ | _ => _ end).
    assert (Hw1 : core_eq w w1).
    { subst w1. destruct (collectJobLinks _ _ _); now repeat split. }
    destruct (enqueue_loop_core cfg
                (ListCtx (pageNo rq)
                   (zlen (collectJobLinks U (as_list pg) (url rq)))
                   (zlen (slice0 (RESULTS_WANTED cfg - jobsEnqueued w1)
                                 (collectJobLinks U (as_list pg) (url rq))))
                   (seedsByUrl U (as_list pg) (url rq))
                   (findNextUrl U (next_links (as_list pg)) (url rq)))
                (slice0 (RESULTS_WANTED cfg - jobsEnqueued w1)
                        (collectJobLinks U (as_list pg) (url rq))) w1)
      as [Hce Hk].
    split; [eapply core_eq_trans; eauto | exact Hk].
Qed.

Lemma resume_cases cfg k w :
  (forall n cx, k <> AwaitListPush n cx) ->
  quiet (resume cfg k w).2
  /\ dataset (resume cfg k w).1 = dataset w
  /\ jobsScraped (resume cfg k w).1 = (jobsScraped w + uncounted (Some k))%Z.
Proof.
  intros Hk. destruct k as [n cx|rest cx| |u t]; cbn [resume uncounted].
  - exfalso. now apply (Hk n cx).
  - destruct (enqueue_loop_core cfg cx rest
                (set_enqueued (jobsEnqueued w + 1) w)) as [(Hs & Hd & _) Hq].
    repeat split; [exact Hq | exact Hd | rewrite Hs; cbn; lia].
  - cbn. repeat split. lia.
  - cbn. repeat split.
Qed.

Lemma step_overshoot U P cfg n c c' :
  collectDetails cfg = true ->
  overshoot_ok cfg n c -> step U P cfg n c c' -> overshoot_ok cfg n c'.
Proof.
  intros Hcd (H0 & Hd & Hb & Hu & Hl & Hdo) Hs.
  destruct Hs as [c rq pg q1 q2 Hq Hlen | c k r1 r2 Hfl];
    [unfold started | unfold resumed].
  - pose proof (start_cases U P cfg rq pg (take_request q1 q2 (shared c)) Hcd)
      as Hst.
    destruct (start U P cfg rq pg (take_request q1 q2 (shared c))) as [w' k].
    cbn in Hst.
    unfold overshoot_ok. cbn [shared in_flight].
    rewrite in_flight_uncounted_app, in_flight_uncounted_option.
    pose proof (length_option_list k) as Hk1.
    unfold zlen in *. rewrite !length_app.
    destruct Hst as [[(Hs & Hdd & _) Hquiet] | (u & t & x & -> & Hlt & Hs & Hdd)];
      cbn [take_request jobsScraped dataset] in Hs, Hdd.
    + rewrite (quiet_uncounted k Hquiet), Hs, Hdd.
      split_and!; try lia.
      apply Forall_app. split; [assumption | now apply quiet_detail_only].
    + change (option_list (Some (AwaitDetailPush u t)))
        with [AwaitDetailPush u t].
      rewrite Hs, Hdd, length_app. cbn [uncounted length].
      split_and!; try lia.
      apply Forall_app. split; [assumption | repeat constructor; discriminate].
  - rewrite Hfl in *. unfold detail_only in Hdo.
    rewrite Forall_app, Forall_cons in Hdo. destruct Hdo as (Hd1 & Hdk & Hd2).
    pose proof (resume_cases cfg k (shared c) Hdk) as (Hquiet & Hdd & Hs).
    destruct (resume cfg k (shared c)) as [w' k'].
    cbn [fst snd] in *. unfold overshoot_ok. cbn [shared in_flight].
    rewrite !in_flight_uncounted_app in *.
    rewrite in_flight_uncounted_cons in Hd, Hb, Hu.
    rewrite in_flight_uncounted_option, (quiet_uncounted k' Hquiet).
    pose proof (length_option_list k') as Hk1.
    unfold zlen in *. rewrite !length_app in *. cbn [length] in *.
    pose proof (uncounted_detail k Hdk) as Hk01.
    pose proof (in_flight_uncounted_bounds r1 Hd1) as Hr1.
    pose proof (in_flight_uncounted_bounds r2 Hd2) as Hr2.
    unfold zlen in Hr1, Hr2.
    rewrite Hs, Hdd. split_and!; try lia.
    apply Forall_app. split; [assumption|].
    apply Forall_app. split; [now apply quiet_detail_only | assumption].
Qed.

(** With up to [n] handlers in flight, a crawl that collects details
    hands at most [RESULTS_WANTED + n - 1] records to the dataset. *)
Lemma quota_overshoot_bounded U P cfg n urls c :
  (1 <= RESULTS_WANTED cfg)%Z -> (1 <= n)%nat ->
  collectDetails cfg = true ->
  reachable U P cfg n urls c ->
  (zlen (dataset (shared c)) <= RESULTS_WANTED cfg + Z.of_nat n - 1)%Z
  /\ (jobsScraped (shared c) <= RESULTS_WANTED cfg + Z.of_nat n - 1)%Z.
Proof.
  intros HN Hn Hcd Hr.
  assert (Hok : overshoot_ok cfg n c).
  { induction Hr as [|c c' _ IH Hs].
    - unfold overshoot_ok, zlen. cbn. split_and!; try lia. constructor.
    - eapply step_overshoot; eauto. }
  destruct Hok as (H0 & Hd & Hb & Hu & _). lia.
Qed.

(** * Further properties of the helpers *)

(** ** Replacing runs of a character class *)

Lemma span_len_le p s : (span_len p s <= length s)%nat.
Proof. induction s as [|c s IH]; simpl; [lia|]. destruct (p c); simpl; lia. Qed.

Lemma match_here_run k p sn ah :
  match_here (Rep k None (Chr p)) sn ah
  = if (k <=? span_len p ah)%nat
    then Some (RResult (rev sn) (take (span_len p ah) ah)
                       (drop (span_len p ah) ah) [])
    else None.
Proof.
  unfold match_here.
  change (rmatch (Rep k None (Chr p)) (MState sn ah []))
    with (rep_loop (rmatch (Chr p)) [] (S (length ah + k)) k None
                   (MState sn ah [])).
  pose proof (rep_chr_head p (S (length ah + k)) k (MState sn ah [])) as Hh.
  cbn [ahead] in Hh. specialize (Hh ltac:(lia)).
  destruct (k <=? span_len p ah)%nat.
  - destruct (rep_loop _ _ _ _ _ _) as [|x l]; [discriminate|].
    cbn in Hh. injection Hh as ->.
    unfold result_of, advance. cbn [seen ahead caps].
    pose proof (span_len_le p ah).
    rewrite length_drop.
    replace (length ah - (length ah - span_len p ah))%nat
      with (span_len p ah) by lia.
    reflexivity.
  - destruct (rep_loop _ _ _ _ _ _) as [|x l]; [reflexivity|discriminate].
Qed.

Lemma replace_from_run k p x : (1 <= k)%nat -> forall fuel sn ah,
  (length ah < fuel)%nat ->
  squeezed k p x ah (replace_from fuel (Rep k None (Chr p)) (fun _ => x) sn ah).
Proof.
  intros Hk. induction fuel as [|fuel IH]; intros sn ah Hf; [lia|].
  cbn [replace_from]. rewrite match_here_run.
  destruct ah as [|c t].
  - cbn [span_len]. destruct (Nat.leb_spec k 0); [lia|]. constructor.
  - destruct (Nat.leb_spec k (span_len p (c :: t))) as [Hle|Hlt].
    + cbn [m_text m_post]. cbn [span_len] in *.
      destruct (p c) eqn:Hp; [|lia].
      cbn [take drop].
      pose proof (span_len_split p t) as [Hrun Hrest].
      pose proof (span_len_le p t) as Hlen.
      rewrite <- (take_drop (span_len p t) t) at 1.
      change (c :: take (span_len p t) t ++ drop (span_len p t) t)
        with ((c :: take (span_len p t) t) ++ drop (span_len p t) t).
      apply squeezed_run.
      * cbn [length]. rewrite length_take. lia.
      * cbn [forallb]. now rewrite Hp, Hrun.
      * exact Hrest.
      * apply IH. rewrite length_drop. cbn [length] in Hf. lia.
    + apply squeezed_keep; [exact Hlt|]. apply IH. cbn [length] in Hf. lia.
Qed.

Lemma replace_all_run k p x s : (1 <= k)%nat ->
  squeezed k p x s (replace_all (Rep k None (Chr p)) (fun _ => x) s).
Proof. intros Hk. apply replace_from_run; [exact Hk | lia]. Qed.

(** What is left is made of characters of the input and of [x]. *)
Lemma squeezed_forall k p x q s out :
  forallb q x = true -> squeezed k p x s out ->
  forallb q s = true -> forallb q out = true.
Proof.
  intros Hx H. induction H as [|c s out Hlt H IH|run rest out Hk Hrun Hrest H IH];
    intros Hs.
  - reflexivity.
  - cbn [forallb] in *. apply andb_true_iff in Hs as [-> Hs]. now apply IH.
  - rewrite forallb_app in *. apply andb_true_iff in Hs as [_ Hs].
    rewrite Hx. now apply IH.
Qed.

(** A class that holds [p] and [x] holds the output exactly when it holds
    the input. *)
Lemma squeezed_all k p x q s out :
  forallb q x = true -> (forall c, p c = true -> q c = true) ->
  squeezed k p x s out -> forallb q out = forallb q s.
Proof.
  intros Hx Hpq H.
  induction H as [|c s out Hlt H IH|run rest out Hk Hrun Hrest H IH].
  - reflexivity.
  - cbn [forallb]. now rewrite IH.
  - rewrite !forallb_app, Hx, IH.
    assert (Hq : forallb q run = true).
    { clear -Hrun Hpq. induction run as [|a run IH]; [reflexivity|].
      cbn [forallb] in *. apply andb_true_iff in Hrun as [Ha Hr].
      now rewrite (Hpq a Ha), IH. }
    now rewrite Hq.
Qed.

(** With [k = 1] no character of the class is left. *)
Lemma squeezed_1_none p x s out :
  forallb (fun c => negb (p c)) x = true -> squeezed 1 p x s out ->
  forallb (fun c => negb (p c)) out = true.
Proof.
  intros Hx H. induction H as [|c s out Hlt H IH|run rest out Hk Hrun Hrest H IH].
  - reflexivity.
  - cbn [forallb span_len] in *. destruct (p c); [lia|]. exact IH.
  - rewrite forallb_app, Hx. exact IH.
Qed.

Lemma squeezed_1_id p x s out :
  forallb (fun c => negb (p c)) s = true -> squeezed 1 p x s out -> out = s.
Proof.
  intros Hs H. induction H as [|c s out Hlt H IH|run rest out Hk Hrun Hrest H IH].
  - reflexivity.
  - cbn [forallb] in Hs. apply andb_true_iff in Hs as [_ Hs]. now rewrite IH.
  - destruct run as [|a run]; [cbn in Hk; lia|].
    cbn [forallb app] in *. apply andb_true_iff in Hrun as [Ha _].
    now rewrite Ha in Hs.
Qed.

Lemma no_run2_cons p a s :
  no_run2 p (a :: s) = negb (p a && head_is p s) && no_run2 p s.
Proof. destruct s as [|b s]; cbn; [now rewrite andb_false_r | reflexivity]. Qed.

(** With [k = 2] and a single replacement character, no two characters of
    the class are left side by side. *)
Lemma squeezed_2_none p sp s out :
  squeezed 2 p [sp] s out ->
  no_run2 p out = true /\ (head_is p s = false -> head_is p out = false).
Proof.
  intros H. induction H as [|c s out Hlt H [IH1 IH2]|run rest out Hk Hrun Hrest H [IH1 IH2]].
  - split; reflexivity.
  - rewrite no_run2_cons, IH1. cbn [head_is span_len] in *.
    destruct (p c) eqn:Hp; [|now split].
    assert (Hs : head_is p s = false).
    { destruct s as [|b s]; [reflexivity|]. cbn in *. destruct (p b); [lia|reflexivity]. }
    rewrite (IH2 Hs). split; [reflexivity | discriminate].
  - cbn [app]. rewrite no_run2_cons, IH1, (IH2 Hrest), andb_false_r.
    split; [reflexivity|].
    destruct run as [|a run]; [cbn in Hk; lia|].
    cbn [forallb app head_is] in *. apply andb_true_iff in Hrun as [-> _].
    discriminate.
Qed.

Lemma squeezed_2_id p x s out :
  no_run2 p s = true -> squeezed 2 p x s out -> out = s.
Proof.
  intros Hs H. induction H as [|c s out Hlt H IH|run rest out Hk Hrun Hrest H IH].
  - reflexivity.
  - rewrite no_run2_cons in Hs. apply andb_true_iff in Hs as [_ Hs].
    now rewrite IH.
  - destruct run as [|a [|b run]]; [cbn in Hk; lia | cbn in Hk; lia |].
    cbn [forallb app] in *.
    apply andb_true_iff in Hrun as [Ha Hrun].
    apply andb_true_iff in Hrun as [Hb _].
    cbn [no_run2] in Hs. now rewrite Ha, Hb in Hs.
Qed.

(** ** [trim] *)

Lemma trim_start_spec s :
  exists a, s = a ++ trim_start s /\ forallb is_space a = true
            /\ head_is is_space (trim_start s) = false.
Proof.
  induction s as [|c s (a & E & Ha & Hh)].
  - exists []. repeat split.
  - cbn [trim_start]. destruct (is_space c) eqn:Hc.
    + exists (c :: a). cbn [app forallb]. rewrite Hc, Ha. now rewrite <- E.
    + exists []. cbn. now rewrite Hc.
Qed.

Lemma forallb_rev {A} (q : A -> bool) l : forallb q (rev l) = forallb q l.
Proof.
  induction l as [|a l IH]; [reflexivity|].
  cbn [rev forallb]. rewrite forallb_app, IH. cbn. rewrite andb_true_r.
  apply andb_comm.
Qed.

Lemma head_is_app p (a b : str) : a <> [] -> head_is p (a ++ b) = head_is p a.
Proof. destruct a; [congruence | reflexivity]. Qed.

(** [trim] cuts a run of white space off either end and leaves none
    there. *)
Lemma trim_spec s :
  exists a b, s = a ++ trim s ++ b
              /\ forallb is_space a = true /\ forallb is_space b = true
              /\ head_is is_space (trim s) = false
              /\ head_is is_space (rev (trim s)) = false.
Proof.
  destruct (trim_start_spec s) as (a & E & Ha & Hh).
  destruct (trim_start_spec (rev (trim_start s))) as (b & E' & Hb & Hh').
  unfold trim. set (t := trim_start s) in *.
  set (u := trim_start (rev t)) in *.
  assert (Et : t = rev u ++ rev b).
  { rewrite <- (rev_involutive t), E'. apply rev_app_distr. }
  exists a, (rev b). split; [now rewrite <- Et|].
  split; [exact Ha|]. split; [now rewrite forallb_rev|].
  split; [|now rewrite rev_involutive].
  destruct u as [|c u]; [reflexivity|].
  rewrite Et in Hh. rewrite head_is_app in Hh; [exact Hh|].
  cbn [rev]. now destruct (rev u).
Qed.

Lemma trim_start_id s : head_is is_space s = false -> trim_start s = s.
Proof. destruct s as [|c s]; cbn; [reflexivity | now intros ->]. Qed.

Lemma trim_id s :
  head_is is_space s = false -> head_is is_space (rev s) = false -> trim s = s.
Proof.
  intros H1 H2. unfold trim.
  now rewrite (trim_start_id s H1), (trim_start_id _ H2), rev_involutive.
Qed.

Lemma trim_start_all s : forallb is_space s = true -> trim_start s = [].
Proof.
  induction s as [|c s IH]; [reflexivity|]. cbn.
  intros H. apply andb_true_iff in H as [-> H]. now apply IH.
Qed.

Lemma trim_all s : forallb is_space s = true -> trim s = [].
Proof. intros H. unfold trim. now rewrite (trim_start_all s H). Qed.

Lemma no_run2_app p a b :
  no_run2 p (a ++ b) = true -> no_run2 p a = true /\ no_run2 p b = true.
Proof.
  induction a as [|c a IH]; [now split|].
  cbn [app]. rewrite !no_run2_cons. intros H.
  apply andb_true_iff in H as [H1 H2]. destruct (IH H2) as [Ha Hb].
  split; [|exact Hb]. rewrite Ha, andb_true_r.
  destruct a as [|d a]; [cbn; now rewrite andb_false_r | exact H1].
Qed.

(** ** The text normaliser *)

Lemma is_break_space c : is_break c = true -> is_space c = true.
Proof.
  unfold is_break. intros H.
  repeat (apply orb_true_iff in H as [H|H]);
    apply N.eqb_eq in H; subst; reflexivity.
Qed.

Lemma cleanText_steps s :
  exists s1 s2,
    squeezed 1 is_break space s s1 /\ squeezed 2 is_space space s1 s2
    /\ cleanText s = trim s2.
Proof.
  exists (replace_all re_nbsp_ws (fun _ => space) s),
         (replace_all re_ws2 (fun _ => space)
                      (replace_all re_nbsp_ws (fun _ => space) s)).
  split; [|split; [|reflexivity]].
  - apply (replace_all_run 1 is_break space s). lia.
  - apply (replace_all_run 2 is_space space). lia.
Qed.

Lemma cleanText_shape (s : str) :
  forallb (fun c => negb (is_break c)) (cleanText s) = true
  /\ no_run2 is_space (cleanText s) = true
  /\ head_is is_space (cleanText s) = false
  /\ head_is is_space (rev (cleanText s)) = false.
Proof.
  destruct (cleanText_steps s) as (s1 & s2 & H1 & H2 & ->).
  pose proof (squeezed_1_none is_break space s s1 eq_refl H1) as Hb1.
  pose proof (squeezed_forall 2 is_space space (fun c => negb (is_break c))
                s1 s2 eq_refl H2 Hb1) as Hb2.
  pose proof (squeezed_2_none _ _ _ _ H2) as [Hr2 _].
  destruct (trim_spec s2) as (a & b & E & Ha & Hb & Hh & Hl).
  rewrite E in Hb2, Hr2.
  rewrite !forallb_app in Hb2.
  apply andb_true_iff in Hb2 as [_ Hb2]. apply andb_true_iff in Hb2 as [Hb2 _].
  apply no_run2_app in Hr2 as [_ Hr2]. apply no_run2_app in Hr2 as [Hr2 _].
  now repeat split.
Qed.

(** X1.  The result of [cleanText] holds no tab, line break or no-break
    space, no two white-space characters side by side, and no white space
    at either end. *)
Theorem cleanText_normal_form (s : str) :
  forallb (fun c => negb (is_break c)) (cleanText s) = true
  /\ no_run2 is_space (cleanText s) = true
  /\ head_is is_space (cleanText s) = false
  /\ head_is is_space (rev (cleanText s)) = false.
Proof. exact (cleanText_shape s). Qed.

(** A text in that form is left as it is. *)
Lemma cleanText_fixed L :
  forallb (fun c => negb (is_break c)) L = true ->
  no_run2 is_space L = true ->
  head_is is_space L = false -> head_is is_space (rev L) = false ->
  cleanText L = L.
Proof.
  intros Hb Hr Hh Hl.
  destruct (cleanText_steps L) as (s1 & s2 & H1 & H2 & ->).
  apply (squeezed_1_id _ _ _ _ Hb) in H1. subst s1.
  apply (squeezed_2_id _ _ _ _ Hr) in H2. subst s2.
  now apply trim_id.
Qed.

(** X2.  [cleanText] is idempotent: a normalised text is left as it is. *)
Theorem cleanText_idempotent (s : str) :
  cleanText (cleanText s) = cleanText s.
Proof.
  destruct (cleanText_shape s) as (Hb & Hr & Hh & Hl).
  now apply cleanText_fixed.
Qed.

Lemma cleanText_nil_iff (s : str) :
  cleanText s = [] <-> forallb is_space s = true.
Proof.
  destruct (cleanText_steps s) as (s1 & s2 & H1 & H2 & ->).
  pose proof (squeezed_all 1 is_break space is_space s s1 eq_refl
                is_break_space H1) as E1.
  pose proof (squeezed_all 2 is_space space is_space s1 s2 eq_refl
                (fun c H => H) H2) as E2.
  rewrite <- E1, <- E2. split.
  - intros Ht. destruct (trim_spec s2) as (a & b & E & Ha & Hb & _).
    rewrite E, Ht, !forallb_app, Ha, Hb. reflexivity.
  - apply trim_all.
Qed.

(** X3.  [cleanText] answers the empty string exactly for the texts made
    of white space only. *)
Theorem cleanText_empty_iff (s : str) :
  cleanText s = [] <-> forallb is_space s = true.
Proof. exact (cleanText_nil_iff s). Qed.

(** ** The lines of a listing card *)

Lemma match_here_none r sn ah :
  match_here r sn ah = None <-> rmatch r (MState sn ah []) = [].
Proof.
  unfold match_here. destruct (rmatch r _); split; congruence.
Qed.

Lemma match_here_alt r1 r2 sn ah :
  match_here r1 sn ah = None -> match_here r2 sn ah = None ->
  match_here (Alt r1 r2) sn ah = None.
Proof.
  rewrite !match_here_none. cbn [rmatch]. now intros -> ->.
Qed.

(** Where the separator matches nowhere, [split] answers the string
    itself. *)
Lemma split_from_nomatch r : forall fuel ah cur sn,
  (forall p1 p2, ah = p1 ++ p2 -> p2 <> [] ->
                 match_here r (rev p1 ++ sn) p2 = None) ->
  split_from fuel r cur sn ah = [rev cur ++ ah].
Proof.
  induction fuel as [|fuel IH]; intros ah cur sn H; [reflexivity|].
  destruct ah as [|c ah]; cbn [split_from]; [now rewrite app_nil_r|].
  pose proof (H [] (c :: ah) eq_refl ltac:(discriminate)) as H0.
  cbn [rev app] in H0. rewrite H0.
  rewrite IH.
  - cbn [rev]. now rewrite <- app_assoc.
  - intros p1 p2 -> Hne. specialize (H (c :: p1) p2 eq_refl Hne).
    cbn [rev] in H. now rewrite <- app_assoc in H.
Qed.

Lemma no_run2_span p s : no_run2 p s = true -> (span_len p s < 2)%nat.
Proof.
  destruct s as [|a [|b s]]; cbn; intros H;
    repeat match goal with
           | |- context [if ?b then _ else _] => destruct b
           end; cbn in H; try lia; discriminate.
Qed.

Lemma match_here_line_break sn ah :
  no_run2 is_space ah = true ->
  forallb (fun c => negb (is_break c)) ah = true ->
  match_here re_line_break sn ah = None.
Proof.
  intros Hr Hb. apply match_here_alt.
  - unfold re_ws2. rewrite match_here_run.
    pose proof (no_run2_span _ _ Hr).
    destruct (Nat.leb_spec 2 (span_len is_space ah)); [lia | reflexivity].
  - change (plus (chr 10)) with (Rep 1 None (Chr (N.eqb 10))).
    rewrite match_here_run.
    destruct ah as [|c ah]; [reflexivity|]. cbn [span_len forallb] in *.
    destruct (N.eqb_spec 10 c) as [<-|]; [discriminate | reflexivity].
Qed.

Lemma card_lines_eq (cardText : str) :
  card_lines cardText
  = if nonempty (cleanText cardText) then [cleanText cardText] else [].
Proof.
  unfold card_lines.
  destruct (cleanText_shape cardText) as (Hb & Hr & Hh & Hl).
  destruct (cleanText cardText) as [|c L] eqn:E.
  - cbn [split_re]. rewrite match_here_line_break by reflexivity. reflexivity.
  - cbn [split_re]. rewrite split_from_nomatch.
    + cbn [rev app List.map]. rewrite (trim_id _ Hh Hl). reflexivity.
    + intros p1 p2 E' _. rewrite E' in Hb, Hr.
      apply no_run2_app in Hr as [_ Hr].
      rewrite forallb_app in Hb. apply andb_true_iff in Hb as [_ Hb].
      now apply match_here_line_break.
Qed.

(** X4.  The text of a card is normalised before it is split at line
    breaks and at runs of white space, and the normalised text holds
    neither: a card has at most one line, its whole normalised text. *)
Theorem card_lines_single (cardText : str) :
  card_lines cardText
  = if nonempty (cleanText cardText) then [cleanText cardText] else [].
Proof. exact (card_lines_eq cardText). Qed.

(** ** Membership in the matcher's results *)

Lemma in_rmatch_seq r1 r2 st x :
  In x (rmatch (Seq r1 r2) st)
  <-> exists y, In y (rmatch r1 st) /\ In x (rmatch r2 y).
Proof. rewrite rmatch_seq. apply in_flat_map. Qed.

Lemma in_rmatch_alt r1 r2 st x :
  In x (rmatch (Alt r1 r2) st) <-> In x (rmatch r1 st) \/ In x (rmatch r2 st).
Proof. cbn [rmatch]. apply in_app_iff. Qed.

Lemma in_rmatch_grp i r st x :
  In x (rmatch (Grp i r) st)
  <-> exists y, In y (rmatch r st) /\ x = set_cap i st y.
Proof.
  rewrite rmatch_grp, in_map_iff. split; intros (y & H1 & H2); exists y;
    [now split | now split].
Qed.

Lemma in_rmatch_wordb st x :
  In x (rmatch WordB st) <-> x = st /\ at_word_boundary st = true.
Proof.
  cbn [rmatch]. destruct (at_word_boundary st); cbn; split.
  - intros [<-|[]]. now split.
  - intros [-> _]. now left.
  - intros [].
  - intros [_ H]. discriminate.
Qed.

Lemma in_rmatch_bol st x :
  In x (rmatch Bol st) <-> x = st /\ seen st = [].
Proof.
  cbn [rmatch]. destruct (seen st); cbn; split.
  - intros [<-|[]]. now split.
  - intros [-> _]. now left.
  - intros [].
  - intros [_ H]. discriminate.
Qed.

Lemma in_rmatch_eol st x :
  In x (rmatch Eol st) <-> x = st /\ ahead st = [].
Proof.
  cbn [rmatch]. destruct (ahead st); cbn; split.
  - intros [<-|[]]. now split.
  - intros [-> _]. now left.
  - intros [].
  - intros [_ H]. discriminate.
Qed.

Lemma not_nil_in {A} (l : list A) : l <> [] <-> exists x, In x l.
Proof.
  destruct l as [|a l]; split.
  - congruence.
  - intros (x & []).
  - intros _. exists a. now left.
  - discriminate.
Qed.

Lemma match_here_some r sn ah :
  match_here r sn ah <> None <-> exists x, In x (rmatch r (MState sn ah [])).
Proof.
  rewrite <- not_nil_in. unfold match_here.
  destruct (rmatch r _); split; congruence.
Qed.

(** A literal under the [i] flag takes as many characters as it has, each
    equal to its own up to case. *)
Lemma rmatch_lit_ci_inv w : forall st x,
  In x (rmatch (lit_ci w) st) ->
  exists w', ahead st = w' ++ ahead x /\ seen x = rev w' ++ seen st
             /\ Forall2 (fun d c => to_lower d = to_lower c) w' w.
Proof.
  induction w as [|c w IH]; intros [sn ah cs] x Hx.
  - cbn in Hx. destruct Hx as [<-|[]]. exists []. repeat split. constructor.
  - cbn [lit_ci] in Hx. apply in_rmatch_seq in Hx as (y & Hy & Hx).
    destruct ah as [|d t]; [destruct Hy|].
    unfold chr_ci in Hy. rewrite rmatch_chr in Hy.
    destruct (N.eqb_spec (to_lower d) (to_lower c)) as [E|]; [|destruct Hy].
    destruct Hy as [<-|[]].
    destruct (IH _ _ Hx) as (w' & Ha & Hs & Hf). cbn [ahead seen] in *.
    exists (d :: w'). split; [now rewrite Ha|]. split.
    + rewrite Hs. cbn [rev]. now rewrite <- app_assoc.
    + now constructor.
Qed.

Lemma ci_alpha_word c d :
  is_alpha c = true -> to_lower d = to_lower c -> is_word d = true.
Proof.
  unfold is_word, is_alpha, to_lower, is_upper, is_lower, is_digit, in_range.
  intros Hc E.
  repeat match goal with
         | H : context [(?a <=? ?b)] |- _ =>
             destruct (N.leb_spec a b); cbn in H
         | |- context [(?a <=? ?b)] => destruct (N.leb_spec a b); cbn
         end; try reflexivity; try discriminate; lia.
Qed.

Lemma ci_all_word w' w :
  Forall2 (fun d c => to_lower d = to_lower c) w' w ->
  forallb is_alpha w = true -> forallb is_word w' = true.
Proof.
  induction 1 as [|d c w' w E _ IH]; [reflexivity|].
  cbn [forallb]. intros H. apply andb_true_iff in H as [Hc Hw].
  now rewrite (ci_alpha_word c d Hc E), IH.
Qed.

(** A word of letters matched at the start of the input and up to its
    end stands between two word boundaries. *)
Lemma lit_ci_bounded w st x :
  w <> [] -> forallb is_alpha w = true ->
  In x (rmatch (lit_ci w) st) -> seen st = [] -> ahead x = [] ->
  at_word_boundary st = true /\ at_word_boundary x = true.
Proof.
  intros Hne Hw Hx Hs Ha.
  destruct (rmatch_lit_ci_inv _ _ _ Hx) as (w' & Eah & Esn & Hf).
  pose proof (ci_all_word _ _ Hf Hw) as Hw'.
  assert (Hne' : w' <> []).
  { intros ->. inversion Hf. congruence. }
  unfold at_word_boundary. rewrite Hs, Ha, Eah, Esn, Ha, Hs, !app_nil_r.
  destruct w' as [|d w']; [congruence|]. cbn [head_is forallb] in *.
  apply andb_true_iff in Hw' as [Hd Hw'].
  rewrite Hd. split; [reflexivity|].
  assert (Hl : head_is is_word (rev (d :: w')) = true).
  { destruct (rev (d :: w')) eqn:Er.
    - apply (f_equal (@length N)) in Er. rewrite length_rev in Er. discriminate.
    - cbn [forallb head_is] in *.
      assert (H : forallb is_word (n :: l) = true).
      { rewrite <- Er, forallb_rev. cbn [forallb]. now rewrite Hd, Hw'. }
      cbn [forallb] in H. now apply andb_true_iff in H as [-> _]. }
  now rewrite Hl.
Qed.

Lemma search_all_none r : forall ah sn,
  (forall p1 p2, ah = p1 ++ p2 -> match_here r (rev p1 ++ sn) p2 = None) ->
  search_from r sn ah = None.
Proof.
  induction ah as [|c ah IH]; intros sn H.
  - pose proof (H [] [] eq_refl) as H0. cbn [rev app] in H0.
    cbn [search_from]. now rewrite H0.
  - pose proof (H [] (c :: ah) eq_refl) as H0. cbn [rev app] in H0.
    cbn [search_from]. rewrite H0.
    apply IH. intros p1 p2 ->. specialize (H (c :: p1) p2 eq_refl).
    cbn [rev] in H. now rewrite <- app_assoc in H.
Qed.

(** A pattern that matches wherever another one does is found in every
    string the other is found in. *)
Lemma test_mono r1 r2 s :
  (forall sn ah, match_here r1 sn ah <> None -> match_here r2 sn ah <> None) ->
  test r1 s = true -> test r2 s = true.
Proof.
  intros Hm H1. destruct (test r2 s) eqn:H2; [reflexivity|].
  apply test_false in H2. pose proof (search_none _ _ _ H2) as Hn.
  unfold test, exec in H1. rewrite search_all_none in H1; [discriminate|].
  intros p1 p2 E. specialize (Hn p1 p2 E).
  destruct (match_here r1 (rev p1 ++ []) p2) eqn:E1; [|reflexivity].
  exfalso. apply (Hm (rev p1 ++ []) p2); [now rewrite E1 | exact Hn].
Qed.

Lemma at_word_boundary_set_cap i st x :
  at_word_boundary (set_cap i st x) = at_word_boundary x.
Proof. reflexivity. Qed.

Lemma in_bounded_group A st x :
  In x (rmatch (seqs [WordB; Grp 1 A; WordB]) st)
  <-> at_word_boundary st = true
      /\ exists y, In y (rmatch A st) /\ x = set_cap 1 st y
                   /\ at_word_boundary y = true.
Proof.
  cbn [seqs]. rewrite in_rmatch_seq. split.
  - intros (y & Hy & Hx). apply in_rmatch_wordb in Hy as [-> Hb].
    apply in_rmatch_seq in Hx as (z & Hz & Hx).
    apply in_rmatch_grp in Hz as (y & Hy & ->).
    apply in_rmatch_wordb in Hx as [-> Hb'].
    split; [exact Hb|]. exists y. now repeat split.
  - intros (Hb & y & Hy & -> & Hb'). exists st. split.
    + now apply in_rmatch_wordb.
    + apply in_rmatch_seq. exists (set_cap 1 st y). split.
      * apply in_rmatch_grp. now exists y.
      * now apply in_rmatch_wordb.
Qed.

Lemma in_line_group A st x :
  In x (rmatch (seqs [Bol; Grp 1 A; Eol]) st)
  <-> seen st = []
      /\ exists y, In y (rmatch A st) /\ x = set_cap 1 st y /\ ahead y = [].
Proof.
  cbn [seqs]. rewrite in_rmatch_seq. split.
  - intros (y & Hy & Hx). apply in_rmatch_bol in Hy as [-> Hb].
    apply in_rmatch_seq in Hx as (z & Hz & Hx).
    apply in_rmatch_grp in Hz as (y & Hy & ->).
    apply in_rmatch_eol in Hx as [-> Hb'].
    split; [exact Hb|]. exists y. now repeat split.
  - intros (Hb & y & Hy & -> & Hb'). exists st. split.
    + now apply in_rmatch_bol.
    + apply in_rmatch_seq. exists (set_cap 1 st y). split.
      * apply in_rmatch_grp. now exists y.
      * now apply in_rmatch_eol.
Qed.

Lemma alts_cons r r' rs : alts (r :: r' :: rs) = Alt r (alts (r' :: rs)).
Proof. reflexivity. Qed.

Lemma alts_one r : alts [r] = r.
Proof. reflexivity. Qed.

Ltac unfold_alts :=
  repeat rewrite alts_cons in *; repeat rewrite alts_one in *.

(** Whatever carries a promotion badge carries a badge. *)
Lemma promo_badge_any s : test re_promo s = true -> test re_badge_any s = true.
Proof.
  apply test_mono. intros sn ah. rewrite !match_here_some.
  intros (x & Hx). unfold re_promo in Hx. unfold re_badge_any.
  apply in_bounded_group in Hx as (Hb & y & Hy & -> & Hb').
  exists (set_cap 1 (MState sn ah []) y). apply in_bounded_group.
  split; [exact Hb|]. exists y. split; [|now split].
  unfold_alts. rewrite !in_rmatch_alt. rewrite in_rmatch_alt in Hy.
  tauto.
Qed.

(** A line that is a date badge carries a badge. *)
Lemma badge_line_any s :
  test re_badge_line s = true -> test re_badge_any s = true.
Proof.
  apply test_mono. intros sn ah. rewrite !match_here_some.
  intros (x & Hx). unfold re_badge_line in Hx. unfold re_badge_any.
  apply in_line_group in Hx as (Hs & y & Hy & -> & Ha).
  cbn [seen] in Hs.
  exists (set_cap 1 (MState sn ah []) y). apply in_bounded_group.
  unfold_alts. rewrite !in_rmatch_alt in Hy.
  assert (Hb : at_word_boundary (MState sn ah []) = true
               /\ at_word_boundary y = true).
  { destruct Hy as [Hy|[Hy|Hy]];
      eapply lit_ci_bounded; try exact Hy; try exact Ha; try exact Hs;
        try reflexivity; discriminate. }
  destruct Hb as [Hb Hb'].
  split; [exact Hb|]. exists y. split; [|now split].
  rewrite !in_rmatch_alt. tauto.
Qed.

(** ** What a listing card yields *)

Lemma str_eqb_refl s : str_eqb s s = true.
Proof. unfold str_eqb. now apply bool_decide_eq_true_2. Qed.

Lemma card_category_nil (card : option node) :
  s_category (extractFromListingCard card) = [].
Proof.
  unfold extractFromListingCard.
  destruct (meta_of_lines _) as [job_type location]. cbn [s_category].
  rewrite card_lines_eq.
  set (L := cleanText (from_option text [] card)).
  set (t := cleanText (from_option text [] (card ≫= find_desc is_listing_anchor))).
  destruct (nonempty L); [|reflexivity].
  unfold category_of_lines, company_of_lines. cbn [List.find].
  pose proof (badge_line_any L) as H2. pose proof (promo_badge_any L) as H3.
  destruct (str_eqb L t) eqn:E1; cbn [negb andb orb default]; [reflexivity|].
  destruct (test re_badge_line L); cbn [negb andb orb default];
    [rewrite (H2 eq_refl), !andb_false_r; reflexivity|].
  destruct (test re_promo L); cbn [negb andb orb default];
    [rewrite (H3 eq_refl), !andb_false_r; reflexivity|].
  destruct (test re_currency_amount L); cbn [negb andb orb default];
    [rewrite !andb_false_r; reflexivity|].
  destruct (test re_job_type L); cbn [negb andb orb default];
    [rewrite !andb_false_r; reflexivity|].
  rewrite ?E1, str_eqb_refl. reflexivity.
Qed.

(** X5.  The category is the first line that is neither the title nor the
    company and carries no badge, amount or job type.  A card has one
    line; when that line passes these tests it has passed those for the
    company, and is the company: no card yields a category. *)
Theorem listing_card_category (card : option node) :
  s_category (extractFromListingCard card) = [].
Proof. exact (card_category_nil card). Qed.

(** X6.  The company read from a card is the whole normalised text of the
    card, which then differs from the title, or nothing. *)
Theorem listing_card_company (card : option node) :
  s_company (extractFromListingCard card) = []
  \/ (s_company (extractFromListingCard card)
      = cleanText (from_option text [] card)
      /\ s_company (extractFromListingCard card)
         <> s_title (extractFromListingCard card)).
Proof.
  unfold extractFromListingCard.
  destruct (meta_of_lines _) as [job_type location].
  cbn [s_company s_title].
  rewrite card_lines_eq.
  set (L := cleanText (from_option text [] card)).
  set (t := cleanText (from_option text [] (card ≫= find_desc is_listing_anchor))).
  destruct (nonempty L); [|now left].
  unfold company_of_lines. cbn [List.find].
  destruct (str_eqb L t) eqn:E1; cbn [negb andb default]; [now left|].
  destruct (negb (test re_badge_line L) && negb (test re_promo L)
            && negb (test re_currency_amount L) && negb (test re_job_type L));
    cbn [default]; [|now left].
  right. split; [reflexivity|].
  unfold str_eqb in E1. now apply bool_decide_eq_false in E1.
Qed.

(** ** Replacing single characters *)

Lemma match_here_chr p sn ah :
  match_here (Chr p) sn ah
  = match ah with
    | c :: t => if p c then Some (RResult (rev sn) [c] t []) else None
    | [] => None
    end.
Proof.
  unfold match_here. destruct ah as [|c t]; [reflexivity|].
  rewrite rmatch_chr. destruct (p c); [|reflexivity].
  unfold result_of. cbn [seen ahead caps length].
  replace (S (length t) - length t)%nat with 1%nat by lia. reflexivity.
Qed.

Lemma replace_from_chr p y : forall fuel sn ah,
  (length ah < fuel)%nat ->
  replace_from fuel (Chr p) (fun _ => y) sn ah
  = flat_map (fun c => if p c then y else [c]) ah.
Proof.
  induction fuel as [|fuel IH]; intros sn ah Hf; [lia|].
  cbn [replace_from]. rewrite match_here_chr.
  destruct ah as [|c t]; [reflexivity|]. cbn [length] in Hf.
  cbn [flat_map]. destruct (p c); cbn [m_text m_post].
  - rewrite IH by lia. reflexivity.
  - rewrite IH by lia. reflexivity.
Qed.

Lemma replace_all_chr p y s :
  replace_all (Chr p) (fun _ => y) s
  = flat_map (fun c => if p c then y else [c]) s.
Proof. apply replace_from_chr. lia. Qed.

(** ** [deEllipsize] *)

Lemma deEllipsize_flat s :
  deEllipsize s = flat_map (fun c => if 8230 =? c then js "..." else [c]) s.
Proof. apply replace_all_chr. Qed.

Lemma flat_map_id {A} (g : A -> list A) (q : A -> bool) l :
  (forall c, q c = true -> g c = [c]) -> forallb q l = true ->
  flat_map g l = l.
Proof.
  intros Hg. induction l as [|a l IH]; [reflexivity|].
  cbn [forallb flat_map]. intros H. apply andb_true_iff in H as [Ha Hl].
  now rewrite (Hg a Ha), IH.
Qed.

(** X7.  [deEllipsize] leaves no ellipsis character, changes nothing
    else, is idempotent, and lengthens the text by two characters for
    every ellipsis. *)
Theorem deEllipsize_no_ellipsis (s : str) :
  forallb (fun c => negb (c =? 8230)) (deEllipsize s) = true
  /\ (forallb (fun c => negb (c =? 8230)) s = true -> deEllipsize s = s)
  /\ deEllipsize (deEllipsize s) = deEllipsize s
  /\ length (deEllipsize s)
     = (length s + 2 * length (List.filter (N.eqb 8230) s))%nat.
Proof.
  assert (H1 : forall s, forallb (fun c => negb (c =? 8230)) (deEllipsize s) = true).
  { intros t. rewrite deEllipsize_flat.
    induction t as [|c t IH]; [reflexivity|].
    cbn [flat_map]. rewrite forallb_app, IH, andb_true_r.
    destruct (N.eqb_spec 8230 c) as [<-|Hne]; [reflexivity|].
    cbn. destruct (N.eqb_spec c 8230); [congruence | reflexivity]. }
  assert (H2 : forall s, forallb (fun c => negb (c =? 8230)) s = true ->
                         deEllipsize s = s).
  { intros t Ht. rewrite deEllipsize_flat.
    apply (flat_map_id _ (fun c => negb (c =? 8230))); [|exact Ht].
    intros c Hc. destruct (N.eqb_spec 8230 c) as [<-|]; [discriminate|reflexivity]. }
  split; [apply H1|]. split; [apply H2|]. split; [apply H2, H1|].
  rewrite deEllipsize_flat. induction s as [|c s IH]; [reflexivity|].
  cbn [flat_map List.filter]. rewrite length_app, IH.
  destruct (8230 =? c); cbn [length js N_of_ascii N_of_digits]; lia.
Qed.

(** ** [humanize_type] *)

Ltac split_ranges :=
  repeat match goal with
         | H : context [(?a <=? ?b)] |- _ =>
             destruct (N.leb_spec a b); cbn in H
         | H : context [(?a =? ?b)] |- _ =>
             destruct (N.eqb_spec a b); cbn in H
         | |- context [(?a <=? ?b)] => destruct (N.leb_spec a b); cbn
         | |- context [(?a =? ?b)] => destruct (N.eqb_spec a b); cbn
         end.

Lemma to_upper_not_lower c : is_lower (to_upper c) = false.
Proof.
  unfold to_upper. destruct (is_lower c) eqn:E; [|exact E].
  unfold is_lower, in_range in *. split_ranges; try reflexivity; try discriminate; lia.
Qed.

Lemma to_upper_idem c : to_upper (to_upper c) = to_upper c.
Proof. unfold to_upper at 1. now rewrite to_upper_not_lower. Qed.

Lemma to_upper_id c : is_lower c = false -> to_upper c = c.
Proof. unfold to_upper. now intros ->. Qed.

Lemma is_word_to_upper c : is_word (to_upper c) = is_word c.
Proof.
  unfold to_upper. destruct (is_lower c) eqn:E; [|reflexivity].
  unfold is_word, is_alpha, is_upper, is_lower, is_digit, in_range in *.
  split_ranges; try reflexivity; try discriminate; lia.
Qed.

Lemma to_upper_not_underscore c : c <> 95 -> to_upper c <> 95.
Proof.
  unfold to_upper. destruct (is_lower c) eqn:E; [|auto].
  unfold is_lower, in_range in E. split_ranges; try discriminate. lia.
Qed.

Lemma match_here_word_start sn ah :
  match_here (Seq WordB (Chr is_word)) sn ah
  = match ah with
    | c :: t => if is_word c && negb (head_is is_word sn)
                then Some (RResult (rev sn) [c] t []) else None
    | [] => None
    end.
Proof.
  unfold match_here. rewrite rmatch_seq. cbn [rmatch].
  unfold at_word_boundary. cbn [seen ahead].
  destruct ah as [|c t].
  - destruct (xorb _ _); reflexivity.
  - cbn [head_is]. destruct (is_word c) eqn:Hc, (head_is is_word sn);
      cbn [xorb negb andb flat_map app rmatch ahead seen caps];
      rewrite ?Hc; try reflexivity.
    cbn [app]. unfold result_of. cbn [seen ahead caps length].
    replace (S (length t) - length t)%nat with 1%nat by lia. reflexivity.
Qed.

Lemma replace_from_word_start : forall fuel sn ah,
  (length ah < fuel)%nat ->
  replace_from fuel (Seq WordB (Chr is_word))
               (fun m => List.map to_upper (m_text m)) sn ah
  = capitalise (head_is is_word sn) ah.
Proof.
  induction fuel as [|fuel IH]; intros sn ah Hf; [lia|].
  cbn [replace_from]. rewrite match_here_word_start.
  destruct ah as [|c t]; [reflexivity|]. cbn [length] in Hf.
  cbn [capitalise].
  destruct (is_word c && negb (head_is is_word sn)); cbn [m_text m_post List.map app rev].
  - rewrite IH by lia. reflexivity.
  - rewrite IH by lia. reflexivity.
Qed.

Lemma humanize_type_eq s :
  humanize_type s = capitalise false (List.map underscore_to_space s).
Proof.
  unfold humanize_type. unfold replace_all at 1.
  rewrite replace_from_word_start by lia. cbn [head_is]. f_equal.
  unfold chr. rewrite replace_all_chr.
  induction s as [|c s IH]; [reflexivity|].
  cbn [flat_map List.map]. rewrite IH. unfold underscore_to_space, space.
  rewrite (N.eqb_sym 95 c). now destruct (c =? 95).
Qed.

Lemma capitalise_length prev s : length (capitalise prev s) = length s.
Proof.
  revert prev. induction s as [|c s IH]; intros prev; [reflexivity|].
  cbn [capitalise length]. now rewrite IH.
Qed.

Lemma capitalise_idem s : forall prev,
  capitalise prev (capitalise prev s) = capitalise prev s.
Proof.
  induction s as [|c s IH]; intros prev; [reflexivity|].
  cbn [capitalise].
  destruct (is_word c && negb prev) eqn:E.
  - rewrite is_word_to_upper, E, to_upper_idem, IH. reflexivity.
  - rewrite E, IH. reflexivity.
Qed.

Lemma capitalise_no_lower s : forall prev,
  forallb (fun c => negb (is_lower c)) s = true -> capitalise prev s = s.
Proof.
  induction s as [|c s IH]; intros prev H; [reflexivity|].
  cbn [capitalise forallb] in *. apply andb_true_iff in H as [Hc Hs].
  rewrite (IH _ Hs). apply negb_true_iff in Hc.
  rewrite (to_upper_id c Hc). now destruct (is_word c && negb prev).
Qed.

Lemma capitalise_no_underscore s : forall prev,
  forallb (fun c => negb (c =? 95)) s = true ->
  forallb (fun c => negb (c =? 95)) (capitalise prev s) = true.
Proof.
  induction s as [|c s IH]; intros prev H; [reflexivity|].
  cbn [capitalise forallb] in *. apply andb_true_iff in H as [Hc Hs].
  rewrite (IH _ Hs), andb_true_r.
  destruct (is_word c && negb prev); [|exact Hc].
  apply negb_true_iff, N.eqb_neq in Hc.
  apply negb_true_iff, N.eqb_neq. now apply to_upper_not_underscore.
Qed.

Lemma underscore_to_space_none s :
  forallb (fun c => negb (c =? 95)) (List.map underscore_to_space s) = true.
Proof.
  induction s as [|c s IH]; [reflexivity|].
  cbn [List.map forallb]. rewrite IH, andb_true_r.
  unfold underscore_to_space. destruct (N.eqb_spec c 95) as [->|Hne]; [reflexivity|].
  now apply negb_true_iff, N.eqb_neq.
Qed.

Lemma underscore_to_space_id s :
  forallb (fun c => negb (c =? 95)) s = true ->
  List.map underscore_to_space s = s.
Proof.
  induction s as [|c s IH]; [reflexivity|].
  cbn [List.map forallb]. intros H. apply andb_true_iff in H as [Hc Hs].
  rewrite (IH Hs). unfold underscore_to_space.
  apply negb_true_iff in Hc. now rewrite Hc.
Qed.

(** X8.  The re-casing of an employment type keeps the length, leaves no
    underscore, and is idempotent. *)
Theorem humanize_type_shape (empType : str) :
  length (humanize_type empType) = length empType
  /\ forallb (fun c => negb (c =? 95)) (humanize_type empType) = true
  /\ humanize_type (humanize_type empType) = humanize_type empType.
Proof.
  rewrite !humanize_type_eq.
  pose proof (capitalise_no_underscore _ false
                (underscore_to_space_none empType)) as Hn.
  split; [now rewrite capitalise_length, length_map|].
  split; [exact Hn|].
  rewrite (underscore_to_space_id _ Hn).
  apply capitalise_idem.
Qed.

(** X9.  The re-casing of an employment type changes an underscore and
    the lower-case letter a word starts with, and nothing else: a type
    without lower-case letters, such as [FULL_TIME], keeps its capitals
    and only has its underscores turned into spaces. *)
Theorem humanize_type_keeps_capitals (empType : str) :
  forallb (fun c => negb (is_lower c)) empType = true ->
  humanize_type empType = List.map underscore_to_space empType.
Proof.
  intros H. rewrite humanize_type_eq. apply capitalise_no_lower.
  induction empType as [|c s IH]; [reflexivity|].
  cbn [List.map forallb] in *. apply andb_true_iff in H as [Hc Hs].
  rewrite (IH Hs), andb_true_r. unfold underscore_to_space.
  destruct (c =? 95); [reflexivity | exact Hc].
Qed.

Lemma humanize_type_keeps_capitals_witness :
  humanize_type (js "FULL_TIME") = js "FULL TIME".
Proof.
  exact (humanize_type_keeps_capitals (js "FULL_TIME") eq_refl).
Defined.

(** ** Amounts *)

Lemma digits_acc u : forall acc : positive,
  fold_left (fun a c => a * 10 + (c - 48)) (uint_str u) (N.pos acc)
  = N.pos (Pos.of_uint_acc u acc).
Proof.
  induction u as [|u IH|u IH|u IH|u IH|u IH|u IH|u IH|u IH|u IH|u IH];
    intros acc; cbn [uint_str fold_left Pos.of_uint_acc];
    [reflexivity|..];
    rewrite <- IH; f_equal; lia.
Qed.

Lemma digits_value_uint u : digits_value (uint_str u) = N.of_uint u.
Proof.
  unfold digits_value, N.of_uint.
  induction u as [|u IH|u IH|u IH|u IH|u IH|u IH|u IH|u IH|u IH|u IH];
    cbn [uint_str fold_left Pos.of_uint];
    [reflexivity | exact IH | ..];
    rewrite <- digits_acc; f_equal.
Qed.

Lemma digits_value_dec n : digits_value (dec n) = n.
Proof.
  unfold dec. rewrite digits_value_uint. apply DecimalN.Unsigned.of_to.
Qed.

Lemma uint_str_digits u : forallb is_digit (uint_str u) = true.
Proof. induction u; cbn [uint_str forallb]; rewrite ?IHu; reflexivity. Qed.

Lemma list_ind3 {A} (P : list A -> Prop) :
  P [] -> (forall a, P [a]) -> (forall a b, P [a; b]) ->
  (forall a b c, P [a; b; c]) ->
  (forall a b c d l, P (d :: l) -> P (a :: b :: c :: d :: l)) ->
  forall l, P l.
Proof.
  intros H0 H1 H2 H3 H4 l.
  assert (H : forall n l, (length l <= n)%nat -> P l).
  { induction n as [|n IH]; intros [|a [|b [|c [|d k]]]] Hl; cbn in Hl;
      try lia; auto.
    apply H4. apply IH. cbn. lia. }
  apply (H (length l)). lia.
Qed.

Lemma group3_drop_comma l :
  flat_map drop_comma (group3 l) = flat_map drop_comma l.
Proof.
  induction l as [|a|a b|a b c|a b c d l IH] using list_ind3;
    try reflexivity.
  change (group3 (a :: b :: c :: d :: l))
    with (a :: b :: c :: 44 :: group3 (d :: l)).
  cbn [flat_map]. rewrite IH. reflexivity.
Qed.

Lemma drop_comma_rev l :
  flat_map drop_comma (rev l) = rev (flat_map drop_comma l).
Proof.
  induction l as [|c l IH]; [reflexivity|].
  cbn [rev flat_map]. rewrite flat_map_app, IH, rev_app_distr.
  cbn [flat_map]. rewrite app_nil_r. unfold drop_comma.
  now destruct (44 =? c).
Qed.

Lemma drop_comma_digits l : forallb is_digit l = true -> flat_map drop_comma l = l.
Proof.
  apply flat_map_id. intros c Hc. unfold drop_comma.
  destruct (N.eqb_spec 44 c) as [<-|]; [discriminate | reflexivity].
Qed.

Lemma amount_of_eq s : amount_of s = parseInt (flat_map drop_comma s).
Proof. unfold amount_of, chr. now rewrite replace_all_chr. Qed.

(** X10.  Reading back what [toLocaleString] writes gives the amount:
    [Number(n.toLocaleString().replace(/,/g, '')) = n]. *)
Theorem amount_round_trip (n : N) :
  n < safe_bound -> amount_of (toLocaleString (Finite n)) = Finite n.
Proof.
  intros Hn. rewrite amount_of_eq, toLocaleString_small by assumption.
  rewrite drop_comma_rev, group3_drop_comma, <- drop_comma_rev, rev_involutive.
  rewrite drop_comma_digits by apply uint_str_digits.
  unfold parseInt. rewrite digits_value_dec. now apply to_number_small.
Qed.

Lemma amount_round_trip_witness :
  150000 < safe_bound /\ amount_of (js "150,000") = Finite 150000.
Proof.
  split; [reflexivity|]. exact (amount_round_trip 150000 eq_refl).
Defined.

(** ** What a match is made of *)

Lemma moved_refl st : moved st st [].
Proof. split; reflexivity. Qed.

Lemma moved_trans st y x w1 w2 :
  moved st y w1 -> moved y x w2 -> moved st x (w1 ++ w2).
Proof.
  intros [H1 H2] [H3 H4]. split.
  - now rewrite H1, H3, app_assoc.
  - now rewrite H4, H2, rev_app_distr, app_assoc.
Qed.

Lemma rep_loop_moved body gs :
  (forall st x, In x (body st) -> exists w, moved st x w) ->
  forall fuel lo hi st x,
    In x (rep_loop body gs fuel lo hi st) -> exists w, moved st x w.
Proof.
  intros Hbody. induction fuel as [|fuel IH]; intros lo hi st x Hx.
  - cbn in Hx. destruct lo; [|destruct Hx]. destruct Hx as [<-|[]].
    exists []. apply moved_refl.
  - cbn [rep_loop] in Hx. apply in_app_or in Hx as [Hx|Hx].
    + assert (Hmore : In x (flat_map
               (fun st' =>
                  if Nat.eqb lo 0
                     && Nat.eqb (length (ahead st')) (length (ahead st))
                  then []
                  else rep_loop body gs fuel (Nat.pred lo)
                                (option_map Nat.pred hi) st')
               (body (clear_caps gs st)))).
      { destruct hi as [[|h]|]; [destruct Hx | exact Hx | exact Hx]. }
      apply in_flat_map in Hmore as (y & Hy & Hxy).
      destruct (_ && _); [destruct Hxy|].
      apply IH in Hxy as (w2 & H2). apply Hbody in Hy as (w1 & H1).
      exists (w1 ++ w2). eapply moved_trans; [|exact H2].
      destruct st as [sn ah cs]. exact H1.
    + destruct lo; [|destruct Hx]. destruct Hx as [<-|[]].
      exists []. apply moved_refl.
Qed.

(** Every result of the matcher lies further on in the same input. *)
Lemma rmatch_moved r : forall st x,
  In x (rmatch r st) -> exists w, moved st x w.
Proof.
  induction r as [|p|r1 IH1 r2 IH2|r1 IH1 r2 IH2|lo hi r IH|j r IH| | |];
    intros st x Hx.
  - destruct Hx as [<-|[]]. exists []. apply moved_refl.
  - cbn in Hx. destruct st as [sn [|c t] cs]; [destruct Hx|]. cbn in Hx.
    destruct (p c); [|destruct Hx]. destruct Hx as [<-|[]].
    exists [c]. split; reflexivity.
  - apply in_rmatch_seq in Hx as (y & Hy & Hx).
    apply IH1 in Hy as (w1 & H1). apply IH2 in Hx as (w2 & H2).
    exists (w1 ++ w2). eapply moved_trans; eauto.
  - apply in_rmatch_alt in Hx as [Hx|Hx]; auto.
  - cbn [rmatch] in Hx. eapply rep_loop_moved in Hx; eauto.
  - apply in_rmatch_grp in Hx as (y & Hy & ->).
    apply IH in Hy as (w & H). exists w. exact H.
  - apply in_rmatch_wordb in Hx as [-> _]. exists []. apply moved_refl.
  - apply in_rmatch_bol in Hx as [-> _]. exists []. apply moved_refl.
  - apply in_rmatch_eol in Hx as [-> _]. exists []. apply moved_refl.
Qed.

Lemma match_here_parts r sn ah m :
  match_here r sn ah = Some m ->
  m_pre m = rev sn /\ ah = m_text m ++ m_post m.
Proof.
  unfold match_here. destruct (rmatch r _) as [|x l] eqn:E; [discriminate|].
  intros H. injection H as <-.
  assert (Hx : In x (rmatch r (MState sn ah []))) by (rewrite E; now left).
  apply rmatch_moved in Hx as (w & Hw & _). cbn [ahead] in Hw.
  unfold result_of. cbn [m_pre m_text m_post seen ahead]. split; [reflexivity|].
  rewrite Hw at 1 2 3. rewrite take_minus_suffix. reflexivity.
Qed.

Lemma search_from_parts r : forall ah sn m,
  search_from r sn ah = Some m ->
  rev sn ++ ah = m_pre m ++ m_text m ++ m_post m.
Proof.
  induction ah as [|c ah IH]; intros sn m H; cbn [search_from] in H.
  - destruct (match_here r sn []) eqn:Hm; [|discriminate].
    injection H as <-. apply match_here_parts in Hm as [-> <-]. reflexivity.
  - destruct (match_here r sn (c :: ah)) eqn:Hm.
    + injection H as <-. apply match_here_parts in Hm as [-> <-]. reflexivity.
    + apply IH in H. cbn [rev] in H. now rewrite <- app_assoc in H.
Qed.

(** A match cuts the string in three: what is before it, the match, and
    what is after it. *)
Lemma exec_parts r s m :
  exec r s = Some m -> s = m_pre m ++ m_text m ++ m_post m.
Proof. intros H. now apply search_from_parts in H. Qed.

(** ** The date a page states *)

(** X11.  [extractDatePosted] answers a piece of the normalised text it
    read, and reads the body only when the header scope has no text at
    all. *)
Theorem extractDatePosted_substring (scope body : option node) (d : str) :
  extractDatePosted scope body = Some d ->
  (exists pre post,
      or_str (cleanText (from_option text [] scope))
             (cleanText (from_option text [] body)) = pre ++ d ++ post)
  /\ (nonempty (cleanText (from_option text [] scope)) = true ->
      forall body', extractDatePosted scope body' = Some d).
Proof.
  unfold extractDatePosted. intros H. split.
  - set (txt := or_str _ _) in *.
    destruct (nonempty txt); [|discriminate].
    destruct (exec re_ago txt) as [m|] eqn:E1.
    { injection H as <-. exists (m_pre m), (m_post m).
      exact (exec_parts _ _ _ E1). }
    destruct (exec re_day_word txt) as [m|] eqn:E2.
    { injection H as <-. exists (m_pre m), (m_post m).
      exact (exec_parts _ _ _ E2). }
    destruct (exec re_iso_date txt) as [m|] eqn:E3; [|discriminate].
    injection H as <-. exists (m_pre m), (m_post m).
    exact (exec_parts _ _ _ E3).
  - intros Hs body'. unfold or_str in *. rewrite Hs in *. exact H.
Qed.

Lemma extractDatePosted_substring_witness :
  exists pre post,
    js "Posted 3 days ago by Acme" = pre ++ js "3 days ago" ++ post.
Proof.
  exact (proj1 (extractDatePosted_substring
                  (Some (el "header" [Text (js "Posted 3 days ago by Acme")]))
                  None (js "3 days ago") ltac:(vm_compute; reflexivity))).
Defined.

(** ** What the sanitiser leaves *)

Lemma node_ind' (P : node -> Prop) :
  (forall d, P (Text d)) -> (forall d, P (Comment d)) ->
  (forall k name as_ cs, Forall P cs -> P (Elem k name as_ cs)) ->
  forall n, P n.
Proof.
  intros Ht Hc He. fix IH 1. intros [d|d|k name as_ cs].
  - apply Ht.
  - apply Hc.
  - apply He. induction cs as [|c cs IHcs]; constructor; [apply IH | exact IHcs].
Qed.

Lemma Forall_flat_map_inv {A B} (Q : B -> Prop) (f : A -> list B) l a :
  Forall Q (flat_map f l) -> In a l -> Forall Q (f a).
Proof.
  intros H Ha. rewrite List.Forall_forall in H |- *. intros b Hb.
  apply H, in_flat_map. eauto.
Qed.

Lemma texts_not_elem l n :
  forallb is_text l = true -> In n l -> is_elem n = true -> False.
Proof.
  intros H Hn He. rewrite forallb_forall in H. specialize (H n Hn).
  destruct n; discriminate.
Qed.

Lemma attribs_reset U base name as_ :
  reset_from U base name as_
    (let isAnchor := str_eqb (lower name) (js "a") in
     let href := if isAnchor then or_else (assoc (js "href") as_) [] else [] in
     if isAnchor && nonempty href
     then match toAbs U href base with
          | Some abs => if nonempty abs then [(js "href", abs)] else []
          | None => []
          end
     else []).
Proof.
  unfold reset_from. cbv zeta.
  destruct (str_eqb (lower name) (js "a")) eqn:Ea; cbn [andb]; [|now left].
  destruct (assoc (js "href") as_) as [href|] eqn:Eh;
    cbn [or_else nonempty]; [|now left].
  replace (or_str href []) with href by (now destruct href).
  destruct (nonempty href) eqn:Hh; [|now left].
  unfold toAbs. destruct (U href base) as [abs|] eqn:EU; [|now left].
  destruct (nonempty abs) eqn:Hn; [|now left].
  right. split.
  { unfold str_eqb in Ea. now apply bool_decide_eq_true in Ea. }
  exists href, abs. auto.
Qed.

(** The first traversal: an element it leaves is what the sanitiser
    leaves of the element it was given, when the replacement texts parse
    to text. *)
Lemma strip_cleaned U P base : forall n,
  Forall (fun t => forallb is_text (P t) = true) (replaced_texts n) ->
  forall n', In n' (strip U P base n) -> is_elem n' = true ->
             cleaned U base n n'.
Proof.
  induction n as [d|d|k name as_ cs IH] using node_ind'; intros HP n' Hin He.
  - destruct Hin as [<-|[]]. discriminate.
  - destruct Hin as [<-|[]]. discriminate.
  - assert (Hcs : Forall (fun t => forallb is_text (P t) = true)
                         (flat_map replaced_texts cs) ->
                  Forall (fun c' => is_elem c' = true ->
                                    exists c, In c cs /\ cleaned U base c c')
                         (flat_map (strip U P base) cs)).
    { intros HP'. rewrite List.Forall_forall. intros c' Hc' Hec'.
      apply in_flat_map in Hc' as (c & Hc & Hc').
      exists c. split; [exact Hc|].
      rewrite List.Forall_forall in IH.
      exact (IH c Hc (Forall_flat_map_inv _ _ _ _ HP' Hc) c' Hc' Hec'). }
    destruct k; cbn [strip replaced_texts] in *.
    + destruct (mem_str (lower name) allowed) eqn:Hal.
      * destruct Hin as [<-|[]].
        apply cleaned_tag; [exact Hal | apply attribs_reset | exact (Hcs HP)].
      * destruct (nonempty (cleanText _)); [|destruct Hin].
        apply Forall_inv in HP. destruct (texts_not_elem _ _ HP Hin He).
    + destruct Hin as [<-|[]]. apply cleaned_raw; [discriminate | exact (Hcs HP)].
    + destruct Hin as [<-|[]]. apply cleaned_raw; [discriminate | exact (Hcs HP)].
Qed.

Lemma prune_elem n n' : In n' (prune n) -> is_elem n' = true -> is_elem n = true.
Proof.
  destruct n as [d|d|k name as_ cs]; cbn [prune]; try reflexivity.
  - intros [<-|[]] H. exact H.
  - intros [<-|[]] H. exact H.
Qed.

(** The second traversal removes elements and changes none. *)
Lemma prune_cleaned U base : forall n1 n,
  cleaned U base n n1 ->
  forall n2, In n2 (prune n1) -> cleaned U base n n2.
Proof.
  induction n1 as [d|d|k name as' cs' IH] using node_ind';
    intros n Hc n2 Hin; try (inversion Hc; fail).
  assert (Hcs : forall cs,
             Forall (fun c' => is_elem c' = true ->
                               exists c, In c cs /\ cleaned U base c c') cs' ->
             Forall (fun c' => is_elem c' = true ->
                               exists c, In c cs /\ cleaned U base c c')
                    (flat_map prune cs')).
  { intros cs H. rewrite List.Forall_forall in H, IH |- *.
    intros c2 Hc2 He2. apply in_flat_map in Hc2 as (c1 & Hc1 & Hc2).
    destruct (H c1 Hc1 (prune_elem _ _ Hc2 He2)) as (c & Hin' & Hcl).
    exists c. split; [exact Hin'|]. exact (IH c1 Hc1 c Hcl c2 Hc2). }
  assert (Hkeep : cleaned U base n (Elem k name as' (flat_map prune cs'))).
  { inversion Hc; subst.
    - apply cleaned_tag; auto.
    - apply cleaned_raw; auto. }
  destruct k; cbn [prune] in Hin.
  - destruct (str_eqb (lower name) (js "br")).
    + destruct Hin as [<-|[]]. exact Hkeep.
    + destruct (_ && _); [destruct Hin|].
      destruct Hin as [<-|[]]. exact Hkeep.
  - destruct Hin as [<-|[]]. exact Hkeep.
  - destruct Hin as [<-|[]]. exact Hkeep.
Qed.

(** X12.  Where the texts that replace the dropped elements parse to
    text, every element in what [sanitizeDescription] leaves under its
    root stems from an element of the fragment: it has the same name, it
    is on the allow-list when it is of type [tag], it has then no
    attribute but, on an anchor, its own [href] as the URL resolver
    answered it, and the elements among its children stem in the same
    way from children of that element. *)
Theorem sanitize_nodes_tidy (U : str -> str -> option str)
    (P : str -> list node) (fragment : list node) (baseUrl : str) :
  Forall (fun t => forallb is_text (P t) = true)
         (flat_map replaced_texts fragment) ->
  forall n', In n' (sanitize_nodes U P fragment baseUrl) ->
             is_elem n' = true ->
             exists n, In n fragment /\ cleaned U baseUrl n n'.
Proof.
  intros HP n' Hin He. unfold sanitize_nodes in Hin.
  apply in_flat_map in Hin as (n1 & Hn1 & Hin).
  apply in_flat_map in Hn1 as (n & Hn & Hn1).
  exists n. split; [exact Hn|].
  apply (prune_cleaned U baseUrl n1 n); [|exact Hin].
  apply (strip_cleaned U P baseUrl n
           (Forall_flat_map_inv _ _ _ _ HP Hn) n1 Hn1).
  exact (prune_elem _ _ Hin He).
Qed.

Lemma sanitize_nodes_tidy_witness :
  Forall (fun n' => is_elem n' = true ->
                    exists n, In n sample_fragment
                              /\ cleaned resolve_absolute
                                         (js "https://www.jobberman.com/jobs")
                                         n n')
         (sanitize_nodes resolve_absolute parse_text sample_fragment
                         (js "https://www.jobberman.com/jobs")).
Proof.
  apply List.Forall_forall. intros n' Hin.
  apply (sanitize_nodes_tidy resolve_absolute parse_text sample_fragment
           (js "https://www.jobberman.com/jobs")); [|exact Hin].
  repeat constructor.
Defined.

(** What the parser makes of a replacement text is inserted as it is:
    the first traversal does not visit it, and an element that comes out
    of the text keeps its name and its attributes. *)
Lemma sanitize_nodes_reparses U P name as_ cs base k nm as' cs' :
  mem_str (lower name) allowed = false ->
  nonempty (cleanText (text (Elem KTag name as_ cs))) = true ->
  P (cleanText (text (Elem KTag name as_ cs))) = [Elem k nm as' cs'] ->
  nonempty (cleanText (text (Elem k nm as' cs'))) = true ->
  sanitize_nodes U P [Elem KTag name as_ cs] base
  = [Elem k nm as' (flat_map prune cs')].
Proof.
  intros Hal Ht HP Ht'. unfold sanitize_nodes.
  cbn [flat_map strip]. rewrite Hal, Ht, HP. cbn [flat_map app].
  rewrite !app_nil_r. cbn [prune].
  destruct k; try reflexivity.
  rewrite Ht'. cbn [negb andb].
  now destruct (str_eqb (lower nm) (js "br")).
Qed.








(** ** Structured data *)

Lemma find_app_first {A} (f : A -> bool) l1 l2 :
  List.find f (l1 ++ l2)
  = match List.find f l1 with Some x => Some x | None => List.find f l2 end.
Proof.
  induction l1 as [|a l1 IH]; [reflexivity|].
  cbn [app List.find]. destruct (f a); [reflexivity | exact IH].
Qed.

(** X14.  [parseJsonLdJob] answers the first node of type [JobPosting] among
    the candidates of all the blocks in document order, a block that does
    not parse having none; it answers nothing exactly when no candidate
    is of that type. *)
Theorem parseJsonLdJob_first (blocks : list (option ldValue)) :
  parseJsonLdJob blocks
  = List.find is_job (all_candidates blocks) ≫= option_map posting
  /\ (parseJsonLdJob blocks = None
      <-> forallb (fun n => negb (is_job n)) (all_candidates blocks) = true).
Proof.
  assert (H : parseJsonLdJob blocks
              = List.find is_job (all_candidates blocks) ≫= option_map posting).
  { unfold all_candidates.
    induction blocks as [|[v|] blocks IH]; [reflexivity| |exact IH].
    cbn [parseJsonLdJob flat_map from_option]. rewrite find_app_first.
    destruct (List.find is_job (candidates v)) as [n|]; [reflexivity | exact IH]. }
  split; [exact H|]. rewrite H. clear H.
  induction (all_candidates blocks) as [|n l IH]; [now split|].
  cbn [List.find forallb]. destruct (is_job n) eqn:E; cbn [negb andb].
  - destruct n as [n|]; [|discriminate]. cbn. split; discriminate.
  - exact IH.
Qed.

Lemma or_str_idem a b : or_str a (or_str a b) = or_str a b.
Proof. unfold or_str. now destruct (nonempty a). Qed.

Lemma or_else_idem a b : or_else a (or_else a b) = or_else a b.
Proof. destruct a as [a|]; [apply or_str_idem | reflexivity]. Qed.

Lemma or_str_fill a b : or_str (or_str a b) b = or_str a b.
Proof.
  unfold or_str. destruct (nonempty a) eqn:Ea; [now rewrite Ea|].
  now destruct (nonempty b).
Qed.

Lemma enrich_location_idem ld l :
  enrich_location ld (enrich_location ld l) = enrich_location ld l.
Proof.
  unfold enrich_location.
  destruct (match (if truthy_loc (jobLocation ld) then jobLocation ld
                   else jobLocationType ld) with
            | Some (LocPlace p) => address p
            | Some (LocPlaces ps) => head ps ≫= address
            | _ => None
            end) as [a|]; [|reflexivity].
  destruct (truthy (streetAddress a)); [reflexivity|].
  destruct (present _) as [|x xs]; [reflexivity|]. apply or_str_fill.
Qed.

Lemma enrich_salary_idem ld s :
  enrich_salary ld (enrich_salary ld s) = enrich_salary ld s.
Proof.
  unfold enrich_salary. destruct (baseSalary ld) as [sal|]; [|reflexivity].
  destruct (match sal_value sal with
            | Some (SalQuantity q) => _
            | Some (SalNumber n) => _
            | None => _
            end) as [mn mx].
  destruct (truthy_num mn || truthy_num mx); [apply or_str_idem | reflexivity].
Qed.

Lemma enrich_category_idem ld c :
  enrich_category ld (enrich_category ld c) = enrich_category ld c.
Proof.
  unfold enrich_category.
  destruct (nonempty c) eqn:Ec; cbn [negb]; rewrite ?andb_false_r, ?andb_true_r.
  - now rewrite Ec, !andb_false_r.
  - destruct (truthy_many (occupationalCategory ld)) eqn:E1.
    + destruct (nonempty (from_option first_of [] (occupationalCategory ld)));
        cbn [negb andb]; rewrite ?andb_false_r; reflexivity.
    + cbn [andb]. destruct (truthy_many (industry ld)) eqn:E3.
      * destruct (nonempty (from_option first_of [] (industry ld)));
          cbn [negb andb]; reflexivity.
      * now rewrite Ec.
Qed.

(** X15.  Laying the structured data over a record a second time changes
    nothing. *)
Theorem enrichFromJsonLd_idempotent (U : str -> str -> option str)
    (P : str -> list node)
    (jsonLd : option jobPosting) (fs : fields) (baseUrl : str) :
  enrichFromJsonLd U P jsonLd (enrichFromJsonLd U P jsonLd fs baseUrl) baseUrl
  = enrichFromJsonLd U P jsonLd fs baseUrl.
Proof.
  destruct jsonLd as [ld|]; [|reflexivity].
  unfold enrichFromJsonLd.
  destruct (has_description ld);
    cbn [title company job_type location salary_range category
         description_html description_text date_posted];
    rewrite !or_else_idem, enrich_location_idem, enrich_salary_idem,
      enrich_category_idem, ?or_str_idem;
    destruct (truthy_many (employmentType ld)); reflexivity.
Qed.

(** ** The description cascade *)

(** X16.  Whatever the description cascade settles on, the markup and the
    text of the description are those of one and the same element, and
    the text is no shorter than that of the first selector hit. *)
Theorem cascade_description_one_source (U : str -> str -> option str)
    (P : str -> list node)
    (d : detailDoc) (baseUrl : str) :
  (cascade_description U P d baseUrl = ([], [])
   \/ exists n, cascade_description U P d baseUrl = describe U P n baseUrl)
  /\ (forall n, pickFirst (hits_description d) = Some n ->
                (length (cleanText (text n))
                 <= length (snd (cascade_description U P d baseUrl)))%nat).
Proof.
  unfold cascade_description, prefer_longer.
  split.
  - destruct (pickFirst (hits_description d)) as [n0|];
      destruct (too_short _);
      destruct (heading d) as [[[nb|] [pa|]]|];
      repeat match goal with
             | |- context [if ?b then _ else _] => destruct b
             | |- context [match biggest_block d with _ => _ end] =>
                 destruct (biggest_block d)
             end; eauto.
  - intros n ->. cbn [describe snd].
    destruct (too_short _);
      destruct (heading d) as [[[nb|] [pa|]]|];
      repeat match goal with
             | |- context [(?a <? ?b)%nat] => destruct (Nat.ltb_spec a b)
             | |- context [if ?b then _ else _] => destruct b
             | |- context [match biggest_block d with _ => _ end] =>
                 destruct (biggest_block d)
             end; cbn [describe snd] in *; lia.
Qed.

(** ** Links and seeds of a listing page *)

Lemma before_first_single c : forall hay pre,
  before_first [c] hay = Some pre ->
  forallb (fun d => negb (c =? d)) pre = true.
Proof.
  induction hay as [|d hay IH]; intros pre H.
  - cbn in H. discriminate.
  - cbn [before_first is_prefix] in H. rewrite andb_true_r in H.
    destruct (c =? d) eqn:E.
    + injection H as <-. reflexivity.
    + destruct (before_first [c] hay) as [p|]; [|discriminate].
      injection H as <-. cbn [forallb]. rewrite E. cbn. now apply IH.
Qed.

Lemma before_first_absent c : forall s,
  forallb (fun d => negb (c =? d)) s = true -> before_first [c] s = None.
Proof.
  induction s as [|d s IH]; intros H; [reflexivity|].
  cbn [forallb] in H. apply andb_true_iff in H as [Hd Hs].
  cbn [before_first is_prefix]. rewrite andb_true_r.
  apply negb_true_iff in Hd. rewrite Hd. now rewrite IH.
Qed.

(** What [abs.split('?')[0]] answers holds no question mark. *)
Lemma strip_query_clean abs : includes (js "?") (strip_query abs) = false.
Proof.
  unfold strip_query, split_head, includes.
  change (js "?") with [63].
  destruct (before_first [63] abs) as [pre|] eqn:E; cbn [from_option id].
  - apply before_first_single in E. now rewrite (before_first_absent _ _ E).
  - now rewrite E.
Qed.

Lemma mem_str_false u l : mem_str u l = false -> ~ In u l.
Proof.
  unfold mem_str. intros H Hin.
  assert (existsb (str_eqb u) l = true).
  { apply existsb_exists. exists u. split; [exact Hin | apply str_eqb_refl]. }
  congruence.
Qed.

Lemma set_add_inv (P : str -> Prop) u links :
  NoDup links -> Forall P links -> P u ->
  NoDup (set_add u links) /\ Forall P (set_add u links).
Proof.
  intros Hn Hf Hu. unfold set_add.
  destruct (mem_str u links) eqn:E; [now split|]. split.
  - apply NoDup_ListNoDup. apply NoDup_ListNoDup in Hn.
    apply List.NoDup_app; [exact Hn | repeat constructor; intros [] |].
    intros x Hx [<-|[]]. now apply (mem_str_false _ _ E).
  - apply Forall_app. split; [exact Hf | now repeat constructor].
Qed.

Lemma fold_left_inv {A B} (I : A -> Prop) (f : A -> B -> A) l :
  (forall a b, In b l -> I a -> I (f a b)) -> forall a, I a -> I (fold_left f l a).
Proof.
  induction l as [|b l IH]; intros Hf a Ha; [exact Ha|].
  cbn [fold_left]. apply IH.
  - intros a' b' Hb'. apply Hf. now right.
  - apply Hf; [now left | exact Ha].
Qed.

Lemma abs_of_some U href base abs :
  abs_of U href base = Some abs ->
  exists h, href = Some h /\ U h base = Some abs.
Proof.
  unfold abs_of, toAbs. intros H.
  destruct href as [h|]; [|discriminate]. cbn [default from_option id] in H.
  destruct (truthy (Some h)); [|discriminate].
  destruct (U h base) as [a|] eqn:E; [|discriminate].
  destruct (nonempty a); [|discriminate]. injection H as <-. eauto.
Qed.

(** X17.  The links of a listing page are pairwise distinct, hold no
    query string, and each is what the URL resolver answered for the
    [href] of an anchor of the page (of a listing anchor, or of an anchor
    of the fallback selector), cut at the question mark. *)
Theorem collectJobLinks_clean (U : str -> str -> option str)
    (d : listDoc) (base : str) :
  NoDup (collectJobLinks U d base)
  /\ Forall (fun u => includes (js "?") u = false
                      /\ exists href abs,
                           (In (Some href) (List.map a_href (listing_anchors d))
                            \/ In (Some href) (fallback_hrefs d))
                           /\ U href base = Some abs /\ u = strip_query abs)
            (collectJobLinks U d base).
Proof.
  set (Q := fun u => includes (js "?") u = false
                     /\ exists href abs,
                          (In (Some href) (List.map a_href (listing_anchors d))
                           \/ In (Some href) (fallback_hrefs d))
                          /\ U href base = Some abs /\ u = strip_query abs).
  set (I := fun links : list str => NoDup links /\ Forall Q links).
  assert (Habs : forall href abs,
             In href (List.map a_href (listing_anchors d))
             \/ In href (fallback_hrefs d) ->
             abs_of U href base = Some abs -> Q (strip_query abs)).
  { intros href abs Hin H. apply abs_of_some in H as (h & -> & H).
    split; [apply strip_query_clean | eauto]. }
  assert (H0 : I []) by (split; constructor).
  unfold collectJobLinks.
  assert (H1 : I (fold_left
                    (fun links a =>
                       match abs_of U (a_href a) base with
                       | Some abs => if negb (includes (js "#") abs)
                                     then set_add (strip_query abs) links
                                     else links
                       | None => links
                       end) (listing_anchors d) [])).
  { apply fold_left_inv; [|exact H0]. intros links a Ha [Hn Hf].
    destruct (abs_of U (a_href a) base) as [abs|] eqn:E; [|now split].
    destruct (negb _); [|now split].
    apply set_add_inv; [assumption..|].
    apply (Habs (a_href a)); [left; now apply in_map | exact E]. }
  destruct (fold_left _ (listing_anchors d) []) as [|u l]; [|exact H1].
  apply (fold_left_inv I); [|exact H0]. intros links href Hh [Hn Hf].
  destruct (abs_of U href base) as [abs|] eqn:E; [|now split].
  apply set_add_inv; [assumption..|]. apply (Habs href); [now right | exact E].
Qed.

(** X18.  Every seed the list branch keeps for a link has a title and no
    category, comes from the card of an anchor of the page, and is kept
    under a URL without query string. *)
Theorem seedsByUrl_seeds (U : str -> str -> option str) (d : listDoc)
    (base u : str) (sd : seedRec) :
  seedsByUrl U d base !! u = Some sd ->
  nonempty (s_title sd) = true /\ s_category sd = []
  /\ includes (js "?") u = false
  /\ exists a, In a (listing_anchors d)
               /\ sd = extractFromListingCard (a_card a).
Proof.
  unfold seedsByUrl. revert u sd.
  apply (fold_left_inv
           (fun m : gmap str seedRec =>
              forall u sd, m !! u = Some sd ->
                nonempty (s_title sd) = true /\ s_category sd = []
                /\ includes (js "?") u = false
                /\ exists a, In a (listing_anchors d)
                             /\ sd = extractFromListingCard (a_card a))).
  - intros m a Ha IH u sd.
    destruct (abs_of U (a_href a) base) as [abs|]; [|apply IH].
    destruct (nonempty (s_title (extractFromListingCard (a_card a)))) eqn:Et;
      [|apply IH].
    rewrite lookup_insert_Some. intros [[<- <-]|[_ H]]; [|now apply IH].
    split; [exact Et|]. split; [apply card_category_nil|].
    split; [apply strip_query_clean|]. eauto.
  - intros u sd H. rewrite lookup_empty in H. discriminate.
Qed.

Lemma seedsByUrl_seeds_witness :
  seedsByUrl resolve_absolute
    (ListDoc [Anchor (Some (js "https://www.jobberman.com/listings/dev-1?ref=home"))
                     (Some sample_card)] [] no_next)
    (js "https://www.jobberman.com/jobs")
    !! js "https://www.jobberman.com/listings/dev-1"
  = Some (extractFromListingCard (Some sample_card))
  /\ nonempty (s_title (extractFromListingCard (Some sample_card))) = true
  /\ s_category (extractFromListingCard (Some sample_card)) = [].
Proof.
  assert (H : seedsByUrl resolve_absolute
                (ListDoc [Anchor (Some (js "https://www.jobberman.com/listings/dev-1?ref=home"))
                                 (Some sample_card)] [] no_next)
                (js "https://www.jobberman.com/jobs")
                !! js "https://www.jobberman.com/listings/dev-1"
              = Some (extractFromListingCard (Some sample_card)))
    by (vm_compute; reflexivity).
  split; [exact H|].
  destruct (seedsByUrl_seeds _ _ _ _ _ H) as (Ht & Hc & _).
  split; [exact Ht | exact Hc].
Defined.

(** ** The crawl with any number of handlers in flight *)

(** *** Pages within [MAX_PAGES] *)

Lemma grows_refl cfg w : grows cfg w w.
Proof.
  split; exists []; rewrite app_nil_r; split; constructor || reflexivity.
Qed.

Lemma grows_trans cfg w1 w2 w3 :
  grows cfg w1 w2 -> grows cfg w2 w3 -> grows cfg w1 w3.
Proof.
  intros [(q1 & E1 & F1) (l1 & E2 & F2)] [(q2 & E3 & F3) (l2 & E4 & F4)].
  split.
  - exists (q1 ++ q2). rewrite E3, E1, app_assoc. split; [reflexivity|].
    apply Forall_app. now split.
  - exists (l1 ++ l2). rewrite E4, E2, app_assoc. split; [reflexivity|].
    apply Forall_app. now split.
Qed.

Lemma grows_say cfg m w : log_ok cfg m -> grows cfg w (say m w).
Proof.
  intros H. split.
  - exists []. cbn. rewrite app_nil_r. split; [reflexivity | constructor].
  - exists [m]. cbn. split; [reflexivity | now repeat constructor].
Qed.

Lemma grows_enqueue cfg rq w : page_ok cfg rq -> grows cfg w (enqueue rq w).
Proof.
  intros H. split.
  - exists [rq]. cbn. split; [reflexivity | now repeat constructor].
  - exists []. cbn. rewrite app_nil_r. split; [reflexivity | constructor].
Qed.

Lemma grows_same cfg w w' :
  queue w' = queue w -> log w' = log w -> grows cfg w w'.
Proof.
  intros Hq Hl. split; exists []; rewrite app_nil_r;
    (split; [assumption | constructor]).
Qed.

Lemma list_tail_grows cfg cx w : grows cfg w (list_tail cfg cx w).1.
Proof.
  unfold list_tail.
  destruct (_ || _); [apply grows_say; exact I|].
  destruct (Z.leb_spec (MAX_PAGES cfg) (c_page cx));
    [apply grows_say; exact I|].
  destruct (c_links cx =? 0)%Z; [apply grows_say; exact I|].
  destruct (c_next cx) as [nextUrl|]; [|apply grows_say; exact I].
  destruct (nonempty nextUrl); [|apply grows_say; exact I].
  cbn [fst]. eapply grows_trans; [|apply grows_enqueue; intros _; cbn [pageNo]; lia].
  apply grows_say. cbn [log_ok]. lia.
Qed.

Lemma enqueue_loop_grows cfg cx : forall rest w,
  grows cfg w (enqueue_loop cfg rest cx w).1.
Proof.
  induction rest as [|u rest IH]; intros w; cbn [enqueue_loop].
  - destruct (0 <? c_batch cx)%Z; [|apply list_tail_grows].
    eapply grows_trans; [|apply list_tail_grows]. apply grows_say. exact I.
  - destruct (_ && _); [|apply IH]. cbn [fst].
    apply grows_enqueue. intros H. discriminate.
Qed.

Lemma start_grows U P cfg rq pg w :
  page_ok cfg rq -> grows cfg w (start U P cfg rq pg w).1.
Proof.
  intros Hrq. unfold start. destruct (is_detail rq) eqn:Hd.
  - destruct (_ <=? _)%Z; [apply grows_say; exact I|].
    destruct (bool_decide _); [apply grows_say; exact I|].
    destruct (negb _); [apply grows_say; exact I|].
    cbn [fst]. now apply grows_same.
  - set (w0 := say (ProcessingList (pageNo rq) (url rq)) w).
    assert (H0 : grows cfg w w0) by (apply grows_say; cbn [log_ok]; now apply Hrq).
    set (w1 := match collectJobLinks U (as_list pg) (url rq) with
               | [] => _ | _ => _ end).
    assert (H1 : grows cfg w w1).
    { subst w1. destruct (collectJobLinks _ _ _); [|exact H0].
      eapply grows_trans; [exact H0|]. apply grows_say. exact I. }
    destruct (negb (collectDetails cfg)).
    + destruct (slice0 _ _) as [|u0 toPush].
      * eapply grows_trans; [exact H1 | apply list_tail_grows].
      * cbn [fst]. eapply grows_trans; [exact H1 | now apply grows_same].
    + eapply grows_trans; [exact H1 | apply enqueue_loop_grows].
Qed.

Lemma resume_grows cfg k w : grows cfg w (resume cfg k w).1.
Proof.
  destruct k as [n cx|rest cx| |u t]; cbn [resume].
  - eapply grows_trans; [|apply list_tail_grows].
    eapply grows_trans; [|apply grows_say; exact I]. now apply grows_same.
  - eapply grows_trans; [|apply enqueue_loop_grows]. now apply grows_same.
  - apply grows_refl.
  - cbn [fst]. eapply grows_trans; [|apply grows_say; exact I].
    now apply grows_same.
Qed.

Lemma step_pages U P cfg n c c' :
  step U P cfg n c c' ->
  Forall (page_ok cfg) (queue (shared c)) /\ Forall (log_ok cfg) (log (shared c)) ->
  Forall (page_ok cfg) (queue (shared c'))
  /\ Forall (log_ok cfg) (log (shared c')).
Proof.
  intros Hs [Hq Hl].
  destruct Hs as [c rq pg q1 q2 Eq Hlen | c k r1 r2 Hfl];
    [unfold started | unfold resumed].
  - rewrite Eq in Hq. apply Forall_app in Hq as [Hq1 Hq2].
    apply Forall_cons in Hq2 as [Hrq Hq2].
    pose proof (start_grows U P cfg rq pg (take_request q1 q2 (shared c)) Hrq)
      as [(nq & E1 & F1) (nl & E2 & F2)].
    destruct (start U P cfg rq pg (take_request q1 q2 (shared c))) as [w' k].
    cbn [fst shared take_request queue log] in *. rewrite E1, E2. split.
    + apply Forall_app. split; [apply Forall_app; now split | exact F1].
    + apply Forall_app. now split.
  - pose proof (resume_grows cfg k (shared c))
      as [(nq & E1 & F1) (nl & E2 & F2)].
    destruct (resume cfg k (shared c)) as [w' k'].
    cbn [fst shared] in *. rewrite E1, E2.
    split; apply Forall_app; now split.
Qed.



(** *** What the handlers do to the dataset *)

Lemma quiet_list_tail cfg cx w :
  dataset (list_tail cfg cx w).1 = dataset w
  /\ jobsScraped (list_tail cfg cx w).1 = jobsScraped w
  /\ scrapedUrls (list_tail cfg cx w).1 = scrapedUrls w.
Proof. destruct (list_tail_core cfg cx w) as [(H1 & H2 & H3) _]. auto. Qed.

(** A handler, up to its first [await], leaves the counter and the
    visited set alone, and either leaves the dataset alone too, or pushes
    the record of its detail page, or pushes the listing records of its
    page. *)
Lemma start_effect U P cfg rq pg w :
  jobsScraped (start U P cfg rq pg w).1 = jobsScraped w
  /\ scrapedUrls (start U P cfg rq pg w).1 = scrapedUrls w
  /\ ((dataset (start U P cfg rq pg w).1 = dataset w
       /\ quiet (start U P cfg rq pg w).2)
      \/ (is_detail rq = true
          /\ exists r,
               r_url r = url rq
               /\ dataset (start U P cfg rq pg w).1 = dataset w ++ [DetailItem r]
               /\ (start U P cfg rq pg w).2
                  = Some (AwaitDetailPush (url rq) (title (r_fields r))))
      \/ (is_detail rq = false /\ collectDetails cfg = false
          /\ exists items cx,
               Forall is_list_item items
               /\ dataset (start U P cfg rq pg w).1 = dataset w ++ items
               /\ (start U P cfg rq pg w).2
                  = Some (AwaitListPush (zlen items) cx))).
Proof.
  unfold start. destruct (is_detail rq) eqn:Hd.
  - destruct (_ <=? _)%Z; [cbn; auto 6|].
    destruct (bool_decide _); [cbn; auto 6|].
    destruct (negb _); [cbn; auto 6|].
    cbn [fst snd pushData jobsScraped scrapedUrls dataset].
    split; [reflexivity|]. split; [reflexivity|]. right. left.
    split; [reflexivity|]. eexists. split; [|split; reflexivity]. reflexivity.
  - set (w1 := match collectJobLinks U (as_list pg) (url rq) with
               | [] => _ | _ => _ end).
    assert (Hw1 : core_eq w w1).
    { subst w1. destruct (collectJobLinks _ _ _); now repeat split. }
    destruct Hw1 as (Hs1 & Hd1 & Hv1).
    destruct (collectDetails cfg) eqn:Hcd; cbn [negb].
    + match goal with
      | |- context [enqueue_loop cfg ?rest ?cx w1] =>
          destruct (enqueue_loop_core cfg cx rest w1) as [(Hs & Hdd & Hv) Hq]
      end.
      split; [congruence|]. split; [congruence|]. left.
      split; [congruence | exact Hq].
    + destruct (slice0 _ _) as [|u0 toPush].
      * match goal with
        | |- context [list_tail cfg ?cx w1] =>
            destruct (list_tail_core cfg cx w1) as [(Hs & Hdd & Hv) Hq]
        end.
        split; [congruence|]. split; [congruence|]. left.
        split; [congruence | exact Hq].
      * cbn [fst snd pushData jobsScraped scrapedUrls dataset].
        split; [exact Hs1|]. split; [exact Hv1|]. right. right.
        split; [reflexivity|]. split; [reflexivity|].
        eexists. eexists. split; [|split; [rewrite Hd1|]; reflexivity].
        apply List.Forall_forall. intros i Hi.
        apply in_map_iff in Hi as (u & <- & _). exact I.
Qed.

(** A suspended handler that goes on leaves the dataset alone, and adds
    to the counter the records it had pushed. *)
Lemma resume_effect cfg k w :
  dataset (resume cfg k w).1 = dataset w
  /\ jobsScraped (resume cfg k w).1 = (jobsScraped w + uncounted (Some k))%Z
  /\ quiet (resume cfg k w).2.
Proof.
  destruct k as [n cx|rest cx| |u t]; cbn [resume uncounted].
  - match goal with
    | |- context [list_tail cfg cx ?w0] =>
        destruct (list_tail_core cfg cx w0) as [(Hs & Hd & _) Hq]
    end.
    rewrite Hs, Hd. now repeat split.
  - destruct (enqueue_loop_core cfg cx rest
                (set_enqueued (jobsEnqueued w + 1) w)) as [(Hs & Hd & _) Hq].
    rewrite Hs, Hd. cbn. repeat split; [lia | exact Hq].
  - cbn. repeat split. lia.
  - cbn. repeat split.
Qed.

(** *** The counter and the dataset *)

Lemma step_accounting U P cfg n c c' :
  step U P cfg n c c' ->
  zlen (dataset (shared c))
  = (jobsScraped (shared c) + in_flight_uncounted (in_flight c))%Z ->
  zlen (dataset (shared c'))
  = (jobsScraped (shared c') + in_flight_uncounted (in_flight c'))%Z.
Proof.
  intros Hs Hz.
  destruct Hs as [c rq pg q1 q2 Eq Hlen | c k r1 r2 Hfl];
    [unfold started | unfold resumed].
  - pose proof (start_effect U P cfg rq pg (take_request q1 q2 (shared c)))
      as (Hj & _ & Hd).
    destruct (start U P cfg rq pg (take_request q1 q2 (shared c))) as [w' k].
    cbn [fst snd shared in_flight take_request jobsScraped dataset] in *.
    rewrite in_flight_uncounted_app, in_flight_uncounted_option, Hj.
    destruct Hd as [[Hd Hq]|[(_ & r & _ & Hd & ->)|(_ & _ & items & cx & _ & Hd & ->)]];
      rewrite Hd, ?zlen_app.
    + rewrite (quiet_uncounted k Hq). lia.
    + cbn [uncounted]. unfold zlen in *. cbn [length]. lia.
    + cbn [uncounted]. lia.
  - pose proof (resume_effect cfg k (shared c)) as (Hd & Hj & Hq).
    destruct (resume cfg k (shared c)) as [w' k'].
    cbn [fst snd shared in_flight] in *. rewrite Hfl in Hz.
    rewrite !in_flight_uncounted_app, in_flight_uncounted_cons in *.
    rewrite in_flight_uncounted_option, (quiet_uncounted k' Hq), Hd, Hj. lia.
Qed.

(** X23.  With any number of handlers in flight and in either mode, the
    dataset holds as many records as the counter says plus those the
    suspended handlers have pushed and not yet counted; when no handler
    is suspended the counter is the size of the dataset. *)
Theorem counter_accounts_for_dataset (U : str -> str -> option str)
    (P : str -> list node)
    (cfg : config) (n : nat) (initialUrls : list str) (c : crawl) :
  reachable U P cfg n initialUrls c ->
  zlen (dataset (shared c))
  = (jobsScraped (shared c) + in_flight_uncounted (in_flight c))%Z
  /\ (in_flight c = [] -> jobsScraped (shared c) = zlen (dataset (shared c))).
Proof.
  intros Hr.
  assert (H : zlen (dataset (shared c))
              = (jobsScraped (shared c) + in_flight_uncounted (in_flight c))%Z).
  { induction Hr as [|c c' _ IH Hs]; [reflexivity|].
    eapply step_accounting; eauto. }
  split; [exact H|]. intros E. rewrite E in H. cbn in H. lia.
Qed.

Lemma counter_accounts_for_dataset_witness :
  match play resolve_absolute parse_text one_wanted 20 racing_schedule
             (initial [start_dev; start_ops]) with
  | Some c => jobsScraped (shared c) = zlen (dataset (shared c))
  | None => False
  end.
Proof.
  destruct (play resolve_absolute parse_text one_wanted 20 racing_schedule
                 (initial [start_dev; start_ops])) as [c|] eqn:E;
    [|vm_compute in E; discriminate].
  refine (proj2 (counter_accounts_for_dataset resolve_absolute parse_text one_wanted 20
                   [start_dev; start_ops] c
                   (play_reachable _ _ _ _ _ _ _ _ (reach_initial _ _ _ _ _) E)) _).
  vm_compute in E. injection E as <-. reflexivity.
Defined.

(** *** Nothing is taken back *)

Lemma log_say m w w0 :
  (exists nl, log w = log w0 ++ nl) -> exists nl, log (say m w) = log w0 ++ nl.
Proof. intros (nl & E). exists (nl ++ [m]). cbn. now rewrite E, app_assoc. Qed.

Lemma log_same (w w0 : crawlState) :
  log w = log w0 -> exists nl, log w = log w0 ++ nl.
Proof. intros ->. exists []. now rewrite app_nil_r. Qed.

Lemma log_refl (w : crawlState) : exists nl, log w = log w ++ nl.
Proof. now apply log_same. Qed.

Lemma list_tail_log cfg cx w w0 :
  (exists nl, log w = log w0 ++ nl) ->
  exists nl, log (list_tail cfg cx w).1 = log w0 ++ nl.
Proof.
  intros H. unfold list_tail.
  repeat match goal with
         | |- context [if ?b then _ else _] => destruct b
         | |- context [match c_next cx with _ => _ end] => destruct (c_next cx)
         end; cbn [fst enqueue log]; now apply log_say.
Qed.

Lemma enqueue_loop_log cfg cx : forall rest w w0,
  (exists nl, log w = log w0 ++ nl) ->
  exists nl, log (enqueue_loop cfg rest cx w).1 = log w0 ++ nl.
Proof.
  induction rest as [|u rest IH]; intros w w0 H; cbn [enqueue_loop].
  - destruct (0 <? c_batch cx)%Z; apply list_tail_log; [now apply log_say | exact H].
  - destruct (_ && _); [exact H | now apply IH].
Qed.

Lemma start_log U P cfg rq pg w :
  exists nl, log (start U P cfg rq pg w).1 = log w ++ nl.
Proof.
  unfold start. destruct (is_detail rq).
  - repeat match goal with
           | |- context [if ?b then _ else _] => destruct b
           end; cbn [fst pushData log]; try (apply log_say); apply log_refl.
  - set (w1 := match collectJobLinks U (as_list pg) (url rq) with
               | [] => _ | _ => _ end).
    assert (H1 : exists nl, log w1 = log w ++ nl).
    { subst w1. destruct (collectJobLinks _ _ _);
        repeat apply log_say; apply log_refl. }
    destruct (negb (collectDetails cfg)).
    + destruct (slice0 _ _); [now apply list_tail_log | exact H1].
    + now apply enqueue_loop_log.
Qed.

Lemma resume_log cfg k w :
  exists nl, log (resume cfg k w).1 = log w ++ nl.
Proof.
  destruct k as [n cx|rest cx| |u t]; cbn [resume].
  - apply list_tail_log. apply log_say. now apply log_same.
  - apply enqueue_loop_log. now apply log_same.
  - apply log_refl.
  - cbn [fst]. apply log_say. now apply log_same.
Qed.

(** X24.  No step of the crawl, whichever handler it starts or lets go
    on, removes or rewrites a record of the dataset or a line of the
    log: both only grow at their end. *)
Theorem outputs_append_only (U : str -> str -> option str)
    (P : str -> list node) (cfg : config)
    (n : nat) (c c' : crawl) :
  step U P cfg n c c' ->
  (exists new, dataset (shared c') = dataset (shared c) ++ new)
  /\ (exists new, log (shared c') = log (shared c) ++ new).
Proof.
  intros Hs. split.
  - destruct Hs as [c rq pg q1 q2 Eq Hlen | c k r1 r2 Hfl];
      [unfold started | unfold resumed].
    + pose proof (start_effect U P cfg rq pg (take_request q1 q2 (shared c)))
        as (_ & _ & Hd).
      destruct (start U P cfg rq pg (take_request q1 q2 (shared c))) as [w' k].
      cbn [fst snd shared take_request dataset] in *.
      destruct Hd as [[Hd _]|[(_ & r & _ & Hd & _)|(_ & _ & items & cx & _ & Hd & _)]];
        rewrite Hd; [exists []; now rewrite app_nil_r | eauto | eauto].
    + pose proof (resume_effect cfg k (shared c)) as (Hd & _).
      destruct (resume cfg k (shared c)) as [w' k'].
      cbn [fst shared] in *. exists []. now rewrite app_nil_r.
  - destruct Hs as [c rq pg q1 q2 Eq Hlen | c k r1 r2 Hfl];
      [unfold started | unfold resumed].
    + pose proof (start_log U P cfg rq pg (take_request q1 q2 (shared c))) as H.
      destruct (start U P cfg rq pg (take_request q1 q2 (shared c))) as [w' k].
      exact H.
    + pose proof (resume_log cfg k (shared c)) as H.
      destruct (resume cfg k (shared c)) as [w' k']. exact H.
Qed.

Lemma outputs_append_only_witness :
  match play1 resolve_absolute parse_text one_wanted 20 (StartReq 0 detail_dev)
              (Crawl (CrawlState 0 0 ∅ [] [dev_1] []) []) with
  | Some c' => exists new, dataset (shared c') = [] ++ new
  | None => False
  end.
Proof.
  destruct (play1 resolve_absolute parse_text one_wanted 20 (StartReq 0 detail_dev)
                  (Crawl (CrawlState 0 0 ∅ [] [dev_1] []) [])) as [c'|] eqn:E;
    [|vm_compute in E; discriminate].
  exact (proj1 (outputs_append_only resolve_absolute parse_text one_wanted 20 _ c'
                  (play1_step _ _ _ _ _ _ _ E))).
Defined.

(** *** Visited URLs have their record *)

Lemma recorded_app u ds new : recorded u ds -> recorded u (ds ++ new).
Proof. intros (r & Hr & E). exists r. split; [|exact E]. apply in_or_app. now left. Qed.

Lemma resume_visited cfg k w :
  scrapedUrls (resume cfg k w).1
  = match k with
    | AwaitDetailPush u _ => {[u]} ∪ scrapedUrls w
    | _ => scrapedUrls w
    end.
Proof.
  destruct k as [n cx|rest cx| |u t]; cbn [resume].
  - match goal with
    | |- context [list_tail cfg cx ?w0] =>
        destruct (list_tail_core cfg cx w0) as [(_ & _ & Hv) _]
    end.
    now rewrite Hv.
  - destruct (enqueue_loop_core cfg cx rest
                (set_enqueued (jobsEnqueued w + 1) w)) as [(_ & _ & Hv) _].
    now rewrite Hv.
  - reflexivity.
  - reflexivity.
Qed.

Lemma quiet_pending ds k : quiet (Some k) -> pending_recorded ds k.
Proof. destruct k; cbn; tauto. Qed.

Lemma step_recorded U P cfg n c c' :
  step U P cfg n c c' ->
  (forall u, u ∈ scrapedUrls (shared c) -> recorded u (dataset (shared c)))
  /\ Forall (pending_recorded (dataset (shared c))) (in_flight c) ->
  (forall u, u ∈ scrapedUrls (shared c') -> recorded u (dataset (shared c')))
  /\ Forall (pending_recorded (dataset (shared c'))) (in_flight c').
Proof.
  intros Hs [Hv Hp].
  assert (Hmono : forall ds new k,
             pending_recorded ds k -> pending_recorded (ds ++ new) k).
  { intros ds new [] H; cbn in *; auto using recorded_app. }
  destruct Hs as [c rq pg q1 q2 Eq Hlen | c k r1 r2 Hfl];
    [unfold started | unfold resumed].
  - pose proof (start_effect U P cfg rq pg (take_request q1 q2 (shared c)))
      as (_ & Hsc & Hd).
    destruct (start U P cfg rq pg (take_request q1 q2 (shared c))) as [w' k].
    cbn [fst snd shared in_flight take_request scrapedUrls dataset] in *.
    assert (He : exists new, dataset w' = dataset (shared c) ++ new).
    { destruct Hd as [[Hd _]|[(_ & r & _ & Hd & _)|(_ & _ & items & cx & _ & Hd & _)]];
        rewrite Hd; [exists []; now rewrite app_nil_r | eauto | eauto]. }
    destruct He as (new & He). rewrite He, Hsc. split.
    + intros u Hu. apply recorded_app. auto.
    + apply Forall_app. split.
      * eapply Forall_impl; [exact Hp|]. intros k0. apply Hmono.
      * destruct k as [k|]; [|constructor]. constructor; [|constructor].
        rewrite <- He.
        destruct Hd as [[_ Hq]|[(_ & r & Er & Hd & Ek)|(_ & _ & items & cx & _ & _ & Ek)]].
        -- now apply quiet_pending.
        -- injection Ek as ->. cbn. exists r. split; [|exact Er].
           rewrite Hd. apply in_or_app. right. now left.
        -- injection Ek as ->. exact I.
  - pose proof (resume_effect cfg k (shared c)) as (Hd & _ & Hq).
    pose proof (resume_visited cfg k (shared c)) as Hsc.
    destruct (resume cfg k (shared c)) as [w' k'].
    cbn [fst snd shared in_flight] in *. rewrite Hd, Hsc.
    rewrite Hfl in Hp. apply Forall_app in Hp as [Hp1 Hp2].
    apply Forall_cons in Hp2 as [Hk Hp2]. split.
    + destruct k as [n0 cx|rest cx| |u0 t]; auto.
      intros u Hu. apply elem_of_union in Hu as [Hu|Hu]; [|auto].
      apply elem_of_singleton in Hu. subst u. exact Hk.
    + apply Forall_app. split; [exact Hp1|]. apply Forall_app. split; [|exact Hp2].
      destruct k' as [k'|]; [|constructor]. constructor; [|constructor].
      now apply quiet_pending.
Qed.

(** X25.  With any number of handlers in flight, every URL in the visited
    set has a detail record in the dataset. *)
Theorem visited_are_recorded (U : str -> str -> option str)
    (P : str -> list node) (cfg : config)
    (n : nat) (initialUrls : list str) (c : crawl) (u : str) :
  reachable U P cfg n initialUrls c ->
  u ∈ scrapedUrls (shared c) ->
  exists r, In (DetailItem r) (dataset (shared c)) /\ r_url r = u.
Proof.
  intros Hr.
  assert (H : (forall u, u ∈ scrapedUrls (shared c) ->
                         recorded u (dataset (shared c)))
              /\ Forall (pending_recorded (dataset (shared c))) (in_flight c)).
  { induction Hr as [|c c' _ IH Hs].
    - split; [|constructor]. cbn. intros v Hv.
      now apply not_elem_of_empty in Hv.
    - eapply step_recorded; eauto. }
  intros Hu. now apply (proj1 H).
Qed.

Lemma visited_are_recorded_witness :
  match play resolve_absolute parse_text one_wanted 20 racing_schedule
             (initial [start_dev; start_ops]) with
  | Some c =>
      exists r, In (DetailItem r) (dataset (shared c))
                /\ r_url r = js "https://www.jobberman.com/listings/dev-1"
  | None => False
  end.
Proof.
  destruct (play resolve_absolute parse_text one_wanted 20 racing_schedule
                 (initial [start_dev; start_ops])) as [c|] eqn:E;
    [|vm_compute in E; discriminate].
  refine (visited_are_recorded resolve_absolute parse_text one_wanted 20
            [start_dev; start_ops] c _
            (play_reachable _ _ _ _ _ _ _ _ (reach_initial _ _ _ _ _) E) _).
  vm_compute in E. injection E as <-.
  apply (bool_decide_unpack _). vm_compute. exact I.
Defined.

(** *** The two modes *)

Lemma list_tail_list_mode cfg cx w :
  (exists nq, queue (list_tail cfg cx w).1 = queue w ++ nq
              /\ Forall (fun rq => is_detail rq = false) nq)
  /\ from_option is_list_cont True (list_tail cfg cx w).2.
Proof.
  unfold list_tail.
  repeat match goal with
         | |- context [if ?b then _ else _] => destruct b
         | |- context [match c_next cx with _ => _ end] => destruct (c_next cx)
         end; cbn [fst snd say enqueue queue from_option is_list_cont];
    (split; [|exact I]);
    try (exists []; rewrite app_nil_r; split; [reflexivity | constructor]).
  eexists. split; [reflexivity|]. now repeat constructor.
Qed.

Lemma start_list_mode U P cfg rq pg w :
  collectDetails cfg = false -> is_detail rq = false ->
  (exists nq, queue (start U P cfg rq pg w).1 = queue w ++ nq
              /\ Forall (fun rq => is_detail rq = false) nq)
  /\ from_option is_list_cont True (start U P cfg rq pg w).2.
Proof.
  intros Hcd Hd. unfold start. rewrite Hd, Hcd. cbn [negb].
  set (w1 := match collectJobLinks U (as_list pg) (url rq) with
             | [] => _ | _ => _ end).
  assert (Hq1 : queue w1 = queue w)
    by (subst w1; destruct (collectJobLinks _ _ _); reflexivity).
  destruct (slice0 _ _) as [|u0 toPush].
  - rewrite <- Hq1. apply list_tail_list_mode.
  - cbn [fst snd pushData queue from_option is_list_cont]. split; [|exact I].
    exists []. rewrite app_nil_r, Hq1. split; [reflexivity | constructor].
Qed.

Lemma resume_list_mode cfg k w :
  is_list_cont k ->
  (exists nq, queue (resume cfg k w).1 = queue w ++ nq
              /\ Forall (fun rq => is_detail rq = false) nq)
  /\ from_option is_list_cont True (resume cfg k w).2.
Proof.
  destruct k as [n cx|rest cx| |u t]; cbn [is_list_cont resume]; intros Hk;
    try destruct Hk.
  - match goal with
    | |- context [list_tail cfg cx ?w0] =>
        pose proof (list_tail_list_mode cfg cx w0) as H
    end.
    exact H.
  - cbn. split; [|exact I]. exists []. rewrite app_nil_r.
    split; [reflexivity | constructor].
Qed.

Lemma step_list_mode U P cfg n c c' :
  collectDetails cfg = false ->
  step U P cfg n c c' ->
  Forall (fun rq => is_detail rq = false) (queue (shared c))
  /\ Forall is_list_cont (in_flight c)
  /\ Forall is_list_item (dataset (shared c)) ->
  Forall (fun rq => is_detail rq = false) (queue (shared c'))
  /\ Forall is_list_cont (in_flight c')
  /\ Forall is_list_item (dataset (shared c')).
Proof.
  intros Hcd Hs (Hq & Hf & Hds).
  destruct Hs as [c rq pg q1 q2 Eq Hlen | c k r1 r2 Hfl];
    [unfold started | unfold resumed].
  - rewrite Eq in Hq. apply Forall_app in Hq as [Hq1 Hq2].
    apply Forall_cons in Hq2 as [Hrq Hq2].
    pose proof (start_list_mode U P cfg rq pg (take_request q1 q2 (shared c))
                  Hcd Hrq) as [(nq & E & Fq) Hk].
    pose proof (start_effect U P cfg rq pg (take_request q1 q2 (shared c)))
      as (_ & _ & Hd).
    destruct (start U P cfg rq pg (take_request q1 q2 (shared c))) as [w' k].
    cbn [fst snd shared in_flight take_request queue dataset] in *.
    rewrite E. split; [|split].
    + apply Forall_app. split; [apply Forall_app; now split | exact Fq].
    + apply Forall_app. split; [exact Hf|].
      destruct k; [now repeat constructor | constructor].
    + destruct Hd as [[Hd _]|[(Hdet & _)|(_ & _ & items & cx & Fi & Hd & _)]].
      * now rewrite Hd.
      * congruence.
      * rewrite Hd. apply Forall_app. now split.
  - rewrite Hfl in Hf. apply Forall_app in Hf as [Hf1 Hf2].
    apply Forall_cons in Hf2 as [Hk Hf2].
    pose proof (resume_list_mode cfg k (shared c) Hk) as [(nq & E & Fq) Hk'].
    pose proof (resume_effect cfg k (shared c)) as (Hd & _).
    destruct (resume cfg k (shared c)) as [w' k'].
    cbn [fst snd shared in_flight] in *. rewrite E, Hd. split; [|split].
    + apply Forall_app. now split.
    + apply Forall_app. split; [exact Hf1|]. apply Forall_app. split; [|exact Hf2].
      destruct k'; [now repeat constructor | constructor].
    + exact Hds.
Qed.

Lemma step_detail_mode U P cfg n c c' :
  collectDetails cfg = true ->
  step U P cfg n c c' ->
  Forall is_detail_item (dataset (shared c)) ->
  Forall is_detail_item (dataset (shared c')).
Proof.
  intros Hcd Hs Hds.
  destruct Hs as [c rq pg q1 q2 Eq Hlen | c k r1 r2 Hfl];
    [unfold started | unfold resumed].
  - pose proof (start_effect U P cfg rq pg (take_request q1 q2 (shared c)))
      as (_ & _ & Hd).
    destruct (start U P cfg rq pg (take_request q1 q2 (shared c))) as [w' k].
    cbn [fst snd shared take_request dataset] in *.
    destruct Hd as [[Hd _]|[(_ & r & _ & Hd & _)|(_ & Hc & _)]].
    + now rewrite Hd.
    + rewrite Hd. apply Forall_app. split; [exact Hds | now repeat constructor].
    + congruence.
  - pose proof (resume_effect cfg k (shared c)) as (Hd & _).
    destruct (resume cfg k (shared c)) as [w' k'].
    cbn [fst shared] in *. now rewrite Hd.
Qed.

(** X26.  The two modes never mix: with [collectDetails] on, every record of
    the dataset is a detail record; with it off, every record is a
    listing record and no detail request is ever queued.  This holds for
    any number of handlers in flight. *)
Theorem modes_do_not_mix (U : str -> str -> option str)
    (P : str -> list node) (cfg : config)
    (n : nat) (initialUrls : list str) (c : crawl) :
  reachable U P cfg n initialUrls c ->
  (collectDetails cfg = true ->
   forall i, In i (dataset (shared c)) -> is_detail_item i)
  /\ (collectDetails cfg = false ->
      (forall i, In i (dataset (shared c)) -> is_list_item i)
      /\ (forall rq, In rq (queue (shared c)) -> is_detail rq = false)).
Proof.
  intros Hr. split; intros Hcd.
  - apply List.Forall_forall.
    induction Hr as [|c c' _ IH Hs]; [constructor|].
    eapply step_detail_mode; eauto.
  - assert (H : Forall (fun rq => is_detail rq = false) (queue (shared c))
                /\ Forall is_list_cont (in_flight c)
                /\ Forall is_list_item (dataset (shared c))).
    { induction Hr as [|c c' _ IH Hs].
      - cbn. split; [|split; constructor].
        apply List.Forall_forall. intros rq Hrq.
        apply in_map_iff in Hrq as (u & <- & _). reflexivity.
      - eapply step_list_mode; eauto. }
    destruct H as (Hq & _ & Hd). split; now apply List.Forall_forall.
Qed.

Lemma modes_do_not_mix_witness :
  match play resolve_absolute parse_text one_wanted 20 racing_schedule
             (initial [start_dev; start_ops]) with
  | Some c => forall i, In i (dataset (shared c)) -> is_detail_item i
  | None => False
  end.
Proof.
  destruct (play resolve_absolute parse_text one_wanted 20 racing_schedule
                 (initial [start_dev; start_ops])) as [c|] eqn:E;
    [|vm_compute in E; discriminate].
  exact (proj1 (modes_do_not_mix resolve_absolute parse_text one_wanted 20
                  [start_dev; start_ops] c
                  (play_reachable _ _ _ _ _ _ _ _ (reach_initial _ _ _ _ _) E))
               eq_refl).
Defined.

(** X20.  With up to [n] handlers in flight, a crawl that collects
    details hands at most [RESULTS_WANTED + n - 1] records to the
    dataset, and counts no more. *)
Theorem quota_overshoot_within_concurrency (U : str -> str -> option str)
    (P : str -> list node)
    (cfg : config) (n : nat) (initialUrls : list str) (c : crawl) :
  (1 <= RESULTS_WANTED cfg)%Z -> (1 <= n)%nat ->
  collectDetails cfg = true ->
  reachable U P cfg n initialUrls c ->
  (zlen (dataset (shared c)) <= RESULTS_WANTED cfg + Z.of_nat n - 1)%Z
  /\ (jobsScraped (shared c) <= RESULTS_WANTED cfg + Z.of_nat n - 1)%Z.
Proof. exact (quota_overshoot_bounded U P cfg n initialUrls c). Qed.

Lemma quota_overshoot_within_concurrency_witness :
  match play resolve_absolute parse_text one_wanted 2 racing_schedule
             (initial [start_dev; start_ops]) with
  | Some c =>
      (zlen (dataset (shared c)) <= RESULTS_WANTED one_wanted + Z.of_nat 2 - 1)%Z
  | None => False
  end.
Proof.
  destruct (play resolve_absolute parse_text one_wanted 2 racing_schedule
                 (initial [start_dev; start_ops])) as [c|] eqn:E;
    [|vm_compute in E; discriminate].
  exact (proj1 (quota_overshoot_within_concurrency resolve_absolute parse_text one_wanted 2
                  [start_dev; start_ops] c ltac:(cbn; lia) ltac:(lia) eq_refl
                  (play_reachable _ _ _ _ _ _ _ _ (reach_initial _ _ _ _ _) E))).
Defined.

(** ** The start URL *)

Lemma normalizedDate_no_space toLowerCase date :
  forallb (fun c => negb (is_space c)) (normalizedDate toLowerCase date) = true.
Proof.
  unfold normalizedDate.
  apply (squeezed_1_none is_space [] (toLowerCase (String_of date))
           _ eq_refl).
  apply (replace_all_run 1 is_space []). lia.
Qed.

Lemma str_eqb_eq a b : str_eqb a b = true -> a = b.
Proof. unfold str_eqb. apply bool_decide_eq_true. Qed.

Lemma in_text_param name kw k v :
  In (k, v) (text_param name kw) ->
  k = js name
  /\ exists s, kw = Some s /\ v = PText (trim s) /\ trim s <> []
               /\ head_is is_space (trim s) = false
               /\ head_is is_space (rev (trim s)) = false.
Proof.
  unfold text_param. destruct kw as [s|]; cbn [truthy andb String_of];
    [|intros []].
  destruct (nonempty s && nonempty (trim s)) eqn:E; [|intros []].
  intros [H|[]]. injection H as <- <-. split; [reflexivity|].
  exists s. split; [reflexivity|]. split; [reflexivity|].
  apply andb_true_iff in E as [_ E].
  destruct (trim_spec s) as (a & b & _ & _ & _ & Hh & Hl).
  split; [|now split]. intros Ht. now rewrite Ht in E.
Qed.

(** X27.  [buildStartUrl] sets [created_at] from its own map only for the
    dates that read [24h], [7d] or [30d] once lower-cased and stripped of
    white space: the entries [1 day], [7 days] and [30 days] of the map
    are never found, since the key looked up holds no white space.  In
    the first revision the date is looked up as it is.  The keyword and
    the location are set trimmed, and not at all when they are blank. *)
Theorem buildStartUrl_params_sound (toLowerCase : str -> str)
    (kw loc date : option str) :
  (forall v,
      In (js "created_at", PText v)
         (buildStartUrl_params toLowerCase kw loc date) ->
      (normalizedDate toLowerCase date = js "24h" /\ v = js "1 day")
      \/ (normalizedDate toLowerCase date = js "7d" /\ v = js "7 days")
      \/ (normalizedDate toLowerCase date = js "30d" /\ v = js "30 days"))
  /\ (forall v,
         In (js "created_at", PText v) (buildStartUrl_params_v1 kw loc date) ->
         (date = Some (js "24h") /\ v = js "1 day")
         \/ (date = Some (js "7d") /\ v = js "7 days")
         \/ (date = Some (js "30d") /\ v = js "30 days"))
  /\ (forall v,
         In (js "q", v) (buildStartUrl_params toLowerCase kw loc date) ->
         exists s, kw = Some s /\ v = PText (trim s) /\ trim s <> [])
  /\ (forall v,
         In (js "l", v) (buildStartUrl_params toLowerCase kw loc date) ->
         exists s, loc = Some s /\ v = PText (trim s) /\ trim s <> []).
Proof.
  pose proof (normalizedDate_no_space toLowerCase date) as Hns.
  split; [|split; [|split]].
  - intros v H. unfold buildStartUrl_params in H.
    apply in_app_or in H as [H|H];
      [apply in_text_param in H as [H _]; discriminate|].
    apply in_app_or in H as [H|H];
      [apply in_text_param in H as [H _]; discriminate|].
    unfold literal_get in H.
    set (nd := normalizedDate toLowerCase date) in *.
    unfold dateMap in H. cbn [assoc] in H.
    repeat match type of H with
           | context [str_eqb nd ?k] =>
               let E := fresh "E" in
               destruct (str_eqb nd k) eqn:E;
               [apply str_eqb_eq in E|]
           end;
      try (destruct H as [H|[]]; injection H as <-; auto; fail);
      try (rewrite E in Hns; discriminate Hns);
      try (rewrite E0 in Hns; discriminate Hns);
      try (rewrite E1 in Hns; discriminate Hns);
      try (rewrite E2 in Hns; discriminate Hns);
      try (rewrite E3 in Hns; discriminate Hns);
      try (rewrite E4 in Hns; discriminate Hns).
    destruct (mem_str nd object_prototype_keys); [|destruct H].
    destruct H as [H|[]]. discriminate.
  - intros v H. unfold buildStartUrl_params_v1 in H.
    apply in_app_or in H as [H|H];
      [apply in_text_param in H as [H _]; discriminate|].
    apply in_app_or in H as [H|H];
      [apply in_text_param in H as [H _]; discriminate|].
    destruct date as [d|]; cbn [truthy String_of] in H; [|destruct H].
    destruct (nonempty d); [|destruct H].
    unfold literal_get, dateMap_short in H. cbn [assoc] in H.
    repeat match type of H with
           | context [str_eqb d ?k] =>
               let E := fresh "E" in
               destruct (str_eqb d k) eqn:E;
               [apply str_eqb_eq in E; subst d|]
           end;
      try (destruct H as [H|[]]; injection H as <-; auto; fail).
    destruct (mem_str d object_prototype_keys); [|destruct H].
    destruct H as [H|[]]. discriminate.
  - intros v H. unfold buildStartUrl_params in H.
    apply in_app_or in H as [H|H].
    + apply in_text_param in H as (_ & s & -> & -> & Hne & _). eauto.
    + apply in_app_or in H as [H|H];
        [apply in_text_param in H as [H _]; discriminate|].
      destruct (literal_get _ _); [|destruct H].
      destruct H as [H|[]]. discriminate.
  - intros v H. unfold buildStartUrl_params in H.
    apply in_app_or in H as [H|H];
      [apply in_text_param in H as [H _]; discriminate|].
    apply in_app_or in H as [H|H].
    + apply in_text_param in H as (_ & s & -> & -> & Hne & _). eauto.
    + destruct (literal_get _ _); [|destruct H].
      destruct H as [H|[]]. discriminate.
Qed.

(** With the lower-casing of the ASCII letters: a date filter written
    [7 Days] is not found in the map, the short form [7D] is. *)
Example buildStartUrl_params_dates :
  buildStartUrl_params lower (Some (js " nurse ")) None (Some (js "7 Days"))
  = [(js "q", PText (js "nurse"))]
  /\ buildStartUrl_params lower (Some (js " nurse ")) None (Some (js "7D"))
     = [(js "q", PText (js "nurse")); (js "created_at", PText (js "7 days"))].
Proof. split; vm_compute; reflexivity. Qed.

(** ** The cookie header *)

Lemma map_throwing_cookie_array cookies :
  map_throwing cookie_pair
    (List.map (fun nv => JObj [(js "name", JStr (fst nv));
                               (js "value", JStr (snd nv))]) cookies)
  = Some (List.map (fun nv => fst nv ++ js "=" ++ snd nv) cookies).
Proof.
  induction cookies as [|[n v] cookies IH]; [reflexivity|].
  cbn [List.map map_throwing]. rewrite IH. reflexivity.
Qed.

(** X28.  A cookie string that is not blank is the header, trimmed, whatever
    [cookiesJson] holds; without one, the two shapes of [cookiesJson]
    give the same header for the same cookies, [name=value] pairs joined
    by [; ] in their order. *)
Theorem normalizeCookieHeader_shapes (JSON_parse : str -> option json)
    (cookies cookiesJson : option str) (pairs : list (str * str)) :
  (truthy cookies = true -> trim (String_of cookies) <> [] ->
   normalizeCookieHeader JSON_parse cookies cookiesJson
   = (trim (String_of cookies), false))
  /\ (truthy cookies && nonempty (trim (String_of cookies)) = false ->
      truthy cookiesJson = true ->
      JSON_parse (String_of cookiesJson) = Some (cookie_array pairs)
      \/ JSON_parse (String_of cookiesJson) = Some (cookie_object pairs) ->
      normalizeCookieHeader JSON_parse cookies cookiesJson
      = (cookie_header pairs, false)).
Proof.
  unfold normalizeCookieHeader. split.
  - intros -> Hne. destruct (trim (String_of cookies)); [congruence|reflexivity].
  - intros -> -> [->| ->].
    + unfold cookie_array. now rewrite map_throwing_cookie_array.
    + unfold cookie_object, cookie_header. rewrite List.map_map. reflexivity.
Qed.

Lemma normalizeCookieHeader_shapes_witness :
  normalizeCookieHeader
    (parse_only (js "{}") (cookie_object [(js "sid", js "abc"); (js "lang", js "en")]))
    None (Some (js "{}"))
  = (js "sid=abc; lang=en", false).
Proof.
  exact (proj2 (normalizeCookieHeader_shapes
                  (parse_only (js "{}")
                     (cookie_object [(js "sid", js "abc"); (js "lang", js "en")]))
                  None (Some (js "{}"))
                  [(js "sid", js "abc"); (js "lang", js "en")])
               eq_refl eq_refl (or_intror eq_refl)).
Defined.

(** X29.  Where reading [cookiesJson] throws (text that is no JSON,
    [null], an array with a [null] in it), [normalizeCookieHeader]
    answers the empty header and logs its warning. *)
Theorem normalizeCookieHeader_failures (JSON_parse : str -> option json)
    (cookiesJson : str) (items : list json) :
  nonempty cookiesJson = true ->
  (JSON_parse cookiesJson = None ->
   normalizeCookieHeader JSON_parse None (Some cookiesJson) = ([], true))
  /\ (JSON_parse cookiesJson = Some JNull ->
      normalizeCookieHeader JSON_parse None (Some cookiesJson) = ([], true))
  /\ (JSON_parse cookiesJson = Some (JArr items) -> In JNull items ->
      normalizeCookieHeader JSON_parse None (Some cookiesJson) = ([], true)).
Proof.
  intros Hne. unfold normalizeCookieHeader.
  cbn [truthy andb String_of]. rewrite Hne.
  split; [now intros ->|]. split; [now intros ->|].
  intros -> Hin.
  assert (H : map_throwing cookie_pair items = None).
  { induction items as [|c items IH]; [destruct Hin|].
    cbn [map_throwing]. destruct Hin as [->|Hin]; [reflexivity|].
    destruct (cookie_pair c); [|reflexivity]. now rewrite (IH Hin). }
  now rewrite H.
Qed.

Lemma normalizeCookieHeader_failures_witness :
  normalizeCookieHeader (parse_only (js "null") JNull) None (Some (js "null"))
  = ([], true).
Proof.
  exact (proj1 (proj2 (normalizeCookieHeader_failures
                         (parse_only (js "null") JNull) (js "null") []
                         eq_refl)) eq_refl).
Defined.

(** ** Limits and start URLs from the input *)

Lemma limit_of_positive raw dflt : (1 <= dflt)%Z -> (1 <= limit_of raw dflt)%Z.
Proof. destruct raw; cbn [limit_of]; lia. Qed.

Lemma reachable_pages U P cfg n urls c :
  (1 <= MAX_PAGES cfg)%Z -> reachable U P cfg n urls c ->
  Forall (page_ok cfg) (queue (shared c))
  /\ Forall (log_ok cfg) (log (shared c)).
Proof.
  intros HM Hr. induction Hr as [|c c' _ IH Hs].
  - cbn. split; [|constructor]. apply List.Forall_forall. intros rq Hrq _.
    apply in_map_iff in Hrq as (u & <- & _). cbn. exact HM.
  - eapply step_pages; eauto.
Qed.

(** The start URLs of the input are taken in their order, all of them,
    as strings or as the [url] of an object, before [startUrl] and [url];
    the built search URL is used when nothing is given. *)
Example initialUrls_of_samples :
  initialUrls_of
    (Input RawUndefined RawUndefined None
           (Some [EntryText start_dev; EntryObject (Some start_ops);
                  EntryOther; EntryObject None])
           None (Some (js "https://www.jobberman.com/jobs?q=qa")))
    (js "https://www.jobberman.com/jobs")
  = [start_dev; start_ops; js "https://www.jobberman.com/jobs?q=qa"]
  /\ initialUrls_of
       (Input RawUndefined RawUndefined None (Some [EntryText start_dev])
              None None)
       (js "https://www.jobberman.com/jobs")
     = [start_dev]
  /\ initialUrls_of
       (Input RawUndefined RawUndefined None (Some []) None None)
       (js "https://www.jobberman.com/jobs")
     = [js "https://www.jobberman.com/jobs"].
Proof. repeat split; vm_compute; reflexivity. Qed.

Lemma initialUrls_of_given i built entries s :
  startUrls i = Some entries -> In (EntryText s) entries ->
  nonempty s = true -> In s (initialUrls_of i built).
Proof.
  intros Hi Hin Hs. unfold initialUrls_of. rewrite Hi.
  assert (Hg : In s (List.filter nonempty (omap entry_url entries))).
  { apply filter_In. split; [|exact Hs].
    apply list_elem_of_In, list_elem_of_omap.
    exists (EntryText s). split; [now apply list_elem_of_In | reflexivity]. }
  destruct entries as [|e es]; [destruct Hin|].
  match goal with
  | |- In s (match ?g with [] => _ | _ :: _ => _ end) =>
      assert (Hin' : In s g) by (apply in_or_app; left; exact Hg);
      destruct g; [destruct Hin' | exact Hin']
  end.
Qed.

(** X30.  Whatever the input gives for [results_wanted] and [max_pages]
    (nothing, [null], or any integer), the crawl is started on at least
    one URL with limits of at least one, so that no list page beyond
    [MAX_PAGES] is queued, and a crawl that handles one request at a time
    saves no more than [RESULTS_WANTED] records; every non-empty string
    among the start URLs of the input is one of the URLs the crawl is
    started on. *)
Theorem input_limits_hold (U : str -> str -> option str)
    (P : str -> list node) (i : input)
    (builtStartUrl : str) (n : nat) (c : crawl) :
  reachable U P (config_of i) n (initialUrls_of i builtStartUrl) c ->
  initialUrls_of i builtStartUrl <> []
  /\ (1 <= RESULTS_WANTED (config_of i))%Z
  /\ (1 <= MAX_PAGES (config_of i))%Z
  /\ (forall rq, In rq (queue (shared c)) -> is_detail rq = false ->
                 (pageNo rq <= MAX_PAGES (config_of i))%Z)
  /\ (n = 1%nat ->
      (zlen (dataset (shared c)) <= RESULTS_WANTED (config_of i))%Z)
  /\ (forall entries s,
         startUrls i = Some entries -> In (EntryText s) entries ->
         nonempty s = true -> In s (initialUrls_of i builtStartUrl)).
Proof.
  intros Hr.
  assert (HN : (1 <= RESULTS_WANTED (config_of i))%Z)
    by (apply limit_of_positive; lia).
  assert (HM : (1 <= MAX_PAGES (config_of i))%Z)
    by (apply limit_of_positive; lia).
  split; [|split; [exact HN|split; [exact HM|split; [|split]]]].
  - unfold initialUrls_of. destruct (_ ++ _); discriminate.
  - destruct (reachable_pages U P _ n _ c HM Hr) as [Hq _].
    rewrite List.Forall_forall in Hq. intros rq Hin. now apply Hq.
  - intros ->. pose proof (reachable_quota U P _ _ c HN Hr) as Hq.
    unfold crawl_quota in Hq.
    destruct (in_flight c) as [|k [|k' fl]]; [| |destruct Hq];
      destruct Hq as (H0 & Hu & Hb & Hz); lia.
  - intros entries s. apply initialUrls_of_given.
Qed.

Lemma input_limits_hold_witness :
  match play resolve_absolute parse_text
             (config_of (Input RawNull RawUndefined None (Some [EntryText start_dev])
                               None None)) 1
             [StartReq 0 list_dev; Resume 0; StartReq 0 detail_dev; Resume 0]
             (initial (initialUrls_of
                         (Input RawNull RawUndefined None (Some [EntryText start_dev])
                               None None)
                         start_ops)) with
  | Some c =>
      (zlen (dataset (shared c))
       <= RESULTS_WANTED
            (config_of (Input RawNull RawUndefined None (Some [EntryText start_dev])
                               None None)))%Z
  | None => False
  end.
Proof.
  destruct (play resolve_absolute parse_text
              (config_of (Input RawNull RawUndefined None (Some [EntryText start_dev])
                               None None)) 1
              [StartReq 0 list_dev; Resume 0; StartReq 0 detail_dev; Resume 0]
              (initial (initialUrls_of
                          (Input RawNull RawUndefined None (Some [EntryText start_dev])
                               None None)
                          start_ops))) as [c|] eqn:E;
    [|vm_compute in E; discriminate].
  exact (proj1 (proj2 (proj2 (proj2 (proj2
           (input_limits_hold resolve_absolute parse_text
              (Input RawNull RawUndefined None (Some [EntryText start_dev])
                               None None) start_ops 1 c
              (play_reachable _ _ _ _ _ _ _ _ (reach_initial _ _ _ _ _) E))))))
           eq_refl).
Defined.

(** ** Page after page *)

Lemma uint_str_nil u : uint_str u = [] -> u = Decimal.Nil.
Proof. destruct u; cbn; congruence. Qed.

Lemma dec_nonempty n : dec n <> [].
Proof.
  unfold dec. intros H. apply uint_str_nil in H.
  destruct n as [|p]; [discriminate|].
  now apply (DecimalPos.Unsigned.to_uint_nonnil p).
Qed.

Lemma follow_numbered U url c : is_sep c = true -> test re_page url = false ->
  forall nls m,
    Forall (fun nl => truthy (nextLink nl) = false) nls ->
    m + N.of_nat (length nls) < safe_bound ->
    follow U nls (url ++ c :: js "page=" ++ dec m)
    = Some (url ++ c :: js "page=" ++ dec (m + N.of_nat (length nls))).
Proof.
  intros Hc Hu. induction nls as [|nl nls IH]; intros m Hn Hb.
  - cbn [follow length]. now rewrite N.add_0_r.
  - apply Forall_cons in Hn as [Hnl Hn]. cbn [follow].
    assert (Hm : digits_value (dec m) + 1 < safe_bound)
      by (rewrite digits_value_dec; cbn [length] in Hb; lia).
    pose proof (findNextUrl_increment U nl url c (dec m) [] Hnl Hc
                  (dec_nonempty m) (uint_str_digits _) eq_refl Hu Hm) as H.
    rewrite !app_nil_r in H. rewrite H, digits_value_dec.
    rewrite IH by (try assumption; cbn [length] in Hb; lia).
    replace (m + N.of_nat (length (nl :: nls)))
      with (m + 1 + N.of_nat (length nls)) by (cbn [length]; lia).
    reflexivity.
Qed.

(** X19.  Where no page offers a "next" link, following the cursor from a
    URL without page number leads, page after page, to [page=2],
    [page=3], and so on: after [k] pages the URL is the first one with
    [page=k+1] appended. *)
Theorem follow_counts_pages (U : str -> str -> option str)
    (nls : list nextLinks) (url : str) :
  nls <> [] ->
  Forall (fun nl => truthy (nextLink nl) = false) nls ->
  test re_page url = false ->
  N.of_nat (length nls) + 1 < safe_bound ->
  follow U nls url
  = Some (url ++ (if includes (js "?") url then js "&" else js "?")
              ++ js "page=" ++ dec (N.of_nat (length nls) + 1)).
Proof.
  intros Hne Hn Hu Hb. destruct nls as [|nl nls]; [congruence|].
  apply Forall_cons in Hn as [Hnl Hn]. cbn [follow].
  assert (Hb' : 2 + N.of_nat (length nls) < safe_bound)
    by (cbn [length] in Hb; lia).
  rewrite (findNextUrl_append U nl url Hnl Hu).
  destruct (includes (js "?") url).
  - change (url ++ js "&page=2") with (url ++ 38 :: js "page=" ++ dec 2).
    rewrite (follow_numbered U url 38 eq_refl Hu nls 2 Hn Hb').
    replace (N.of_nat (length (nl :: nls)) + 1)
      with (2 + N.of_nat (length nls)) by (cbn [length]; lia).
    reflexivity.
  - change (url ++ js "?page=2") with (url ++ 63 :: js "page=" ++ dec 2).
    rewrite (follow_numbered U url 63 eq_refl Hu nls 2 Hn Hb').
    replace (N.of_nat (length (nl :: nls)) + 1)
      with (2 + N.of_nat (length nls)) by (cbn [length]; lia).
    reflexivity.
Qed.

Lemma follow_counts_pages_witness :
  follow resolve_absolute [no_next; no_next; no_next]
         (js "https://www.jobberman.com/jobs?q=nurse")
  = Some (js "https://www.jobberman.com/jobs?q=nurse&page=4").
Proof.
  exact (follow_counts_pages resolve_absolute [no_next; no_next; no_next]
           (js "https://www.jobberman.com/jobs?q=nurse")
           ltac:(discriminate) ltac:(repeat constructor)
           ltac:(vm_compute; reflexivity) eq_refl).
Defined.

(** *** The enqueue counter *)

Lemma detail_requests_app q1 q2 :
  detail_requests (q1 ++ q2) = (detail_requests q1 + detail_requests q2)%Z.
Proof. unfold detail_requests. now rewrite List.filter_app, zlen_app. Qed.

Lemma detail_requests_single rq :
  detail_requests [rq] = if is_detail rq then 1%Z else 0%Z.
Proof. unfold detail_requests. cbn [List.filter]. now destruct (is_detail rq). Qed.

Lemma enqueueing_app a b : enqueueing (a ++ b) = (enqueueing a + enqueueing b)%Z.
Proof. unfold enqueueing. now rewrite List.filter_app, zlen_app. Qed.

Lemma enqueueing_bounds fl : (0 <= enqueueing fl <= zlen fl)%Z.
Proof.
  unfold enqueueing, zlen. pose proof (List.filter_length_le is_enqueueing fl).
  lia.
Qed.

Lemma enqueueing_option k :
  enqueueing (option_list k) = if from_option is_enqueueing false k then 1%Z else 0%Z.
Proof.
  destruct k as [k|]; [|reflexivity].
  unfold enqueueing. change (option_list (Some k)) with [k].
  cbn [List.filter from_option]. now destruct (is_enqueueing k).
Qed.

Lemma list_tail_enq cfg cx w :
  jobsEnqueued (list_tail cfg cx w).1 = jobsEnqueued w
  /\ detail_requests (queue (list_tail cfg cx w).1) = detail_requests (queue w)
  /\ from_option is_enqueueing false (list_tail cfg cx w).2 = false.
Proof.
  unfold list_tail.
  repeat match goal with
         | |- context [if ?b then _ else _] => destruct b
         | |- context [match c_next cx with _ => _ end] => destruct (c_next cx)
         end; cbn [fst snd say enqueue jobsEnqueued queue from_option is_enqueueing];
    repeat split.
  rewrite detail_requests_app, detail_requests_single. cbn [is_detail]. lia.
Qed.

(** The enqueue loop leaves the counter alone up to its next [await];
    it stops there only after the counter was found below the limit and
    one detail request was added to the queue. *)
Lemma enqueue_loop_enq cfg cx : forall rest w,
  jobsEnqueued (enqueue_loop cfg rest cx w).1 = jobsEnqueued w
  /\ ((from_option is_enqueueing false (enqueue_loop cfg rest cx w).2 = true
       /\ (jobsEnqueued w < RESULTS_WANTED cfg)%Z
       /\ detail_requests (queue (enqueue_loop cfg rest cx w).1)
          = (detail_requests (queue w) + 1)%Z)
      \/ (from_option is_enqueueing false (enqueue_loop cfg rest cx w).2 = false
          /\ detail_requests (queue (enqueue_loop cfg rest cx w).1)
             = detail_requests (queue w))).
Proof.
  induction rest as [|u rest IH]; intros w; cbn [enqueue_loop].
  - destruct (0 <? c_batch cx)%Z.
    + destruct (list_tail_enq cfg cx
                  (say (EnqueuedDetails (c_batch cx) (jobsEnqueued w)) w))
        as (H1 & H2 & H3).
      split; [exact H1|]. right. split; [exact H3 | exact H2].
    + destruct (list_tail_enq cfg cx w) as (H1 & H2 & H3).
      split; [exact H1|]. right. split; [exact H3 | exact H2].
  - destruct (Z.ltb_spec (jobsEnqueued w) (RESULTS_WANTED cfg));
      cbn [andb]; [|apply IH].
    destruct (jobsScraped w <? RESULTS_WANTED cfg)%Z; [|apply IH].
    cbn [fst snd enqueue jobsEnqueued queue from_option is_enqueueing].
    split; [reflexivity|]. left. split; [reflexivity|]. split; [assumption|].
    rewrite detail_requests_app, detail_requests_single. reflexivity.
Qed.

Lemma start_enq U P cfg rq pg w :
  jobsEnqueued (start U P cfg rq pg w).1 = jobsEnqueued w
  /\ ((from_option is_enqueueing false (start U P cfg rq pg w).2 = true
       /\ (jobsEnqueued w < RESULTS_WANTED cfg)%Z
       /\ detail_requests (queue (start U P cfg rq pg w).1)
          = (detail_requests (queue w) + 1)%Z)
      \/ (from_option is_enqueueing false (start U P cfg rq pg w).2 = false
          /\ detail_requests (queue (start U P cfg rq pg w).1)
             = detail_requests (queue w))).
Proof.
  unfold start. destruct (is_detail rq).
  - repeat match goal with
           | |- context [if ?b then _ else _] => destruct b
           end; cbn; auto.
  - set (w1 := match collectJobLinks U (as_list pg) (url rq) with
               | [] => _ | _ => _ end).
    assert (H1 : jobsEnqueued w1 = jobsEnqueued w /\ queue w1 = queue w)
      by (subst w1; destruct (collectJobLinks _ _ _); now split).
    destruct H1 as [Hj Hq]. rewrite <- Hj, <- Hq.
    destruct (negb (collectDetails cfg)).
    + destruct (slice0 _ _).
      * match goal with
        | |- context [list_tail cfg ?cx w1] =>
            destruct (list_tail_enq cfg cx w1) as (H1 & H2 & H3)
        end.
        split; [exact H1|]. right. split; [exact H3 | exact H2].
      * cbn. auto.
    + apply enqueue_loop_enq.
Qed.

Lemma resume_enq cfg k w :
  jobsEnqueued (resume cfg k w).1
  = (jobsEnqueued w + if is_enqueueing k then 1 else 0)%Z
  /\ ((from_option is_enqueueing false (resume cfg k w).2 = true
       /\ (jobsEnqueued (resume cfg k w).1 < RESULTS_WANTED cfg)%Z
       /\ detail_requests (queue (resume cfg k w).1)
          = (detail_requests (queue w) + 1)%Z)
      \/ (from_option is_enqueueing false (resume cfg k w).2 = false
          /\ detail_requests (queue (resume cfg k w).1)
             = detail_requests (queue w))).
Proof.
  destruct k as [n cx|rest cx| |u t]; cbn [resume is_enqueueing].
  - match goal with
    | |- context [list_tail cfg cx ?w0] =>
        destruct (list_tail_enq cfg cx w0) as (H1 & H2 & H3)
    end.
    rewrite H1, H2, H3. cbn. split; [lia|]. right. now split.
  - destruct (enqueue_loop_enq cfg cx rest
                (set_enqueued (jobsEnqueued w + 1) w)) as (H1 & H2).
    rewrite H1. cbn [set_enqueued jobsEnqueued queue] in *.
    split; [reflexivity | exact H2].
  - cbn. split; [lia|]. right. now split.
  - cbn. split; [lia|]. right. now split.
Qed.

Lemma step_enqueue U P cfg n c c' :
  step U P cfg n c c' -> enqueue_ok cfg n c -> enqueue_ok cfg n c'.
Proof.
  intros Hs (H0 & Hb & Hd & Hl).
  destruct Hs as [c rq pg q1 q2 Eq Hlen | c k r1 r2 Hfl];
    [unfold started | unfold resumed].
  - pose proof (start_enq U P cfg rq pg (take_request q1 q2 (shared c)))
      as (Hj & Hcase).
    destruct (start U P cfg rq pg (take_request q1 q2 (shared c))) as [w' k].
    cbn [fst snd shared in_flight take_request jobsEnqueued queue] in *.
    pose proof (enqueueing_bounds (in_flight c)) as Hp.
    pose proof (length_option_list k) as Hk1.
    assert (Hq : (detail_requests (q1 ++ q2)
                  <= detail_requests (queue (shared c)))%Z).
    { rewrite Eq, !detail_requests_app.
      change (rq :: q2) with ([rq] ++ q2).
      rewrite detail_requests_app, detail_requests_single.
      destruct (is_detail rq); lia. }
    unfold enqueue_ok. cbn [shared in_flight].
    rewrite enqueueing_app, enqueueing_option, Hj, length_app.
    unfold zlen in Hp.
    destruct Hcase as [(-> & Hlt & Hdr)|[-> Hdr]]; rewrite Hdr;
      repeat split; lia.
  - pose proof (resume_enq cfg k (shared c)) as (Hj & Hcase).
    destruct (resume cfg k (shared c)) as [w' k'].
    cbn [fst snd shared in_flight] in *. rewrite Hfl in *.
    change (k :: r2) with ([k] ++ r2) in *.
    rewrite !enqueueing_app in *.
    pose proof (enqueueing_bounds r1) as Hp1.
    pose proof (enqueueing_bounds r2) as Hp2.
    pose proof (length_option_list k') as Hk1.
    unfold enqueue_ok. cbn [shared in_flight].
    rewrite !enqueueing_app, enqueueing_option, !length_app in *.
    unfold enqueueing at 2 in Hb. unfold enqueueing at 2 in Hd.
    cbn [List.filter] in Hb, Hd. cbn [length] in Hl.
    unfold zlen in *.
    destruct Hcase as [(-> & Hlt & Hdr)|[-> Hdr]]; rewrite Hdr;
      destruct (is_enqueueing k); cbn [length] in *; repeat split; lia.
Qed.

(** X21.  With up to [n] handlers in flight, the enqueue counter and the
    number of detail requests in the queue stay within
    [RESULTS_WANTED + n - 1]: within [RESULTS_WANTED] when requests are
    handled one at a time. *)
Theorem enqueues_bounded (U : str -> str -> option str)
    (P : str -> list node) (cfg : config)
    (n : nat) (initialUrls : list str) (c : crawl) :
  (1 <= RESULTS_WANTED cfg)%Z -> (1 <= n)%nat ->
  reachable U P cfg n initialUrls c ->
  (jobsEnqueued (shared c) <= RESULTS_WANTED cfg + Z.of_nat n - 1)%Z
  /\ (detail_requests (queue (shared c))
      <= RESULTS_WANTED cfg + Z.of_nat n - 1)%Z.
Proof.
  intros HN Hn Hr.
  assert (H : enqueue_ok cfg n c).
  { induction Hr as [|c c' _ IH Hs].
    - unfold enqueue_ok, enqueueing, detail_requests, zlen. cbn [initial shared in_flight jobsEnqueued queue List.filter length].
      assert (E : List.filter is_detail
                    (List.map (fun u => Request u false 1 None) initialUrls) = []).
      { induction initialUrls as [|u l IH]; [reflexivity | exact IH]. }
      rewrite E. cbn [length]. repeat split; lia.
    - eapply step_enqueue; eauto. }
  destruct H as (H0 & Hb & Hd & _).
  pose proof (enqueueing_bounds (in_flight c)). lia.
Qed.

Lemma enqueues_bounded_witness :
  match play resolve_absolute parse_text one_wanted 2 racing_schedule
             (initial [start_dev; start_ops]) with
  | Some c =>
      (jobsEnqueued (shared c) <= RESULTS_WANTED one_wanted + Z.of_nat 2 - 1)%Z
  | None => False
  end.
Proof.
  destruct (play resolve_absolute parse_text one_wanted 2 racing_schedule
                 (initial [start_dev; start_ops])) as [c|] eqn:E;
    [|vm_compute in E; discriminate].
  exact (proj1 (enqueues_bounded resolve_absolute parse_text one_wanted 2
                  [start_dev; start_ops] c ltac:(cbn; lia) ltac:(lia)
                  (play_reachable _ _ _ _ _ _ _ _ (reach_initial _ _ _ _ _) E))).
Defined.

(** ** The merge and the specification *)

Lemma digit_not_space c : is_digit c = true -> is_space c = false.
Proof.
  unfold is_digit, is_space, in_range. intros H.
  apply andb_true_iff in H as [H1 H2].
  apply N.leb_le in H1. apply N.leb_le in H2.
  repeat match goal with
         | |- context [?a =? ?b] =>
             destruct (N.eqb_spec a b); [lia|]
         | |- context [?a <=? ?b] =>
             destruct (N.leb_spec a b); try lia
         end; reflexivity.
Qed.

Lemma group3_head a l : exists t, group3 (a :: l) = a :: t.
Proof. destruct l as [|b [|c [|d l]]]; eexists; reflexivity. Qed.

Lemma toLocaleString_inked x : forallb is_space (toLocaleString x) = false.
Proof.
  destruct x as [n|]; [|reflexivity]. unfold toLocaleString.
  rewrite forallb_rev.
  assert (Hd : forallb is_digit (rev (dec (shortest n))) = true)
    by (rewrite forallb_rev; apply uint_str_digits).
  destruct (rev (dec (shortest n))) as [|a l] eqn:E.
  - apply (f_equal (@rev N)) in E. rewrite rev_involutive in E.
    now apply dec_nonempty in E.
  - destruct (group3_head a l) as [t ->]. cbn [forallb] in *.
    apply andb_true_iff in Hd as [Ha _].
    now rewrite (digit_not_space a Ha).
Qed.

Lemma inked_app_r a b :
  forallb is_space b = false -> forallb is_space (a ++ b) = false.
Proof. intros H. rewrite forallb_app, H. apply andb_false_r. Qed.

Lemma inked_app_l a b :
  forallb is_space a = false -> forallb is_space (a ++ b) = false.
Proof. intros H. now rewrite forallb_app, H. Qed.

Lemma joined_inked sep a b :
  a = [] \/ forallb is_space a = false ->
  b = [] \/ forallb is_space b = false ->
  join sep (List.filter nonempty [a; b]) = []
  \/ forallb is_space (join sep (List.filter nonempty [a; b])) = false.
Proof.
  intros [->|Ha] [->|Hb]; cbn [List.filter nonempty].
  - now left.
  - destruct b; [now left|]. right. exact Hb.
  - destruct a; [now left|]. right. exact Ha.
  - destruct a as [|x a]; [discriminate Ha|].
    destruct b as [|y b]; [discriminate Hb|].
    right. cbn [List.filter nonempty join]. now apply inked_app_l.
Qed.

(** A salary rendered from the structured data holds an amount: it is
    empty, or not blank. *)
Lemma structured_salary_inked ld :
  structured_salary ld = []
  \/ forallb is_space (structured_salary ld) = false.
Proof.
  destruct ld as [p|]; [|now left]. cbn [structured_salary from_option].
  unfold enrich_salary. destruct (baseSalary p) as [sal|]; [|now left].
  destruct (match sal_value sal with
            | Some (SalNumber _) => _ | Some (SalQuantity _) => _ | None => _
            end) as [min max].
  destruct (_ || _); [|now left].
  assert (Hmk : forall (cur : str) (n : option N),
             (if truthy_num n
              then cur ++ space ++ toLocaleString (to_number (default 0 n))
              else []) = []
             \/ forallb is_space
                  (if truthy_num n
                   then cur ++ space ++ toLocaleString (to_number (default 0 n))
                   else []) = false).
  { intros cur n. destruct (truthy_num n); [right|now left].
    apply inked_app_r, inked_app_r, toLocaleString_inked. }
  match goal with
  | |- or_str ?r [] = [] \/ _ =>
      replace (or_str r []) with r by (unfold or_str; now destruct r)
  end.
  apply joined_inked; apply Hmk.
Qed.

Lemma inked_not_blank s :
  s = [] \/ forallb is_space s = false -> not_blank s.
Proof.
  unfold not_blank. intros [->|H]; [reflexivity|].
  destruct s as [|a s]; [discriminate H|]. cbn [nonempty].
  destruct (cleanText (a :: s)) eqn:E; [|reflexivity].
  apply cleanText_nil_iff in E. congruence.
Qed.

Lemma merge_three_tier seed cascade structured :
  not_blank structured ->
  merge seed cascade structured = three_tier seed cascade structured.
Proof. unfold merge, three_tier, not_blank. now intros ->. Qed.

(** Outside these bounds the code tests a structured value as it stands:
    a structured title of blanks replaces the title of the page, and an
    employment type whose first entry is empty erases the job type of
    the card. *)
Example structured_blanks_override :
  title (r_fields (extractFromDetail resolve_absolute parse_text
                     (seeded (SeedRec (js "A") [] [] [] [] []))
                     (with_title_and_posting "C" (entitled "  "))))
  = js "  "
  /\ merge (js "A") (js "C") (js "  ") = js "C"
  /\ job_type (r_fields (extractFromDetail resolve_absolute parse_text
                           (seeded (SeedRec [] [] [] (js "Full Time") [] []))
                           (with_posting
                              (JobPosting None None None
                                 (Some (Many [] [js "CONTRACTOR"]))
                                 None None None None None None))))
     = [].
Proof. repeat split; vm_compute; reflexivity. Qed.

(** C1 (amended).  For [title], [company], [date_posted], [job_type] and
    [salary_range], where the structured-data value is empty or holds
    more than white space, the merged field is the structured-data value
    when it is not empty after normalisation, else the cascade value when
    that is not empty, else the seed value ([date_posted] has no seed;
    the structured [job_type] is the re-cased first employment type, and
    an array of employment types whose first entry is empty is left out
    too); an empty higher tier never replaces a populated lower one, and
    [merge("A", "", "B") = "B"], [merge("A", "C", "") = "C"] and the
    all-empty merge hold.  The structured street address takes the same
    precedence in [location].  The structured category and the joined
    locality, region and country only fill a gap: they are taken when
    cascade and seed are both empty. *)
Theorem merge_precedence (U : str -> str -> option str)
    (P : str -> list node) (rq : request) (d : detailDoc) :
  let ld := parseJsonLdJob (ld_blocks d) in
  let out := r_fields (extractFromDetail U P rq d) in
  (not_blank (structured_title ld) ->
   title out
   = merge (seed_tier s_title rq) (cascade_tier (hits_title d))
           (structured_title ld))
  /\ (not_blank (structured_company ld) ->
      company out
      = merge (seed_tier s_company rq) (cascade_tier (hits_company d))
              (structured_company ld))
  /\ (not_blank (structured_date ld) ->
      date_posted out
      = merge [] (default [] (extractDatePosted (date_scope d) (body d)))
              (structured_date ld))
  /\ (truthy_many (ld ≫= employmentType)
      = nonempty (cleanText (structured_job_type ld)) ->
      job_type out
      = merge (seed_tier s_job_type rq) (cascade_tier (hits_job_type d))
              (structured_job_type ld))
  /\ salary_range out
     = merge (seed_tier s_salary_range rq) (cascade_tier (hits_salary d))
             (structured_salary ld)
  /\ (title out = [] ->
      seed_tier s_title rq = [] /\ cascade_tier (hits_title d) = []
      /\ structured_title ld = [])
  /\ category out
     = three_tier (structured_category ld) (seed_tier s_category rq)
                  (cascade_tier (hits_category d))
  /\ (not_blank (structured_street ld) ->
      location out
      = merge (or_str (seed_tier s_location rq) (structured_address_parts ld))
              (cascade_tier (hits_location d)) (structured_street ld))
  /\ title (r_fields (extractFromDetail U P
                        (seeded (SeedRec (js "A") [] [] [] [] []))
                        (with_posting (entitled "B"))))
     = merge (js "A") [] (js "B")
  /\ merge (js "A") [] (js "B") = js "B"
  /\ title (r_fields (extractFromDetail U P
                        (seeded (SeedRec (js "A") [] [] [] [] []))
                        (with_title_and_posting "C" (entitled ""))))
     = merge (js "A") (js "C") []
  /\ merge (js "A") (js "C") [] = js "C"
  /\ title (r_fields (extractFromDetail U P
                        (seeded (SeedRec [] [] [] [] [] []))
                        (with_posting (entitled ""))))
     = merge [] [] []
  /\ merge [] [] [] = [].
Proof.
  intros ld out.
  destruct (merge_as_coded U P rq d)
    as (Ht & Hc & Hd & He & Hj & Hs & Hk & Hl & E1 & E2 & E3).
  fold ld in Ht, Hc, Hd, He, Hj, Hs, Hk, Hl.
  fold out in Ht, Hc, Hd, He, Hj, Hs, Hk, Hl.
  split; [intros H; now rewrite merge_three_tier|].
  split; [intros H; now rewrite merge_three_tier|].
  split; [intros H; now rewrite merge_three_tier|].
  split.
  { intros H. rewrite Hj. unfold merge. rewrite <- H.
    unfold structured_job_type.
    destruct (ld ≫= employmentType) as [et|]; cbn [from_option];
      [destruct (truthy_many (Some et)); [reflexivity|]|cbn [truthy_many]];
      unfold three_tier;
      destruct (nonempty (cascade_tier (hits_job_type d))); try reflexivity;
      now destruct (seed_tier s_job_type rq). }
  split.
  { rewrite Hs. symmetry. apply merge_three_tier, inked_not_blank,
      structured_salary_inked. }
  split; [exact He|].
  split; [exact Hk|].
  split.
  { intros H. rewrite Hl. unfold merge. rewrite H.
    destruct (nonempty (structured_street ld)); [reflexivity|].
    unfold three_tier, or_str.
    now destruct (nonempty (cascade_tier (hits_location d))). }
  rewrite E1, E2, E3. repeat split; vm_compute; reflexivity.
Qed.

Lemma merge_precedence_witness :
  not_blank (js "B")
  /\ title (r_fields (extractFromDetail resolve_absolute parse_text
                        (seeded (SeedRec (js "A") [] [] [] [] []))
                        (with_posting (entitled "B")))) = js "B".
Proof.
  split; [reflexivity|].
  exact (proj1 (merge_precedence resolve_absolute parse_text
                  (seeded (SeedRec (js "A") [] [] [] [] []))
                  (with_posting (entitled "B"))) eq_refl).
Defined.
